(** * rainbow-roads: the filter compiler of the [paint] package

    A shallow embedding of [paint/expr.go] (membership expander, negation
    normalizer, DNF converter), of the code generator and query assembler
    of the [paint] package ([buildQuery], [buildCriteria], [queryBuilder])
    and of [conv.FormatFloat] / [geo.RadiansToDegrees]; then of the cache
    of ways ([packWays], [unpackWays]), of the selection loop of
    [parse.Parse], of the naming of the output file in [worms.Run] and
    [paint.Run], and of the pixel and stream helpers of the [worms]
    package ([drawFill], [glowPlotter], [optimizeFrames], [gifWriter],
    [pngWriter]).

    Modelling conventions.

    - [ast.Node] values are an inductive tree, and [ast.Walk] is the
      traversal of the expression library: [Enter], the children from left
      to right, [Exit].  The Go passes patch the tree in place; a callback
      is modelled by the tree that hangs from its slot when it returns.
      The passes also put one operand pointer into several nodes they
      build ([bi.Left] in every comparison of an expanded membership test,
      [ba.Right] in both conjunctions of a distributed one).  The tree
      model keeps such copies apart, whereas in Go an in-place update made
      below one of them ([distributeAndFoldNot] assigning [bn.Left],
      [bn.Operator], [b.Value]) shows through the others.  The statements
      about a single callback, about the examples (whose shared operands
      are leaves) and about the generator, which only reads the tree and
      is proved safe on every tree, do not depend on the difference.
    - Go [int] is [Z], [float64] is the binary64 type [float].
    - A Go [string] is a [string] of bytes.
    - A run-time panic (index out of range) is [None].
    - [parser.Parse], [fmt.Sprint] of a [float64] and
      [strconv.FormatFloat] are taken as parameters.
    - The statements about a whole pass or about the four passes in a row
      are statements about the passes on trees.  A pass that runs on a
      tree meets no shared operand, with two exceptions: the later rounds
      of [toDNF] walk the operand that an earlier round has put into two
      conjunctions, and [distributeAndFoldNot] meets the left operand that
      an expander has put into every comparison of a membership test.  In
      Go a rewrite below such an operand is made once and shows in every
      place, where the tree model makes it in every copy; only a negation
      that is itself the left operand of an expanded membership test is
      rewritten by Go once per comparison on the same node.
    - A [uint8] is an [N] with its wrap-around written out, a [[]byte] a
      list of [ascii], a Go map that is only looked up a function.
    - [float32] with its conversions, [msgpack], the haversine distance,
      [os.IsPathSeparator], [strings.EqualFold], [crc32] and the writer
      under [gifWriter] and [pngWriter] are taken as parameters. *)

From Stdlib Require Import ZArith Lia Bool List String Ascii Floats DecimalString.
From Stdlib Require Import Permutation.
Import ListNotations.

Set Warnings "-register-all".

Local Open Scope string_scope.
Local Open Scope Z_scope.

(** ** Strings of the Go runtime *)

Module GoString.

(** The double quote character, and the one-character string holding it. *)
Definition dquote_char : ascii := "034"%char.
Definition dq : string := String dquote_char EmptyString.

Definition byte_eqb (a b : ascii) : bool := Ascii.eqb a b.

(** [a <= c <= b] on bytes. *)
Definition between (a b c : ascii) : bool :=
  (nat_of_ascii a <=? nat_of_ascii c)%nat && (nat_of_ascii c <=? nat_of_ascii b)%nat.

Fixpoint existsb_str (p : ascii -> bool) (s : string) : bool :=
  match s with
  | EmptyString => false
  | String c r => p c || existsb_str p r
  end.

Fixpoint concat_map (f : ascii -> string) (s : string) : string :=
  match s with
  | EmptyString => EmptyString
  | String c r => f c ++ concat_map f r
  end.

Fixpoint rev_str (s : string) : string :=
  match s with
  | EmptyString => EmptyString
  | String c r => rev_str r ++ String c EmptyString
  end.

(** [strings.HasPrefix(s, p)]. *)
Definition HasPrefix (s p : string) : bool := String.prefix p s.

(** [s[0]]: panics on the empty string. *)
Definition first_byte (s : string) : option ascii :=
  match s with
  | EmptyString => None
  | String c _ => Some c
  end.

(** [s[:1]] and [s[1:]]: both panic on the empty string. *)
Definition split_first (s : string) : option (string * string) :=
  match s with
  | EmptyString => None
  | String c r => Some (String c EmptyString, r)
  end.

(** [s[:len(s)-1]] and [s[len(s)-1:]]: both panic on the empty string. *)
Fixpoint split_last (s : string) : option (string * string) :=
  match s with
  | EmptyString => None
  | String c r =>
      match split_last r with
      | None => Some (EmptyString, String c EmptyString)
      | Some (i, l) => Some (String c i, l)
      end
  end.

(** [strings.TrimRight(s, cutset)]: drops every trailing byte of [s] that
    occurs in [cutset]. *)
Fixpoint TrimLeft (s cutset : string) : string :=
  match s with
  | EmptyString => EmptyString
  | String c r => if existsb_str (byte_eqb c) cutset then TrimLeft r cutset else s
  end.

Definition TrimRight (s cutset : string) : string :=
  rev_str (TrimLeft (rev_str s) cutset).

Definition hex_digit (n : nat) : ascii :=
  match n with
  | 0 => "0" | 1 => "1" | 2 => "2" | 3 => "3" | 4 => "4" | 5 => "5"
  | 6 => "6" | 7 => "7" | 8 => "8" | 9 => "9" | 10 => "a" | 11 => "b"
  | 12 => "c" | 13 => "d" | 14 => "e" | _ => "f"
  end%nat%char.

(** [strconv.Quote] on one byte.  ASCII is escaped as Go does: the quote
    and the backslash get a backslash, the control characters their
    mnemonic or [\xNN] form, printable ASCII is kept.  Bytes from 0x80 up
    are kept as they are, which is what Go does for the UTF-8 encoding
    of a printable rune. *)
Definition quote_byte (c : ascii) : string :=
  let n := nat_of_ascii c in
  let bs := String "\"%char in
  if byte_eqb c dquote_char then bs dq
  else if byte_eqb c "\"%char then bs "\"
  else if (n =? 7)%nat then bs "a"
  else if (n =? 8)%nat then bs "b"
  else if (n =? 12)%nat then bs "f"
  else if (n =? 10)%nat then bs "n"
  else if (n =? 13)%nat then bs "r"
  else if (n =? 9)%nat then bs "t"
  else if (n =? 11)%nat then bs "v"
  else if (n <? 32)%nat || (n =? 127)%nat then
    bs (String "x" (String (hex_digit (n / 16)) (String (hex_digit (n mod 16)) EmptyString)))
  else String c EmptyString.

(** [strconv.Quote(s)]. *)
Definition Quote (s : string) : string := dq ++ concat_map quote_byte s ++ dq.

(** The bytes [regexp.QuoteMeta] escapes. *)
Definition regexp_special : string := "\.+*?()|[]{}^$".

(** [regexp.QuoteMeta(s)]. *)
Definition QuoteMeta (s : string) : string :=
  concat_map
    (fun c => if existsb_str (byte_eqb c) regexp_special
              then String "\"%char (String c EmptyString)
              else String c EmptyString) s.

(** [fmt.Sprint] of an [int]. *)
Definition Sprint_int (z : Z) : string := NilZero.string_of_int (Z.to_int z).

(** [strings.Join(parts, sep)] with the empty separator. *)
Definition Join_empty (parts : list string) : string :=
  fold_right String.append EmptyString parts.

End GoString.
Import GoString.

(** ** The AST of the expression library *)

(** The node kinds of [ast.Node] that the parser yields for the filter
    grammar, with [NilNode] and [ArrayNode]; the library's remaining kinds
    (property, index, slice, method, builtin, closure, pointer, map, pair,
    constant) are treated by every function below as [NilNode] is: no pass
    rewrites them and the generator rejects them. *)
Inductive Node : Type :=
| NilNode
| IdentifierNode (Value : string)
| IntegerNode (Value : Z)
| FloatNode (Value : float)
| BoolNode (Value : bool)
| StringNode (Value : string)
| UnaryNode (Operator : string) (Operand : Node)
| BinaryNode (Operator : string) (Left Right : Node)
| MatchesNode (Left Right : Node)
| FunctionNode (Name : string) (Arguments : list Node)
| ConditionalNode (Cond Exp1 Exp2 : Node)
| ArrayNode (Nodes : list Node).

(** Induction over [Node] with the children lists covered by [Forall]. *)
Section NodeInd.
Variable P : Node -> Prop.
Hypothesis HNil : P NilNode.
Hypothesis HIdent : forall v, P (IdentifierNode v).
Hypothesis HInt : forall v, P (IntegerNode v).
Hypothesis HFloat : forall v, P (FloatNode v).
Hypothesis HBool : forall v, P (BoolNode v).
Hypothesis HString : forall v, P (StringNode v).
Hypothesis HUnary : forall op n, P n -> P (UnaryNode op n).
Hypothesis HBinary : forall op l r, P l -> P r -> P (BinaryNode op l r).
Hypothesis HMatches : forall l r, P l -> P r -> P (MatchesNode l r).
Hypothesis HFunction : forall name args, Forall P args -> P (FunctionNode name args).
Hypothesis HConditional : forall c a b, P c -> P a -> P b -> P (ConditionalNode c a b).
Hypothesis HArray : forall ns, Forall P ns -> P (ArrayNode ns).

Fixpoint Node_forall_ind (n : Node) : P n :=
  let fix all (ns : list Node) : Forall P ns :=
    match ns with
    | [] => Forall_nil P
    | x :: r => Forall_cons x (Node_forall_ind x) (all r)
    end in
  match n with
  | NilNode => HNil
  | IdentifierNode v => HIdent v
  | IntegerNode v => HInt v
  | FloatNode v => HFloat v
  | BoolNode v => HBool v
  | StringNode v => HString v
  | UnaryNode op x => HUnary op x (Node_forall_ind x)
  | BinaryNode op l r => HBinary op l r (Node_forall_ind l) (Node_forall_ind r)
  | MatchesNode l r => HMatches l r (Node_forall_ind l) (Node_forall_ind r)
  | FunctionNode name args => HFunction name args (all args)
  | ConditionalNode c a b =>
      HConditional c a b (Node_forall_ind c) (Node_forall_ind a) (Node_forall_ind b)
  | ArrayNode ns => HArray ns (all ns)
  end.
End NodeInd.

(** ** [ast.Walk] *)

(** A visitor whose [Enter] reads the node and whose [Exit] may patch it.
    [S] is the visitor's own state. *)
Record Visitor (S : Type) : Type := {
  Enter : Node -> S -> S;
  Exit : Node -> S -> Node * S
}.
Arguments Enter {S} _ _ _.
Arguments Exit {S} _ _ _.

(** [ast.Walk(&node, v)]: [Enter], then the children from left to right,
    then [Exit] on the node with its children as the walk left them. *)
Fixpoint Walk {S : Type} (v : Visitor S) (node : Node) (s : S) {struct node} : Node * S :=
  let s := Enter v node s in
  let walks :=
    fix walks (ns : list Node) (s : S) {struct ns} : list Node * S :=
      match ns with
      | [] => ([], s)
      | n :: r =>
          let '(n', s) := Walk v n s in
          let '(r', s) := walks r s in
          (n' :: r', s)
      end in
  let '(node, s) :=
    match node with
    | UnaryNode op n =>
        let '(n', s) := Walk v n s in (UnaryNode op n', s)
    | BinaryNode op l r =>
        let '(l', s) := Walk v l s in
        let '(r', s) := Walk v r s in
        (BinaryNode op l' r', s)
    | MatchesNode l r =>
        let '(l', s) := Walk v l s in
        let '(r', s) := Walk v r s in
        (MatchesNode l' r', s)
    | FunctionNode name args =>
        let '(args', s) := walks args s in (FunctionNode name args', s)
    | ConditionalNode c a b =>
        let '(c', s) := Walk v c s in
        let '(a', s) := Walk v a s in
        let '(b', s) := Walk v b s in
        (ConditionalNode c' a' b', s)
    | ArrayNode ns =>
        let '(ns', s) := walks ns s in (ArrayNode ns', s)
    | leaf => (leaf, s)
    end in
  Exit v node s.

(** The walk over a list of children, as [Walk] runs it. *)
Fixpoint WalkList {S : Type} (v : Visitor S) (ns : list Node) (s : S) : list Node * S :=
  match ns with
  | [] => ([], s)
  | n :: r =>
      let '(n', s) := Walk v n s in
      let '(r', s) := WalkList v r s in
      (n' :: r', s)
  end.

(** The middle step of [Walk]: the children of [node], left to right. *)
Definition WalkChildren {S : Type} (v : Visitor S) (node : Node) (s : S) : Node * S :=
  match node with
  | UnaryNode op n =>
      let '(n', s) := Walk v n s in (UnaryNode op n', s)
  | BinaryNode op l r =>
      let '(l', s) := Walk v l s in
      let '(r', s) := Walk v r s in
      (BinaryNode op l' r', s)
  | MatchesNode l r =>
      let '(l', s) := Walk v l s in
      let '(r', s) := Walk v r s in
      (MatchesNode l' r', s)
  | FunctionNode name args =>
      let '(args', s) := WalkList v args s in (FunctionNode name args', s)
  | ConditionalNode c a b =>
      let '(c', s) := Walk v c s in
      let '(a', s) := Walk v a s in
      let '(b', s) := Walk v b s in
      (ConditionalNode c' a' b', s)
  | ArrayNode ns =>
      let '(ns', s) := WalkList v ns s in (ArrayNode ns', s)
  | leaf => (leaf, s)
  end.

(** ** [paint/expr.go] *)

(** [operatorPairs] as the literal declares it. *)
Definition operatorPairs_literal : list (string * string) :=
  [("and", "or"); ("&&", "||"); ("==", "!="); (">=", "<"); (">", "<="); ("in", "not in")].

(** [init] adds every pair in the opposite direction. *)
Definition operatorPairs : list (string * string) :=
  fold_left (fun m kv => (m ++ [(snd kv, fst kv)])%list)
    operatorPairs_literal operatorPairs_literal.

(** [operatorPairs[k]] with its [ok] flag. *)
Fixpoint map_lookup (m : list (string * string)) (k : string) : option string :=
  match m with
  | [] => None
  | (k', v) :: r => if String.eqb k' k then Some v else map_lookup r k
  end.

(** [asBinaryIn]: the operator and the operands of an [in] / [not in] node. *)
Definition asBinaryIn (node : Node) : option (string * Node * Node) :=
  match node with
  | BinaryNode op l r =>
      if String.eqb op "in" || String.eqb op "not in" then Some (op, l, r) else None
  | _ => None
  end.

(** [asBinaryAnd]. *)
Definition asBinaryAnd (node : Node) : option (string * Node * Node) :=
  match node with
  | BinaryNode op l r =>
      if String.eqb op "and" || String.eqb op "&&" then Some (op, l, r) else None
  | _ => None
  end.

(** [asBinaryOr]. *)
Definition asBinaryOr (node : Node) : option (string * Node * Node) :=
  match node with
  | BinaryNode op l r =>
      if String.eqb op "or" || String.eqb op "||" then Some (op, l, r) else None
  | _ => None
  end.

(** [asUnaryNot]: the operator and the operand of a [not] / [!] node. *)
Definition asUnaryNot (node : Node) : option (string * Node) :=
  match node with
  | UnaryNode op n =>
      if String.eqb op "not" || String.eqb op "!" then Some (op, n) else None
  | _ => None
  end.

(** The trailing step of both expanders: a [not in] wraps the patched node. *)
Definition wrapNotIn (op : string) (node : Node) : Node :=
  if String.eqb op "not in" then UnaryNode "not" node else node.

(** The loop of [expandInArray.Exit] over [an.Nodes], [i] being the index
    of the head of [nodes] and [node] the current content of the slot. *)
Fixpoint expandInArray_loop (lhs : Node) (i : nat) (nodes : list Node) (node : Node) : Node :=
  match nodes with
  | [] => node
  | n :: rest =>
      let node' :=
        if (i =? 0)%nat then BinaryNode "==" lhs n
        else BinaryNode "or" node (BinaryNode "==" lhs n) in
      expandInArray_loop lhs (S i) rest node'
  end.

(** [expandInArray.Exit]. *)
Definition expandInArray_Exit (node : Node) : Node :=
  match asBinaryIn node with
  | Some (op, lhs, ArrayNode nodes) =>
      let node :=
        if (List.length nodes =? 0)%nat then BoolNode false
        else expandInArray_loop lhs 0 nodes node in
      wrapNotIn op node
  | _ => node
  end.

Definition expandInArray : Visitor unit :=
  {| Enter := fun _ s => s; Exit := fun node s => (expandInArray_Exit node, s) |}.

(** What [getValue] returns: the literal's value with its dynamic type, or
    the node itself. *)
Inductive any : Type :=
| AnyNil
| AnyInt (v : Z)
| AnyFloat (v : float)
| AnyBool (v : bool)
| AnyString (v : string)
| AnyNode (n : Node).

(** [getValue]. *)
Definition getValue (n : Node) : any :=
  match n with
  | NilNode => AnyNil
  | IntegerNode v => AnyInt v
  | FloatNode v => AnyFloat v
  | BoolNode v => AnyBool v
  | StringNode v => AnyString v
  | _ => AnyNode n
  end.

(** Go's [==] on two interface values: equal dynamic types and equal
    values.  Two node values are pointers to two different nodes of the
    tree, which are never the same pointer. *)
Definition any_eqb (a b : any) : bool :=
  match a, b with
  | AnyNil, AnyNil => true
  | AnyInt x, AnyInt y => Z.eqb x y
  | AnyFloat x, AnyFloat y => PrimFloat.eqb x y
  | AnyBool x, AnyBool y => Bool.eqb x y
  | AnyString x, AnyString y => String.eqb x y
  | _, _ => false
  end.

(** [expandInRange.Exit]. *)
Definition expandInRange_Exit (node : Node) : Node :=
  match asBinaryIn node with
  | Some (op, lhs, BinaryNode rop lo hi) =>
      if String.eqb rop ".." then
        let node :=
          if any_eqb (getValue lo) (getValue hi) then BinaryNode "==" lhs lo
          else BinaryNode "and" (BinaryNode ">=" lhs lo) (BinaryNode "<=" lhs hi) in
        wrapNotIn op node
      else node
  | _ => node
  end.

Definition expandInRange : Visitor unit :=
  {| Enter := fun _ s => s; Exit := fun node s => (expandInRange_Exit node, s) |}.

(** The four logical connectives that [distributeAndFoldNot.Enter] and
    [dnf.Enter] single out. *)
Definition isLogical (op : string) : bool :=
  String.eqb op "and" || String.eqb op "&&" || String.eqb op "or" || String.eqb op "||".

(** [distributeAndFoldNot.Enter].  [walk] is [ast.Walk(_, d)], which the
    double negation case runs on the grandchild before it patches the
    slot with it; [None] is a walk that has not returned. *)
Definition distributeAndFoldNot_Enter (walk : Node -> option Node) (node : Node) : option Node :=
  match asUnaryNot node with
  | Some (unop, BinaryNode bop l r) =>
      match map_lookup operatorPairs bop with
      | Some op =>
          if isLogical bop
          then Some (BinaryNode op (UnaryNode unop l) (UnaryNode unop r))
          else Some (BinaryNode op l r)
      | None => Some node
      end
  | Some (unop, operand) =>
      match asUnaryNot operand with
      | Some (_, inner) => walk inner
      | None =>
          match operand with
          | BoolNode b => Some (BoolNode (negb b))
          | _ => Some node
          end
      end
  | None => Some node
  end.

(** The option monad of the fuelled walk. *)
Definition obind {A B : Type} (m : option A) (k : A -> option B) : option B :=
  match m with
  | None => None
  | Some a => k a
  end.
Notation "x <- m ;; k" := (obind m (fun x => k))
  (at level 61, m at next level, right associativity).
Notation "' p <- m ;; k" := (obind m (fun x => match x with p => k end))
  (at level 61, p pattern, m at next level, right associativity).

Fixpoint omap_list {A B : Type} (f : A -> option B) (l : list A) : option (list B) :=
  match l with
  | [] => Some []
  | a :: r => b <- f a ;; r' <- omap_list f r ;; Some (b :: r')
  end.

(** [ast.Walk(&node, &distributeAndFoldNot{})].  This visitor's [Enter]
    patches the slot before the walk looks at the node's children, so the
    walk descends into the patched node; [Exit] does nothing.  The
    recursion is on [fuel]; [None] means the fuel ran out. *)
Fixpoint WalkNot (fuel : nat) (node : Node) : option Node :=
  match fuel with
  | O => None
  | S fuel =>
      node <- distributeAndFoldNot_Enter (WalkNot fuel) node ;;
      match node with
      | UnaryNode op n =>
          n' <- WalkNot fuel n ;; Some (UnaryNode op n')
      | BinaryNode op l r =>
          l' <- WalkNot fuel l ;; r' <- WalkNot fuel r ;; Some (BinaryNode op l' r')
      | MatchesNode l r =>
          l' <- WalkNot fuel l ;; r' <- WalkNot fuel r ;; Some (MatchesNode l' r')
      | FunctionNode name args =>
          args' <- omap_list (WalkNot fuel) args ;; Some (FunctionNode name args')
      | ConditionalNode c a b =>
          c' <- WalkNot fuel c ;; a' <- WalkNot fuel a ;; b' <- WalkNot fuel b ;;
          Some (ConditionalNode c' a' b')
      | ArrayNode ns =>
          ns' <- omap_list (WalkNot fuel) ns ;; Some (ArrayNode ns')
      | leaf => Some leaf
      end
  end.

(** A weight that no rewrite of [distributeAndFoldNot.Enter] increases and
    that every child has less of than its parent. *)
Fixpoint weight (n : Node) : nat :=
  let fix sum (ns : list Node) : nat :=
    match ns with
    | [] => O
    | x :: r => (weight x + sum r)%nat
    end in
  match n with
  | UnaryNode _ x => S (2 * weight x)
  | BinaryNode _ l r => S (weight l + weight r)
  | MatchesNode l r => S (weight l + weight r)
  | FunctionNode _ args => S (sum args)
  | ConditionalNode c a b => S (weight c + weight a + weight b)
  | ArrayNode ns => S (sum ns)
  | _ => 1%nat
  end.

Definition weights (ns : list Node) : nat :=
  fold_right (fun x acc => (weight x + acc)%nat) O ns.

(** The negation pass of [buildCriteria], with the fuel its walk needs
    ([WalkNot_total] below). *)
Definition distributeAndFoldNot_Walk (node : Node) : Node :=
  match WalkNot (S (weight node)) node with
  | Some node' => node'
  | None => node
  end.

(** The state of the [dnf] visitor. *)
Record dnf : Type := mk_dnf {
  dnf_depth : Z;
  dnf_applied : bool
}.

(** [dnf.Enter]. *)
Definition dnf_Enter (node : Node) (f : dnf) : dnf :=
  if 0 <? dnf_depth f then mk_dnf (dnf_depth f + 1) (dnf_applied f)
  else
    match node with
    | BinaryNode op _ _ =>
        if negb (String.eqb op "and") && negb (String.eqb op "&&")
           && negb (String.eqb op "or") && negb (String.eqb op "||")
        then mk_dnf (dnf_depth f + 1) (dnf_applied f)
        else f
    | _ => mk_dnf (dnf_depth f + 1) (dnf_applied f)
    end.

(** [dnf.Exit]. *)
Definition dnf_Exit (node : Node) (f : dnf) : Node * dnf :=
  if 0 <? dnf_depth f then (node, mk_dnf (dnf_depth f - 1) (dnf_applied f))
  else
    match asBinaryAnd node with
    | Some (aop, l, r) =>
        match asBinaryOr l with
        | Some (oop, ol, or) =>
            (BinaryNode oop (BinaryNode aop ol r) (BinaryNode aop or r),
             mk_dnf (dnf_depth f) true)
        | None =>
            match asBinaryOr r with
            | Some (oop, ol, or) =>
                (BinaryNode oop (BinaryNode aop l ol) (BinaryNode aop l or),
                 mk_dnf (dnf_depth f) true)
            | None => (node, f)
            end
        end
    | None => (node, f)
    end.

Definition dnf_visitor : Visitor dnf := {| Enter := dnf_Enter; Exit := dnf_Exit |}.

(** One round of [toDNF]: a walk with a fresh [dnf{}]. *)
Definition dnf_round (node : Node) : Node * bool :=
  let '(node', f) := Walk dnf_visitor node (mk_dnf 0 false) in (node', dnf_applied f).

(** The loop of [toDNF]; [limit] is the value of the loop variable when
    the body runs, which the loop condition keeps at or above zero. *)
Fixpoint toDNF_loop (limit : nat) (node : Node) : Node :=
  let '(node', applied) := dnf_round node in
  if negb applied then node'
  else
    match limit with
    | O => node'
    | S limit' => toDNF_loop limit' node'
    end.

(** [toDNF]. *)
Definition toDNF (node : Node) : Node := toDNF_loop 1000 node.

(** The number of rounds [toDNF_loop] runs. *)
Fixpoint toDNF_rounds_from (limit : nat) (node : Node) : nat :=
  let '(node', applied) := dnf_round node in
  if negb applied then 1%nat
  else
    match limit with
    | O => 1%nat
    | S limit' => S (toDNF_rounds_from limit' node')
    end.

Definition toDNF_rounds (node : Node) : nat := toDNF_rounds_from 1000 node.

(** ** [conv.FormatFloat] and [geo] *)

(** [math.Pi] as a [float64]. *)
Definition math_Pi : float := 0x1.921fb54442d18p+1%float.

(** [geo.RadiansToDegrees]. *)
Definition RadiansToDegrees (r : float) : float :=
  PrimFloat.div (PrimFloat.mul r 180%float) math_Pi.

(** [geo.Point] and [geo.Circle]. *)
Record Point : Type := mk_Point { Lat : float; Lon : float }.
Record Circle : Type := mk_Circle { Origin : Point; Radius : float }.

(** A value or a Go [error], the error being its message. *)
Inductive result (A : Type) : Type :=
| Ok (a : A)
| Err (msg : string).
Arguments Ok {A} a.
Arguments Err {A} msg.

(** ** The code generator and the query assembler *)

(** [queryBuilder].  [qstack] and [qnot] hold the Go slices with the last
    element first, so that the Go slice is the reversed list. *)
Record queryBuilder : Type := mk_qb {
  qstack : list string;
  qnot : list bool;
  qdepth : Z;
  qerr : option string
}.

(** [bangIf]. *)
Definition bangIf (str : string) (not : bool) : string :=
  if not then "!" ++ str else str.

(** [isWrapped]; [str[0]] panics on the empty string. *)
Definition isWrapped (str : string) : option bool :=
  c <- first_byte str ;;
  Some (byte_eqb c "[" || HasPrefix str "(if:").

(** [nodeName]: the type name without its [Node] suffix, lower-cased. *)
Definition nodeName (n : Node) : string :=
  match n with
  | NilNode => "nil"
  | IdentifierNode _ => "identifier"
  | IntegerNode _ => "integer"
  | FloatNode _ => "float"
  | BoolNode _ => "bool"
  | StringNode _ => "string"
  | UnaryNode _ _ => "unary"
  | BinaryNode _ _ _ => "binary"
  | MatchesNode _ _ => "matches"
  | FunctionNode _ _ => "function"
  | ConditionalNode _ _ _ => "conditional"
  | ArrayNode _ => "array"
  end.

(** [q.push(a...)] for string operands: [fmt.Sprint] puts no space between
    operands that are strings. *)
Definition push (parts : list string) (q : queryBuilder) : queryBuilder :=
  mk_qb (Join_empty parts :: qstack q) (qnot q) (qdepth q) (qerr q).

(** [q.pop()]; the index [len(q.stack)-1] is out of range on an empty stack. *)
Definition pop (q : queryBuilder) : option (string * queryBuilder) :=
  match qstack q with
  | [] => None
  | str :: rest => Some (str, mk_qb rest (qnot q) (qdepth q) (qerr q))
  end.

Definition set_err (msg : string) (q : queryBuilder) : queryBuilder :=
  mk_qb (qstack q) (qnot q) (qdepth q) (Some msg).

(** [queryBuilder.Enter]. *)
Definition qb_Enter (node : Node) (q : queryBuilder) : queryBuilder :=
  if 0 <? qdepth q then mk_qb (qstack q) (qnot q) (qdepth q + 1) (qerr q)
  else
    let not := match asUnaryNot node with Some _ => true | None => false end in
    if negb not
       && match asBinaryAnd node with Some _ => false | None => true end
       && match asBinaryOr node with Some _ => false | None => true end
    then mk_qb (qstack q) (qnot q) (qdepth q + 1) (qerr q)
    else mk_qb (qstack q) (not :: qnot q) (qdepth q) (qerr q).

(** The identifier test of the generator: some character is not a letter
    of [a-z] or [A-Z]. *)
Definition needsQuote (name : string) : bool :=
  existsb_str (fun c => negb (between "a" "z" c) && negb (between "A" "Z" c)) name.

(** The loop of the function case: one [q.pop()] per argument, appended to
    [parts] in the order of the pops. *)
Fixpoint pop_arguments (args : list Node) (parts : list string) (q : queryBuilder)
  : option (list string * queryBuilder) :=
  match args with
  | [] => Some (parts, q)
  | _ :: rest =>
      '(str, q) <- pop q ;;
      pop_arguments rest (parts ++ [str])%list q
  end.

Definition isIdentifier (n : Node) : bool :=
  match n with IdentifierNode _ => true | _ => false end.
Definition isString (n : Node) : bool :=
  match n with StringNode _ => true | _ => false end.
Definition isFunction (n : Node) : bool :=
  match n with FunctionNode _ _ => true | _ => false end.

Section Generator.

(** [fmt.Sprint] of a [float64], from the Go runtime. *)
Variable Sprint_float : float -> string.

(** The binary case of [queryBuilder.Exit], after the two pops. *)
Definition qb_Exit_binary (op : string) (l r : Node) (root not : bool)
           (lhs rhs : string) (q : queryBuilder) : option queryBuilder :=
  if String.eqb op "and" || String.eqb op "&&" then
    wl <- (if root then isWrapped lhs else Some false) ;;
    wr <- (if root && negb wl then isWrapped rhs else Some false) ;;
    if negb root || (negb wl && negb wr) then Some (push [lhs; "&&"; rhs] q)
    else
      wl <- isWrapped lhs ;;
      let lhs := if negb wl then "(if:" ++ lhs ++ ")" else lhs in
      wr <- isWrapped rhs ;;
      let rhs := if negb wr then "(if:" ++ rhs ++ ")" else rhs in
      Some (push [lhs; rhs] q)
  else if String.eqb op "or" || String.eqb op "||" then
    wl <- (if root then isWrapped lhs else Some false) ;;
    wr <- (if root && negb wl then isWrapped rhs else Some false) ;;
    if negb root || (negb wl && negb wr) then Some (push [lhs; "||"; rhs] q)
    else Some (push [rhs] (push [lhs] q))
  else if String.eqb op ">" || String.eqb op ">=" || String.eqb op "<" || String.eqb op "<="
  then
    lhs <- (if isIdentifier l then
              c <- first_byte lhs ;;
              let lhs := if negb (byte_eqb c dquote_char) then Quote lhs else lhs in
              Some ("t[" ++ lhs ++ "]")
            else Some lhs) ;;
    Some (push [lhs; op; rhs] q)
  else
    '(op, rhs) <-
      (if String.eqb op "contains" then
         Some ("~", if isString r then QuoteMeta rhs else rhs)
       else if String.eqb op "startsWith" then
         if isString r then
           '(h, t) <- split_first rhs ;; Some ("~", h ++ "^" ++ QuoteMeta t)
         else Some ("~", rhs)
       else if String.eqb op "endsWith" then
         if isString r then
           '(i, t) <- split_last rhs ;; Some ("~", QuoteMeta i ++ "$" ++ t)
         else Some ("~", rhs)
       else Some (op, rhs)) ;;
    let root := if isFunction l || isFunction r then false else root in
    if root then
      if String.eqb op "==" || String.eqb op "!=" then
        let '(lhs, rhs) := if isIdentifier r then (rhs, lhs) else (lhs, rhs) in
        let not := if String.eqb op "!=" then negb not else not in
        let '(op, rhs) :=
          if String.eqb rhs (dq ++ dq) then ("~", dq ++ "^$" ++ dq) else ("=", rhs) in
        Some (push ["["; lhs; bangIf op not; rhs; "]"] q)
      else Some (push ["["; lhs; bangIf op not; rhs; "]"] q)
    else Some (push [lhs; bangIf op not; rhs] q).

(** [queryBuilder.Exit]. *)
Definition qb_Exit (node : Node) (q : queryBuilder) : option queryBuilder :=
  match qerr q with
  | Some _ => Some q
  | None =>
      let depth := if 0 <? qdepth q then qdepth q - 1 else qdepth q in
      let root := depth =? 0 in
      let '(not, nots) :=
        match qnot q with
        | b :: rest => if root then (b, rest) else (false, qnot q)
        | [] => (false, [])
        end in
      let q := mk_qb (qstack q) nots depth (qerr q) in
      let inverted :=
        match node with
        | IntegerNode _ | FloatNode _ | StringNode _ => not
        | _ => false
        end in
      if inverted then Some (set_err ("inverted " ++ nodeName node ++ " not supported") q)
      else
        match node with
        | IdentifierNode value =>
            let name := if needsQuote value then Quote value else value in
            if negb root then Some (push [bangIf name not] q)
            else if not then Some (push ["["; name; "=" ++ dq ++ "no" ++ dq ++ "]"] q)
            else Some (push ["["; name; "=" ++ dq ++ "yes" ++ dq ++ "]"] q)
        | IntegerNode value => Some (push [Sprint_int value] q)
        | FloatNode value => Some (push [Sprint_float value] q)
        | BoolNode value =>
            if negb (Bool.eqb value not) then Some (push [dq ++ "yes" ++ dq] q)
            else Some (push [dq ++ "no" ++ dq] q)
        | StringNode value => Some (push [Quote value] q)
        | UnaryNode op _ =>
            if negb root || (negb (String.eqb op "not") && negb (String.eqb op "!")) then
              '(str, q) <- pop q ;;
              Some (push [bangIf op not; "("; str; ")"] q)
            else Some q
        | BinaryNode op l r =>
            '(rhs, q) <- pop q ;;
            '(lhs, q) <- pop q ;;
            qb_Exit_binary op l r root not lhs rhs q
        | MatchesNode _ _ =>
            '(rhs, q) <- pop q ;;
            '(lhs, q) <- pop q ;;
            if root then Some (push ["["; lhs; bangIf "~" not; rhs; "]"] q)
            else Some (push [lhs; bangIf "~" not; rhs] q)
        | FunctionNode name args =>
            if root && String.eqb name "is_tag" && (List.length args =? 1)%nat then
              '(str, q) <- pop q ;;
              Some (push ["["; bangIf str not; "]"] q)
            else
              '(parts, q) <- pop_arguments args [bangIf name not; "("] q ;;
              Some (push (parts ++ [")"])%list q)
        | ConditionalNode _ _ _ =>
            '(e2, q) <- pop q ;;
            '(e1, q) <- pop q ;;
            '(c, q) <- pop q ;;
            Some (push [c; "?"; e1; ":"; e2] q)
        | _ => Some (set_err (nodeName node ++ " not supported") q)
        end
  end.

(** The generator as a visitor.  A panic unwinds the walk: once the state
    is [None] no callback runs any more. *)
Definition qb_visitor : Visitor (option queryBuilder) :=
  {| Enter := fun node s => option_map (qb_Enter node) s;
     Exit := fun node s => (node, obind s (qb_Exit node)) |}.

(** The loop of [buildCriteria] over [qb.stack], in slice order. *)
Fixpoint wrapCriteria (crits : list string) : option (list string) :=
  match crits with
  | [] => Some []
  | crit :: rest =>
      w <- isWrapped crit ;;
      rest' <- wrapCriteria rest ;;
      Some ((if negb w then "(if:" ++ crit ++ ")" else crit) :: rest')
  end.

(** The four rewrite passes of [buildCriteria], in its order. *)
Definition rewriteTree (tree : Node) : Node :=
  let tree := fst (Walk expandInArray tree tt) in
  let tree := fst (Walk expandInRange tree tt) in
  let tree := distributeAndFoldNot_Walk tree in
  toDNF tree.

(** The state in which the generator's walk of [tree] ends. *)
Definition generate (tree : Node) : option queryBuilder :=
  snd (Walk qb_visitor tree (Some (mk_qb [] [] 0 None))).

(** [buildCriteria] from the parsed tree on. *)
Definition buildCriteriaTree (tree : Node) : option (result (list string)) :=
  qb <- generate (rewriteTree tree) ;;
  match qerr qb with
  | Some e => Some (Err e)
  | None => crits <- wrapCriteria (rev (qstack qb)) ;; Some (Ok crits)
  end.

(** [parser.Parse] of the expression library, reduced to the tree or the
    error it returns. *)
Variable parser_Parse : string -> result Node.

(** [buildCriteria]. *)
Definition buildCriteria (filter : string) : option (result (list string)) :=
  match parser_Parse filter with
  | Err e => Some (Err e)
  | Ok tree => buildCriteriaTree tree
  end.

(** [strconv.FormatFloat(val, 'f', 5, 64)], from the Go runtime. *)
Variable FormatFloat_f5 : float -> string.

(** [conv.FormatFloat]. *)
Definition FormatFloat (val : float) : string :=
  let str := FormatFloat_f5 val in
  TrimRight (TrimRight str "0") ".".

(** The [prefix] of [buildQuery]. *)
Definition queryPrefix (region : Circle) : string :=
  "way(around:" ++ FormatFloat (Radius region) ++ ","
  ++ FormatFloat (RadiansToDegrees (Lat (Origin region))) ++ ","
  ++ FormatFloat (RadiansToDegrees (Lon (Origin region))) ++ ")".

(** The loop of [buildQuery] that appends three parts per criterion. *)
Fixpoint appendCriteria (parts : list string) (prefix : string) (crits : list string)
  : list string :=
  match crits with
  | [] => parts
  | crit :: rest => appendCriteria (parts ++ [prefix; crit; ";"])%list prefix rest
  end.

(** [buildQuery]. *)
Definition buildQuery (region : Circle) (filter : string) : option (result string) :=
  r <- buildCriteria filter ;;
  match r with
  | Err e => Some (Err ("overpass query error: " ++ e))
  | Ok crits =>
      let prefix := queryPrefix region in
      let parts := ["[out:json];("] in
      let parts := appendCriteria parts prefix crits in
      let parts := (parts ++ [");out tags geom qt;"])%list in
      Some (Ok (Join_empty parts))
  end.

End Generator.

(** * Specifications *)

(** ** What the passes are expected to build *)

(** [LeftDisjunction lhs es d]: [d] is the left-associated disjunction of
    the comparisons [lhs == e] for the elements [e] of the non-empty list
    [es], in the order of [es]. *)
Inductive LeftDisjunction (lhs : Node) : list Node -> Node -> Prop :=
| LD_first : forall e, LeftDisjunction lhs [e] (BinaryNode "==" lhs e)
| LD_next : forall es e d,
    LeftDisjunction lhs es d ->
    LeftDisjunction lhs (es ++ [e]) (BinaryNode "or" d (BinaryNode "==" lhs e)).

(** The disjuncts of a left-associated disjunction, leftmost first. *)
Fixpoint disjuncts (d : Node) : list Node :=
  match d with
  | BinaryNode "or" l r => disjuncts l ++ [r]
  | _ => [d]
  end.

(** A unary negation around [node] when [negated] holds. *)
Definition negatedIf (negated : bool) (node : Node) : Node :=
  if negated then UnaryNode "not" node else node.

(** Equality of two range bounds by literal value: both are literals of
    the same kind with the same value. *)
Definition literalValueEqual (lo hi : Node) : bool :=
  match lo, hi with
  | NilNode, NilNode => true
  | IntegerNode a, IntegerNode b => Z.eqb a b
  | FloatNode a, FloatNode b => PrimFloat.eqb a b
  | BoolNode a, BoolNode b => Bool.eqb a b
  | StringNode a, StringNode b => String.eqb a b
  | _, _ => false
  end.

Definition isLiteral (n : Node) : bool :=
  match n with
  | NilNode | IntegerNode _ | FloatNode _ | BoolNode _ | StringNode _ => true
  | _ => false
  end.

(** The registered duals, in both directions. *)
Inductive Dual : string -> string -> Prop :=
| Dual_and : Dual "and" "or"
| Dual_or : Dual "or" "and"
| Dual_andand : Dual "&&" "||"
| Dual_oror : Dual "||" "&&"
| Dual_eq : Dual "==" "!="
| Dual_ne : Dual "!=" "=="
| Dual_ge : Dual ">=" "<"
| Dual_lt : Dual "<" ">="
| Dual_gt : Dual ">" "<="
| Dual_le : Dual "<=" ">"
| Dual_in : Dual "in" "not in"
| Dual_notin : Dual "not in" "in".

(** The distributive law: [(B or C) and D] becomes [(B and D) or (C and D)],
    and [A and (B or C)], [A] not being a disjunction, becomes
    [(A and B) or (A and C)]. *)
Inductive Distributes : Node -> Node -> Prop :=
| Distributes_left : forall a o b c d,
    a = "and" \/ a = "&&" -> o = "or" \/ o = "||" ->
    Distributes (BinaryNode a (BinaryNode o b c) d)
                (BinaryNode o (BinaryNode a b d) (BinaryNode a c d))
| Distributes_right : forall a o l b c,
    a = "and" \/ a = "&&" -> o = "or" \/ o = "||" ->
    asBinaryOr l = None ->
    Distributes (BinaryNode a l (BinaryNode o b c))
                (BinaryNode o (BinaryNode a l b) (BinaryNode a l c)).

(** The tree after [k] rounds of [toDNF]. *)
Fixpoint dnf_iterate (k : nat) (node : Node) : Node :=
  match k with
  | O => node
  | S k' => dnf_iterate k' (fst (dnf_round node))
  end.

(** [a or x or ... or x], left-associated, with [k] disjunctions. *)
Fixpoint or_chain (k : nat) : Node :=
  match k with
  | O => IdentifierNode "a"
  | S k' => BinaryNode "or" (or_chain k') (IdentifierNode "x")
  end.

(** [(a or x or ... or x) and d] with a thousand disjunctions. *)
Definition deep_conjunction : Node :=
  BinaryNode "and" (or_chain 1000) (IdentifierNode "d").

(** The trees of the filter grammar: an identifier has a name. *)
Fixpoint wellFormed (n : Node) : bool :=
  match n with
  | IdentifierNode v => negb (String.eqb v EmptyString)
  | UnaryNode _ x => wellFormed x
  | BinaryNode _ l r => wellFormed l && wellFormed r
  | MatchesNode l r => wellFormed l && wellFormed r
  | FunctionNode _ args => forallb wellFormed args
  | ConditionalNode c a b => wellFormed c && wellFormed a && wellFormed b
  | ArrayNode ns => forallb wellFormed ns
  | _ => true
  end.

(** Every fragment on the stack has at least one byte. *)
Definition NonEmptyFragments (stack : list string) : Prop :=
  Forall (fun s => s <> EmptyString) stack.

(** The number of fragments [queryBuilder.Exit] pops for [n] at most. *)
Definition arity (n : Node) : nat :=
  match n with
  | UnaryNode _ _ => 1
  | BinaryNode _ _ _ => 2
  | MatchesNode _ _ => 2
  | FunctionNode _ args => List.length args
  | ConditionalNode _ _ _ => 3
  | _ => 0
  end.

(** [Grow k q q']: if [q'] holds no error, neither did [q], every fragment
    of [q'] has a byte, and its stack is at least [k] fragments higher
    than the stack of [q]. *)
Definition Grow (k : nat) (q q' : queryBuilder) : Prop :=
  qerr q' = None ->
  qerr q = None /\ NonEmptyFragments (qstack q')
  /\ (List.length (qstack q) + k <= List.length (qstack q'))%nat.

(** The generator's walk of [node] returns and leaves at least one more
    fragment, or an error. *)
Definition WalkOk (Sprint_float : float -> string) (node : Node) : Prop :=
  wellFormed node = true ->
  forall q, (qerr q = None -> NonEmptyFragments (qstack q)) ->
  exists q', Walk (qb_visitor Sprint_float) node (Some q) = (node, Some q') /\ Grow 1 q q'.

(** The last byte of a string. *)
Fixpoint last_byte (s : string) : option ascii :=
  match s with
  | EmptyString => None
  | String c EmptyString => Some c
  | String _ r => last_byte r
  end.

(** [n] zero digits. *)
Fixpoint zeros (n : nat) : string :=
  match n with
  | O => EmptyString
  | S n' => String "0" (zeros n')
  end.

(** The decimal [ip.frac] without a fraction when [frac] is empty. *)
Definition minimalDecimal (ip frac : string) : string :=
  match frac with
  | EmptyString => ip
  | _ => ip ++ "." ++ frac
  end.

(** The query document of the wire format: the preamble, one statement
    [way(around:radius,lat,lon)crit;] per criterion, the epilogue. *)
Definition queryDocument (radius lat lon : string) (crits : list string) : string :=
  "[out:json];("
  ++ String.concat EmptyString
       (map (fun crit => "way(around:" ++ radius ++ "," ++ lat ++ "," ++ lon ++ ")"
                         ++ crit ++ ";") crits)
  ++ ");out tags geom qt;".

(** The filter [highway in ['primary','secondary']] and the tree the
    parser returns for it. *)
Definition highway_filter : string := "highway in ['primary','secondary']".

Definition highway_tree : Node :=
  BinaryNode "in" (IdentifierNode "highway")
    (ArrayNode [StringNode "primary"; StringNode "secondary"]).

(** Instances of the three functions the generator takes from outside, for
    the closed examples: a parser that returns [highway_tree], and number
    formatters with a fixed output. *)
Definition parse_highway (filter : string) : result Node := Ok highway_tree.
Definition Sprint_float_fixed (f : float) : string := "1.5".
Definition FormatFloat_f5_fixed (f : float) : string := "1500.00000".

(** A state whose error cell is set. *)
Definition latched_state : queryBuilder :=
  mk_qb ["highway"] [false] 1 (Some "array not supported").

(** ** What the passes leave behind *)

(** [P] holds of every child of [n]. *)
Definition ChildrenSat (P : Node -> Prop) (n : Node) : Prop :=
  match n with
  | UnaryNode _ x => P x
  | BinaryNode _ l r => P l /\ P r
  | MatchesNode l r => P l /\ P r
  | FunctionNode _ args => Forall P args
  | ConditionalNode c a b => P c /\ P a /\ P b
  | ArrayNode ns => Forall P ns
  | _ => True
  end.

(** A membership test, [in] or [not in], against an array literal. *)
Definition isArrayMembership (n : Node) : bool :=
  match asBinaryIn n with
  | Some (_, _, ArrayNode _) => true
  | _ => false
  end.

(** A membership test against a range [lo..hi]. *)
Definition isRangeMembership (n : Node) : bool :=
  match asBinaryIn n with
  | Some (_, _, BinaryNode rop _ _) => String.eqb rop ".."
  | _ => false
  end.

(** No node of the tree satisfies [p]. *)
Fixpoint noneIs (p : Node -> bool) (n : Node) : bool :=
  negb (p n)
  && match n with
     | UnaryNode _ x => noneIs p x
     | BinaryNode _ l r => noneIs p l && noneIs p r
     | MatchesNode l r => noneIs p l && noneIs p r
     | FunctionNode _ args => forallb (noneIs p) args
     | ConditionalNode c a b => noneIs p c && noneIs p a && noneIs p b
     | ArrayNode ns => forallb (noneIs p) ns
     | _ => true
     end.

Definition isArrayNode (n : Node) : bool :=
  match n with ArrayNode _ => true | _ => false end.

(** An operand that [distributeAndFoldNot.Enter] rewrites a negation of:
    a binary node whose operator has a dual, a [not] / [!], or a boolean
    literal. *)
Definition reducibleOperand (x : Node) : bool :=
  match x with
  | BinaryNode bop _ _ =>
      match map_lookup operatorPairs bop with Some _ => true | None => false end
  | UnaryNode op _ => String.eqb op "not" || String.eqb op "!"
  | BoolNode _ => true
  | _ => false
  end.

(** A unary [not] / [!] that [distributeAndFoldNot.Enter] rewrites. *)
Definition reducibleNot (n : Node) : bool :=
  match n with
  | UnaryNode op x => (String.eqb op "not" || String.eqb op "!") && reducibleOperand x
  | _ => false
  end.

(** The node without its children. *)
Definition headOf (n : Node) : Node :=
  match n with
  | UnaryNode op _ => UnaryNode op NilNode
  | BinaryNode op _ _ => BinaryNode op NilNode NilNode
  | MatchesNode _ _ => MatchesNode NilNode NilNode
  | FunctionNode name _ => FunctionNode name []
  | ConditionalNode _ _ _ => ConditionalNode NilNode NilNode NilNode
  | ArrayNode _ => ArrayNode []
  | leaf => leaf
  end.

(** What the walk of the negation normalizer does below the node that
    [Enter] has left in the slot. *)
Definition WalkNotChildren (f : nat) (n : Node) : option Node :=
  match n with
  | UnaryNode op x =>
      x' <- WalkNot f x ;; Some (UnaryNode op x')
  | BinaryNode op l r =>
      l' <- WalkNot f l ;; r' <- WalkNot f r ;; Some (BinaryNode op l' r')
  | MatchesNode l r =>
      l' <- WalkNot f l ;; r' <- WalkNot f r ;; Some (MatchesNode l' r')
  | FunctionNode name args =>
      args' <- omap_list (WalkNot f) args ;; Some (FunctionNode name args')
  | ConditionalNode c a b =>
      c' <- WalkNot f c ;; a' <- WalkNot f a ;; b' <- WalkNot f b ;;
      Some (ConditionalNode c' a' b')
  | ArrayNode ns =>
      ns' <- omap_list (WalkNot f) ns ;; Some (ArrayNode ns')
  | leaf => Some leaf
  end.

(** Disjunctive normal form of the outer [and] / [or] chain: no
    conjunction of the chain has a disjunction as a child, so that the
    chain is a disjunction of conjunctions of nodes that are neither. *)
Fixpoint isDNF (t : Node) : bool :=
  match t with
  | BinaryNode op l r =>
      if String.eqb op "and" || String.eqb op "&&" then
        match asBinaryOr l with Some _ => false | None => true end
        && match asBinaryOr r with Some _ => false | None => true end
        && isDNF l && isDNF r
      else if String.eqb op "or" || String.eqb op "||" then isDNF l && isDNF r
      else true
  | _ => true
  end.

(** The truth value of the outer [and] / [or] chain under a valuation
    [rho] of the nodes that are neither. *)
Fixpoint holds (rho : Node -> bool) (t : Node) : bool :=
  match t with
  | BinaryNode op l r =>
      if String.eqb op "and" || String.eqb op "&&" then holds rho l && holds rho r
      else if String.eqb op "or" || String.eqb op "||" then holds rho l || holds rho r
      else rho t
  | _ => rho t
  end.

(** ** The generator below the root, as a printer *)

Definition rbind {A B : Type} (m : result A) (k : A -> result B) : result B :=
  match m with
  | Ok a => k a
  | Err e => Err e
  end.

(** The fragment of a binary node in nested context, from the fragments
    [lhs] and [rhs] of its operands. *)
Definition nestedBinary (op : string) (l r : Node) (lhs rhs : string) : string :=
  if String.eqb op "and" || String.eqb op "&&" then lhs ++ "&&" ++ rhs
  else if String.eqb op "or" || String.eqb op "||" then lhs ++ "||" ++ rhs
  else if String.eqb op ">" || String.eqb op ">=" || String.eqb op "<" || String.eqb op "<="
  then
    match l with
    | IdentifierNode v => "t[" ++ Quote v ++ "]"
    | _ => lhs
    end ++ op ++ rhs
  else if String.eqb op "contains" then
    lhs ++ "~" ++ match r with StringNode _ => QuoteMeta rhs | _ => rhs end
  else if String.eqb op "startsWith" then
    lhs ++ "~"
    ++ match r with
       | StringNode v => dq ++ "^" ++ QuoteMeta (concat_map quote_byte v ++ dq)
       | _ => rhs
       end
  else if String.eqb op "endsWith" then
    lhs ++ "~"
    ++ match r with
       | StringNode v => QuoteMeta (dq ++ concat_map quote_byte v) ++ "$" ++ dq
       | _ => rhs
       end
  else lhs ++ op ++ rhs.

(** The fragment of a subtree in nested context, or the first error of its
    post-order traversal. *)
Fixpoint nestedText (Sprint_float : float -> string) (n : Node) : result string :=
  let texts :=
    fix texts (ns : list Node) : result (list string) :=
      match ns with
      | [] => Ok []
      | x :: r =>
          rbind (nestedText Sprint_float x) (fun s =>
          rbind (texts r) (fun ss => Ok (s :: ss)))
      end in
  match n with
  | IdentifierNode v => Ok (if needsQuote v then Quote v else v)
  | IntegerNode v => Ok (Sprint_int v)
  | FloatNode v => Ok (Sprint_float v)
  | BoolNode v => Ok (dq ++ (if v then "yes" else "no") ++ dq)
  | StringNode v => Ok (Quote v)
  | UnaryNode op x =>
      rbind (nestedText Sprint_float x) (fun s => Ok (op ++ "(" ++ s ++ ")"))
  | BinaryNode op l r =>
      rbind (nestedText Sprint_float l) (fun lhs =>
      rbind (nestedText Sprint_float r) (fun rhs => Ok (nestedBinary op l r lhs rhs)))
  | MatchesNode l r =>
      rbind (nestedText Sprint_float l) (fun lhs =>
      rbind (nestedText Sprint_float r) (fun rhs => Ok (lhs ++ "~" ++ rhs)))
  | FunctionNode name args =>
      rbind (texts args) (fun ss =>
      Ok (name ++ "(" ++ String.concat EmptyString (rev ss) ++ ")"))
  | ConditionalNode c a b =>
      rbind (nestedText Sprint_float c) (fun sc =>
      rbind (nestedText Sprint_float a) (fun sa =>
      rbind (nestedText Sprint_float b) (fun sb => Ok (sc ++ "?" ++ sa ++ ":" ++ sb))))
  | NilNode => Err "nil not supported"
  | ArrayNode ns => rbind (texts ns) (fun _ => Err "array not supported")
  end.

(** The fragments of a list of subtrees in nested context. *)
Fixpoint nestedTexts (Sprint_float : float -> string) (ns : list Node)
  : result (list string) :=
  match ns with
  | [] => Ok []
  | x :: r =>
      rbind (nestedText Sprint_float x) (fun s =>
      rbind (nestedTexts Sprint_float r) (fun ss => Ok (s :: ss)))
  end.

(** What the generator's walk of a subtree entered at a positive depth
    leaves of the state [q]: the fragment on top of an otherwise unchanged
    state, or some state holding the error. *)
Definition NestedPost (q : queryBuilder) (r : result string)
           (out : option queryBuilder) : Prop :=
  match r with
  | Ok s => out = Some (mk_qb (s :: qstack q) (qnot q) (qdepth q) None)
  | Err e => exists q', out = Some q' /\ qerr q' = Some e
  end.

Definition NestedListPost (q : queryBuilder) (r : result (list string))
           (out : option queryBuilder) : Prop :=
  match r with
  | Ok ss => out = Some (mk_qb (rev ss ++ qstack q) (qnot q) (qdepth q) None)
  | Err e => exists q', out = Some q' /\ qerr q' = Some e
  end.

(** A state that holds the error [e]. *)
Definition Failed (e : string) (out : option queryBuilder) : Prop :=
  exists q', out = Some q' /\ qerr q' = Some e.

(** ** Negation through the rewrite passes *)

(** The operators that [asUnaryNot] and [asBinaryIn] test for. *)
Definition isNot (op : string) : bool := String.eqb op "not" || String.eqb op "!".

Definition isIn (op : string) : bool := String.eqb op "in" || String.eqb op "not in".

(** The two expanders, in the order of [buildCriteria]. *)
Definition expandIn (tree : Node) : Node :=
  fst (Walk expandInRange (fst (Walk expandInArray tree tt)) tt).

(** ** The cache of ways: [packWays] and [unpackWays] *)

(** [geo.DegreesToRadians] and [geo.NewPointFromDegrees]. *)
Definition DegreesToRadians (d : float) : float :=
  PrimFloat.div (PrimFloat.mul d math_Pi) 180%float.

Definition NewPointFromDegrees (lat lon : float) : Point :=
  mk_Point (DegreesToRadians lat) (DegreesToRadians lon).

(** [uint8(j)] of an [int] that is not negative, and [math.MaxUint8]. *)
Definition uint8 (j : N) : N := (j mod 256)%N.
Definition MaxUint8 : N := 255%N.

(** [slices.Index(known, val)]: the first index of [val], [None] for -1. *)
Fixpoint slices_Index (known : list string) (val : string) : option N :=
  match known with
  | [] => None
  | x :: r =>
      if String.eqb x val then Some 0%N
      else match slices_Index r val with
           | Some j => Some (j + 1)%N
           | None => None
           end
  end.

(** What [packWays] reads of an [overpass.Way]: the geometry in degrees and
    the tags, a map that is only looked up. *)
Record overpassWay : Type := mk_overpassWay {
  ow_Geometry : list (float * float);
  ow_Tags : string -> option string
}.

(** [way], the result of [unpackWays]. *)
Record way : Type := mk_way {
  way_Geometry : list Point;
  way_Highway : string;
  way_Access : string;
  way_Surface : string
}.

(** The closure [packTag] of [packWays] on the table [known]: the index that
    it returns and the table that it leaves. *)
Definition packTag (tags : string -> option string) (tag : string) (known : list string)
  : N * list string :=
  match tags tag with
  | Some val =>
      match slices_Index known val with
      | Some j => (uint8 j, known)
      | None => (uint8 (N.of_nat (List.length known)), (known ++ [val])%list)
      end
  | None => (MaxUint8, known)
  end.

(** The tag part of [unpackWays] for one field: the field stays empty for
    [math.MaxUint8], the error is the one of an index that the table does
    not have, and [None] is an index out of range. *)
Definition unpackTag (idx : N) (table : list string) : option (result string) :=
  if (idx <? MaxUint8)%N then
    if (uint8 (N.of_nat (List.length table)) <=? idx)%N then Some (Err "invalid cache data")
    else
      match nth_error table (N.to_nat idx) with
      | Some val => Some (Ok val)
      | None => None
      end
  else Some (Ok EmptyString).

Section WayCache.

(** [float32], with the conversions [float32(x)] and [float64(x)]. *)
Variable float32 : Type.
Variable to_float32 : float -> float32.
Variable of_float32 : float32 -> float.

(** [elem] and [doc]. *)
Record elem : Type := mk_elem {
  elem_Geometry : list (float32 * float32);
  elem_Highway : N;
  elem_Access : N;
  elem_Surface : N
}.

Record doc : Type := mk_doc {
  doc_Ways : list elem;
  doc_Highways : list string;
  doc_Accesses : list string;
  doc_Surfaces : list string
}.

(** The body of the loop of [packWays] for the way [w]. *)
Definition packWay (w : overpassWay) (d : doc) : doc :=
  let geometry :=
    map (fun g =>
           let pt := NewPointFromDegrees (fst g) (snd g) in
           (to_float32 (Lat pt), to_float32 (Lon pt))) (ow_Geometry w) in
  let '(h, highways) := packTag (ow_Tags w) "highway" (doc_Highways d) in
  let '(a, accesses) := packTag (ow_Tags w) "access" (doc_Accesses d) in
  let '(s, surfaces) := packTag (ow_Tags w) "surface" (doc_Surfaces d) in
  mk_doc (doc_Ways d ++ [mk_elem geometry h a s])%list highways accesses surfaces.

(** The loop of [packWays] over the ways in the order of the iteration. *)
Fixpoint packWays_loop (ways : list overpassWay) (d : doc) : doc :=
  match ways with
  | [] => d
  | w :: rest => packWays_loop rest (packWay w d)
  end.

(** The [doc] that [packWays] marshals. *)
Definition packWays_doc (ways : list overpassWay) : doc :=
  packWays_loop ways (mk_doc [] [] [] []).

(** The body of the loop of [unpackWays] for the element [w]. *)
Definition unpackWay (d : doc) (w : elem) : option (result way) :=
  let geometry :=
    map (fun p => mk_Point (of_float32 (fst p)) (of_float32 (snd p))) (elem_Geometry w) in
  h <- unpackTag (elem_Highway w) (doc_Highways d) ;;
  match h with
  | Err e => Some (Err e)
  | Ok highway =>
      a <- unpackTag (elem_Access w) (doc_Accesses d) ;;
      match a with
      | Err e => Some (Err e)
      | Ok access =>
          s <- unpackTag (elem_Surface w) (doc_Surfaces d) ;;
          match s with
          | Err e => Some (Err e)
          | Ok surface => Some (Ok (mk_way geometry highway access surface))
          end
      end
  end.

(** The loop of [unpackWays]: it returns at the first error. *)
Fixpoint unpackWays_loop (d : doc) (ws : list elem) : option (result (list way)) :=
  match ws with
  | [] => Some (Ok [])
  | w :: rest =>
      r <- unpackWay d w ;;
      match r with
      | Err e => Some (Err e)
      | Ok x =>
          r' <- unpackWays_loop d rest ;;
          match r' with
          | Err e => Some (Err e)
          | Ok xs => Some (Ok (x :: xs))
          end
      end
  end.

(** [unpackWays] from the unmarshalled [doc] on. *)
Definition unpackWays_doc (d : doc) : option (result (list way)) :=
  unpackWays_loop d (doc_Ways d).

(** The index [idx] stands for the tag value [val] in [table]. *)
Definition Encodes (table : list string) (val : option string) (idx : N) : Prop :=
  match val with
  | Some v => exists j, idx = uint8 j /\ nth_error table (N.to_nat j) = Some v
  | None => idx = MaxUint8
  end.

(** What the element of [w] holds with respect to the tables of [d]. *)
Definition Packed (d : doc) (w : overpassWay) (e : elem) : Prop :=
  elem_Geometry e
  = map (fun g =>
           let pt := NewPointFromDegrees (fst g) (snd g) in
           (to_float32 (Lat pt), to_float32 (Lon pt))) (ow_Geometry w)
  /\ Encodes (doc_Highways d) (ow_Tags w "highway") (elem_Highway e)
  /\ Encodes (doc_Accesses d) (ow_Tags w "access") (elem_Access e)
  /\ Encodes (doc_Surfaces d) (ow_Tags w "surface") (elem_Surface e).

(** The tables of [d'] are the tables of [d] with further entries. *)
Definition Extends (d d' : doc) : Prop :=
  (exists s, doc_Highways d' = (doc_Highways d ++ s)%list)
  /\ (exists s, doc_Accesses d' = (doc_Accesses d ++ s)%list)
  /\ (exists s, doc_Surfaces d' = (doc_Surfaces d ++ s)%list).

(** Every entry of [table] is the one that some element of [es] points to
    with its field [field]. *)
Definition Covered (field : elem -> N) (table : list string) (es : list elem) : Prop :=
  forall k, (k < List.length table)%nat ->
            exists e, In e es /\ field e = uint8 (N.of_nat k).

(** [msgpack.Marshal] and [msgpack.Unmarshal] on a [doc]. *)
Variable bytes : Type.
Variable msgpack_Marshal : doc -> result bytes.
Variable msgpack_Unmarshal : bytes -> result doc.

(** [packWays]. *)
Definition packWays (ways : list overpassWay) : result bytes :=
  msgpack_Marshal (packWays_doc ways).

(** [unpackWays]. *)
Definition unpackWays (data : bytes) : option (result (list way)) :=
  match msgpack_Unmarshal data with
  | Err e => Some (Err e)
  | Ok d => unpackWays_doc d
  end.

End WayCache.

Arguments mk_elem {float32} _ _ _ _.
Arguments elem_Geometry {float32} _.
Arguments elem_Highway {float32} _.
Arguments elem_Access {float32} _.
Arguments elem_Surface {float32} _.
Arguments mk_doc {float32} _ _ _ _.
Arguments doc_Ways {float32} _.
Arguments doc_Highways {float32} _.
Arguments doc_Accesses {float32} _.
Arguments doc_Surfaces {float32} _.

(** The way that a packed and unpacked [w] is expected to be: the geometry
    in radians through [float32] and back, and each of the three tags with
    the empty string for a tag that [w] does not have. *)
Definition cachedWay {float32 : Type} (to_float32 : float -> float32)
           (of_float32 : float32 -> float) (w : overpassWay) : way :=
  let tag := fun k => match ow_Tags w k with Some v => v | None => EmptyString end in
  mk_way
    (map (fun g =>
            mk_Point (of_float32 (to_float32 (DegreesToRadians (fst g))))
                     (of_float32 (to_float32 (DegreesToRadians (snd g)))))
         (ow_Geometry w))
    (tag "highway") (tag "access") (tag "surface").

(** A table length whose [uint8] refuses an index that the table has. *)
Definition wraps (len : nat) : Prop :=
  (256 <= N.of_nat len)%N /\ uint8 (N.of_nat len) <> MaxUint8.

(** Two ways, one with a highway and a surface tag and one without tags,
    and 256 ways with 256 different highway values. *)
Definition tagsOf (l : list (string * string)) (k : string) : option string :=
  map_lookup l k.

Definition twoWays : list overpassWay :=
  [mk_overpassWay [(52.5%float, 13.25%float)]
     (tagsOf [("highway", "primary"); ("surface", "asphalt")]);
   mk_overpassWay [] (tagsOf [])].

Definition manyWays : list overpassWay :=
  map (fun n =>
         mk_overpassWay []
           (tagsOf [("highway", String (ascii_of_nat n) EmptyString)]))
      (seq 0 256).

(** ** [parse.Parse]: the selection of the activities *)

(** [Record] and [Activity], with the fields that the selection reads.  A
    [time.Time] is the value that the map [uniq] compares. *)
Record ActivityRecord : Type := mk_Record {
  Timestamp : Z;
  Position : Point
}.

Record Activity : Type := mk_Activity {
  Sport : string;
  Distance : float;
  Records : list ActivityRecord
}.

(** The four regions of [Selector]. *)
Record Selector : Type := mk_Selector {
  BoundedBy : Circle;
  StartsNear : Circle;
  EndsNear : Circle;
  PassesThrough : Circle
}.

(** [Circle.IsZero]. *)
Definition Circle_IsZero (c : Circle) : bool := PrimFloat.eqb (Radius c) 0%float.

Section Selection.

(** [Point.DistanceTo], the haversine distance of the Go runtime's
    [math.Sin], [math.Cos], [math.Atan2] and [math.Sqrt]. *)
Variable DistanceTo : Point -> Point -> float.

(** [Circle.Contains]. *)
Definition Circle_Contains (c : Circle) (pt : Point) : bool :=
  PrimFloat.ltb (DistanceTo (Origin c) pt) (Radius c).

(** [Selector.Bounded], [Starts], [Ends] and [Passes]. *)
Definition Selector_Bounded (s : Selector) (pt : Point) : bool :=
  Circle_IsZero (BoundedBy s) || Circle_Contains (BoundedBy s) pt.
Definition Selector_Starts (s : Selector) (pt : Point) : bool :=
  Circle_IsZero (StartsNear s) || Circle_Contains (StartsNear s) pt.
Definition Selector_Ends (s : Selector) (pt : Point) : bool :=
  Circle_IsZero (EndsNear s) || Circle_Contains (EndsNear s) pt.
Definition Selector_Passes (s : Selector) (pt : Point) : bool :=
  Circle_IsZero (PassesThrough s) || Circle_Contains (PassesThrough s) pt.

Variable selector : Selector.

(** The loop over [act.Records] from the index [j] on, [len] being
    [len(act.Records)]: the values of [exclude] and [include] when it
    ends, a [break] leaving [exclude] set. *)
Fixpoint scanRecords (len j : nat) (rs : list ActivityRecord) (include : bool)
  : bool * bool :=
  match rs with
  | [] => (false, include)
  | r :: rest =>
      if negb (Selector_Bounded selector (Position r)) then (true, include)
      else if (j =? 0)%nat && negb (Selector_Starts selector (Position r))
      then (true, include)
      else if (j =? len - 1)%nat && negb (Selector_Ends selector (Position r))
      then (true, include)
      else
        let include :=
          if negb include && Selector_Passes selector (Position r) then true
          else include in
        scanRecords len (S j) rest include
  end.

(** The condition under which the loop of [Parse] removes [act], [uniq]
    being the keys of the map.  [act.Records[0]] is read only when the two
    flags do not decide; [None] is an index out of range. *)
Definition removes (act : Activity) (uniq : list Z) : option bool :=
  let include := Circle_IsZero (PassesThrough selector) in
  let exclude := (List.length (Records act) =? 0)%nat in
  let '(excluded, include) := scanRecords (List.length (Records act)) 0 (Records act) include in
  let exclude := exclude || excluded in
  if exclude || negb include then Some true
  else
    match Records act with
    | r :: _ => Some (existsb (Z.eqb (Timestamp r)) uniq)
    | [] => None
    end.

(** [activities[i] = x] on a slice. *)
Fixpoint set_index {A : Type} (l : list A) (i : nat) (x : A) : option (list A) :=
  match l, i with
  | [], _ => None
  | _ :: r, O => Some (x :: r)
  | a :: r, S i' => r' <- set_index r i' x ;; Some (a :: r')
  end.

(** The loop [for i := len(activities) - 1; i >= 0; i--] of [Parse] with
    [n] runs to go, [i] being [n - 1]: the slice and the keys of [uniq]
    when it ends. *)
Fixpoint Parse_loop (n : nat) (activities : list Activity) (uniq : list Z)
  : option (list Activity * list Z) :=
  match n with
  | O => Some (activities, uniq)
  | S i =>
      act <- nth_error activities i ;;
      rm <- removes act uniq ;;
      if rm then
        let j := (List.length activities - 1)%nat in
        x <- nth_error activities j ;;
        activities <- set_index activities i x ;;
        Parse_loop i (firstn j activities) uniq
      else
        r <- nth_error (Records act) 0 ;;
        Parse_loop i activities (Timestamp r :: uniq)
  end.

(** [Parse] from the parsed activities on, without the statistics. *)
Definition Parse_select (activities : list Activity) : option (result (list Activity)) :=
  if (List.length activities =? 0)%nat then Some (Err "no matching activities found")
  else
    '(activities, _) <- Parse_loop (List.length activities) activities [] ;;
    if (List.length activities =? 0)%nat then Some (Err "no matching activities found")
    else Some (Ok activities).

(** An activity that the regions of the selector admit: it has a record,
    every record is in the bounding region, the first is in the start
    region, the last in the end region and, if a region to pass through
    is set, some record is in it. *)
Definition admits (act : Activity) : bool :=
  match Records act with
  | [] => false
  | first :: _ =>
      forallb (fun r => Selector_Bounded selector (Position r)) (Records act)
      && Selector_Starts selector (Position first)
      && Selector_Ends selector (Position (List.last (Records act) first))
      && (Circle_IsZero (PassesThrough selector)
          || existsb (fun r => Selector_Passes selector (Position r)) (Records act))
  end.

(** The time of the first record. *)
Definition startTime (act : Activity) : Z :=
  match Records act with
  | r :: _ => Timestamp r
  | [] => 0
  end.

(** The admitted activities, one per start time: of several with the same
    start time the last of the list. *)
Fixpoint selected (activities : list Activity) : list Activity :=
  match activities with
  | [] => []
  | act :: rest =>
      let kept := selected rest in
      if admits act && negb (existsb (Z.eqb (startTime act)) (map startTime kept))
      then act :: kept
      else kept
  end.

(** The keys of [uniq] are the start times of [kept]. *)
Definition sameKeys (uniq : list Z) (kept : list Activity) : Prop :=
  forall t, existsb (Z.eqb t) uniq = existsb (Z.eqb t) (map startTime kept).

(** The selection of [pre] in front of the activities [kept]. *)
Definition selectedOnto (pre kept : list Activity) : list Activity :=
  fold_right
    (fun act kept =>
       if admits act && negb (existsb (Z.eqb (startTime act)) (map startTime kept))
       then act :: kept else kept)
    kept pre.

End Selection.

(** ** [worms]: [drawFill] *)

(** A Go [int] after an arithmetic operation: the 64-bit two's complement
    value. *)
Definition wrap64 (z : Z) : Z := (z + 2 ^ 63) mod 2 ^ 64 - 2 ^ 63.

(** [copy(pix[i:], pix[:i])]: the two slices do not overlap, and [copy]
    moves as many elements as the shorter one has. *)
Definition copy_doubling {A : Type} (pix : list A) (i : nat) : list A :=
  let n := Nat.min (List.length pix - i) i in
  (firstn i pix ++ firstn n pix ++ skipn (i + n) pix)%list.

(** The loop [for i := 1; i < len(im.Pix); i *= 2] of [drawFill] from the
    value [i] on.  [None] is the slice expression [im.Pix[i:]] with a
    negative bound, or the fuel run out. *)
Fixpoint drawFill_loop {A : Type} (fuel : nat) (i : Z) (pix : list A) : option (list A) :=
  match fuel with
  | O => None
  | S fuel =>
      if i <? Z.of_nat (List.length pix) then
        if i <? 0 then None
        else drawFill_loop fuel (wrap64 (i * 2)) (copy_doubling pix (Z.to_nat i))
      else Some pix
  end.

(** [drawFill] on [im.Pix]. *)
Definition drawFill {A : Type} (pix : list A) (ci : A) : option (list A) :=
  match pix with
  | [] => Some pix
  | _ :: rest => drawFill_loop (S (List.length pix)) 1 (ci :: rest)
  end.

(** ** [worms.Run] and [paint.Run]: the output file and its format *)

(** [s[1:]]: panics on the empty string. *)
Definition tail1 (s : string) : option string :=
  match s with
  | EmptyString => None
  | String _ r => Some r
  end.

Section OutputName.

(** [os.IsPathSeparator] and [strings.EqualFold], from the Go runtime. *)
Variable IsPathSeparator : ascii -> bool.
Variable EqualFold : string -> string -> bool.

(** The loop of [filepath.Ext] from the last byte of the path down, on
    the reversed rest of the path; [acc] is the part behind it. *)
Fixpoint Ext_loop (rev_path : string) (acc : string) : string :=
  match rev_path with
  | EmptyString => EmptyString
  | String c r =>
      if IsPathSeparator c then EmptyString
      else if byte_eqb c "." then String c acc
      else Ext_loop r (String c acc)
  end.

(** [filepath.Ext]. *)
Definition filepath_Ext (path : string) : string :=
  Ext_loop (rev_str path) EmptyString.

(** What [worms.Run] makes of [o.Output] and [o.Format] between the test of
    the output path and the steps: the two values that it leaves. *)
Definition worms_outputFormat (output format : string) : option (string * string) :=
  let ext := filepath_Ext output in
  '(ext, format) <-
    (if negb (String.eqb ext EmptyString) then
       ext <- tail1 ext ;;
       if String.eqb format EmptyString then
         format <- tail1 ext ;; Some (ext, format)
       else Some (ext, format)
     else Some (ext, format)) ;;
  let format := if String.eqb format EmptyString then "gif" else format in
  let output := if negb (EqualFold ext format) then output ++ "." ++ format else output in
  Some (output, format).

(** What [paint.Run] makes of [o.Output] at the same place. *)
Definition paint_output (output : string) : string :=
  if String.eqb (filepath_Ext output) EmptyString then output ++ ".png" else output.

(** No byte of [s] is a dot or a path separator. *)
Definition plainName (s : string) : bool :=
  negb (existsb_str (fun c => IsPathSeparator c || byte_eqb c ".") s).

End OutputName.

(** The path separator of Unix. *)
Definition unixSeparator (c : ascii) : bool := byte_eqb c "/".

(** ** [worms]: [gifWriter] and [pngWriter] *)

(** A byte of a [[]byte] is an [ascii]; [byte(n)] keeps the low eight bits. *)
Definition byte_of_nat (n : nat) : ascii := ascii_of_nat (n mod 256).

Definition bytes_of_string (s : string) : list ascii := list_ascii_of_string s.

(** [binary.BigEndian.PutUint32(b, uint32(n))]: the four bytes. *)
Definition BigEndian_uint32 (n : N) : list ascii :=
  let n := (n mod 2 ^ 32)%N in
  [ascii_of_N (n / 2 ^ 24 mod 256); ascii_of_N (n / 2 ^ 16 mod 256);
   ascii_of_N (n / 2 ^ 8 mod 256); ascii_of_N (n mod 256)]%N.

Section Writers.

(** The underlying writer: its state, [Write], which returns the number of
    bytes written and an error, and [WriteByte] of a [bufio.Writer]. *)
Variable W : Type.
Variable Writer_Write : list ascii -> W -> (nat * option string) * W.
Variable Writer_WriteByte : ascii -> W -> option string * W.

(** [crc32.NewIEEE] with the bytes written to it, and its [Sum32]. *)
Variable crc32_IEEE : list ascii -> N.

Record gifWriter : Type := mk_gifWriter {
  gif_Writer : W;
  gif_Comment : string;
  gif_done : bool
}.

Record pngWriter : Type := mk_pngWriter {
  png_Writer : W;
  png_Text : string;
  png_done : bool
}.

(** [gifWriter.writeExtension] on the underlying writer. *)
Definition gifWriter_writeExtension (b : list ascii) (e : ascii) (w : W)
  : (nat * option string) * W :=
  let '((n, err), w) :=
    Writer_Write [byte_of_nat 33; e; byte_of_nat (List.length b)] w in
  match err with
  | Some _ => ((0%nat, err), w)
  | None =>
      let nn := n in
      let '((n, err), w) := Writer_Write b w in
      match err with
      | Some _ => ((nn, err), w)
      | None =>
          let nn := (nn + n)%nat in
          let '(err, w) := Writer_WriteByte (byte_of_nat 0) w in
          match err with
          | Some _ => ((nn, err), w)
          | None => ((S nn, None), w)
          end
      end
  end.

(** The test of [gifWriter.Write] for the header of an application
    extension. *)
Definition isApplicationExtension (p : list ascii) : bool :=
  match p with
  | [a; b; c] =>
      Ascii.eqb a (byte_of_nat 33) && Ascii.eqb b (byte_of_nat 255)
      && Ascii.eqb c (byte_of_nat 11)
  | _ => false
  end.

(** [gifWriter.Write]. *)
Definition gifWriter_Write (p : list ascii) (w : gifWriter)
  : (nat * option string) * gifWriter :=
  let '((nn, err), w) :=
    if negb (gif_done w) && isApplicationExtension p then
      let '((n, err), u) :=
        gifWriter_writeExtension (bytes_of_string (gif_Comment w)) (byte_of_nat 254)
          (gif_Writer w) in
      match err with
      | Some _ => ((0%nat, err), mk_gifWriter u (gif_Comment w) (gif_done w))
      | None => ((n, None), mk_gifWriter u (gif_Comment w) true)
      end
    else ((0%nat, None), w) in
  match err with
  | Some _ => ((nn, err), w)
  | None =>
      let '((n, err), u) := Writer_Write p (gif_Writer w) in
      let w := mk_gifWriter u (gif_Comment w) (gif_done w) in
      match err with
      | Some _ => ((nn, err), w)
      | None => (((nn + n)%nat, None), w)
      end
  end.

(** [pngWriter.writeChunk] on the underlying writer. *)
Definition pngWriter_writeChunk (b : list ascii) (name : string) (w : W)
  : (nat * option string) * W :=
  let header :=
    (BigEndian_uint32 (N.of_nat (List.length b))
     ++ firstn 4 (bytes_of_string name ++ repeat (byte_of_nat 0) 4))%list in
  let crc := crc32_IEEE (skipn 4 header ++ b) in
  let footer := BigEndian_uint32 crc in
  let '((n, err), w) := Writer_Write header w in
  match err with
  | Some _ => ((0%nat, err), w)
  | None =>
      let nn := n in
      let '((n, err), w) := Writer_Write b w in
      match err with
      | Some _ => ((nn, err), w)
      | None =>
          let nn := (nn + n)%nat in
          let '((n, err), w) := Writer_Write footer w in
          match err with
          | Some _ => ((nn, err), w)
          | None => (((nn + n)%nat, None), w)
          end
      end
  end.

(** The test of [pngWriter.Write] for the first data chunk. *)
Definition isDataChunk (p : list ascii) : bool :=
  (8 <=? List.length p)%nat
  && String.eqb (string_of_list_ascii (firstn 4 (skipn 4 p))) "IDAT".

(** [pngWriter.Write]. *)
Definition pngWriter_Write (p : list ascii) (w : pngWriter)
  : (nat * option string) * pngWriter :=
  let '((nn, err), w) :=
    if negb (png_done w) && isDataChunk p then
      let '((n, err), u) :=
        pngWriter_writeChunk (bytes_of_string (png_Text w)) "tEXt" (png_Writer w) in
      match err with
      | Some _ => ((0%nat, err), mk_pngWriter u (png_Text w) (png_done w))
      | None => ((n, None), mk_pngWriter u (png_Text w) true)
      end
    else ((0%nat, None), w) in
  match err with
  | Some _ => ((nn, err), w)
  | None =>
      let '((n, err), u) := Writer_Write p (png_Writer w) in
      let w := mk_pngWriter u (png_Text w) (png_done w) in
      match err with
      | Some _ => ((nn, err), w)
      | None => (((nn + n)%nat, None), w)
      end
  end.

End Writers.

Arguments mk_gifWriter {W} _ _ _.
Arguments gif_Writer {W} _.
Arguments gif_Comment {W} _.
Arguments gif_done {W} _.
Arguments mk_pngWriter {W} _ _ _.
Arguments png_Writer {W} _.
Arguments png_Text {W} _.
Arguments png_done {W} _.

(** The comment extension that [gifWriter] inserts, and the [tEXt] chunk
    that [pngWriter] inserts. *)
Definition commentExtension (comment : string) : list ascii :=
  ([byte_of_nat 33; byte_of_nat 254; byte_of_nat (String.length comment)]
   ++ bytes_of_string comment ++ [byte_of_nat 0])%list.

Definition textChunk (crc32_IEEE : list ascii -> N) (text : string) : list ascii :=
  (BigEndian_uint32 (N.of_nat (String.length text))
   ++ bytes_of_string "tEXt" ++ bytes_of_string text
   ++ BigEndian_uint32 (crc32_IEEE (bytes_of_string "tEXt" ++ bytes_of_string text)))%list.

(** The stream of the writes [ps] with [block] in front of the first write
    that [test] singles out. *)
Fixpoint insertBefore (test : list ascii -> bool) (block : list ascii)
         (ps : list (list ascii)) : list ascii :=
  match ps with
  | [] => []
  | p :: rest =>
      if test p then (block ++ p ++ List.concat rest)%list
      else (p ++ insertBefore test block rest)%list
  end.

Section WriterRuns.

Variable W : Type.
Variable Writer_Write : list ascii -> W -> (nat * option string) * W.
Variable Writer_WriteByte : ascii -> W -> option string * W.
Variable crc32_IEEE : list ascii -> N.

(** The writes [ps] one after the other: the results and the writer that
    they leave. *)
Fixpoint gifWriter_Writes (ps : list (list ascii)) (w : gifWriter W)
  : list (nat * option string) * gifWriter W :=
  match ps with
  | [] => ([], w)
  | p :: rest =>
      let '(r, w) := gifWriter_Write W Writer_Write Writer_WriteByte p w in
      let '(rs, w) := gifWriter_Writes rest w in
      (r :: rs, w)
  end.

Fixpoint pngWriter_Writes (ps : list (list ascii)) (w : pngWriter W)
  : list (nat * option string) * pngWriter W :=
  match ps with
  | [] => ([], w)
  | p :: rest =>
      let '(r, w) := pngWriter_Write W Writer_Write crc32_IEEE p w in
      let '(rs, w) := pngWriter_Writes rest w in
      (r :: rs, w)
  end.

End WriterRuns.

(** A writer that takes every byte: a buffer. *)
Definition buffer_Write (p : list ascii) (w : list ascii)
  : (nat * option string) * list ascii :=
  ((List.length p, None), (w ++ p)%list).

Definition buffer_WriteByte (c : ascii) (w : list ascii) : option string * list ascii :=
  (None, (w ++ [c])%list).

(** ** [worms]: the pixel pass of [optimizeFrames] *)

(** [copy(l[j0:j0+len(seg)], seg)]. *)
Definition copy_at {A : Type} (l : list A) (j0 : nat) (seg : list A) : list A :=
  (firstn j0 l ++ seg ++ skipn (j0 + List.length seg) l)%list.

(** The loop [for len(trans) < n { trans = append(trans, trans...) }]. *)
Fixpoint growTrans {A : Type} (fuel : nat) (trans : list A) (n : nat) : list A :=
  match fuel with
  | O => trans
  | S fuel =>
      if (List.length trans <? n)%nat then growTrans fuel (trans ++ trans)%list n
      else trans
  end.

(** The variables of the scan of one frame that the pixels depend on: the
    flag [same], the start [j0] of the run, the slice [trans], and the
    pixels of the buffer and of the frame.  The crop rectangle, which the
    scan also computes, reads these and the pixels do not depend on it. *)
Record frameScan : Type := mk_frameScan {
  fs_same : bool;
  fs_j0 : nat;
  fs_trans : list N;
  fs_buf : list N;
  fs_im : list N
}.

(** The end of a run at [j]: a run of pixels that repeat the buffer is
    overwritten with [trans], grown to the length of the run, and a run of
    other pixels is copied to the buffer.  [trans] is never empty. *)
Definition flushRun (j : nat) (s : frameScan) : frameScan :=
  let n := (j - fs_j0 s)%nat in
  if fs_same s then
    let trans := growTrans n (fs_trans s) n in
    mk_frameScan (negb (fs_same s)) j trans (fs_buf s)
      (copy_at (fs_im s) (fs_j0 s) (firstn n trans))
  else
    mk_frameScan (negb (fs_same s)) j (fs_trans s)
      (copy_at (fs_buf s) (fs_j0 s) (firstn n (skipn (fs_j0 s) (fs_im s))))
      (fs_im s).

(** The body of the loop [for j := 0; j <= len(im.Pix); j++] of
    [optimizeFrames].  [None] is an index out of range or the division by
    a zero [im.Stride]. *)
Definition scanFrame_step (stride : nat) (j : nat) (s : frameScan) : option frameScan :=
  if (j =? 0)%nat then
    b <- nth_error (fs_buf s) j ;;
    p <- nth_error (fs_im s) j ;;
    Some (mk_frameScan (N.eqb b p) (fs_j0 s) (fs_trans s) (fs_buf s) (fs_im s))
  else
    flush <-
      (if (j =? List.length (fs_im s))%nat then Some true
       else
         b <- nth_error (fs_buf s) j ;;
         p <- nth_error (fs_im s) j ;;
         Some (negb (Bool.eqb (N.eqb b p) (fs_same s)))) ;;
    if flush then
      if (stride =? 0)%nat then None else Some (flushRun j s)
    else Some s.

(** The loop from [j] on, with [n] values of [j] to go. *)
Fixpoint scanFrame_loop (stride : nat) (n : nat) (j : nat) (s : frameScan)
  : option frameScan :=
  match n with
  | O => Some s
  | S n' =>
      s' <- scanFrame_step stride j s ;;
      scanFrame_loop stride n' (S j) s'
  end.

(** The scan of the frame [im] against the buffer [buf]. *)
Definition scanFrame (stride : nat) (trans buf im : list N) : option frameScan :=
  scanFrame_loop stride (S (List.length im)) 0 (mk_frameScan false 0 trans buf im).

(** The frame with the pixel [t] wherever it repeats the buffer. *)
Definition againstBuffer (t : N) (buf im : list N) : list N :=
  map (fun bp => if N.eqb (fst bp) (snd bp) then t else snd bp) (combine buf im).

(** The pixels of [optimizeFrames]: the buffer starts as the first frame,
    and every later frame is scanned against it. *)
Fixpoint optimizeFrames_rest (stride : nat) (trans buf : list N) (ims : list (list N))
  : option (list (list N)) :=
  match ims with
  | [] => Some []
  | im :: rest =>
      s <- scanFrame stride trans buf im ;;
      rest' <- optimizeFrames_rest stride (fs_trans s) (fs_buf s) rest ;;
      Some (fs_im s :: rest')
  end.

(** [optimizeFrames] on the pixels of frames of one size; [t] is the index
    of the last colour of the palette. *)
Definition optimizeFrames_pixels (stride : nat) (t : N) (ims : list (list N))
  : option (list (list N)) :=
  match ims with
  | [] => Some []
  | im0 :: rest =>
      rest' <- optimizeFrames_rest stride [t] im0 rest ;;
      Some (im0 :: rest')
  end.

(** Every frame against the frame before it. *)
Fixpoint deltaFrames (t : N) (prev : list N) (ims : list (list N)) : list (list N) :=
  match ims with
  | [] => []
  | im :: rest => againstBuffer t prev im :: deltaFrames t im rest
  end.

(** ** [worms]: [glowPlotter] *)

(** What [glowPlotter] reads of an [image.Paletted]: the pixels, the
    stride, the rectangle and the length of the palette. *)
Record Paletted : Type := mk_Paletted {
  Pix : list N;
  Stride : Z;
  MinX : Z;
  MinY : Z;
  MaxX : Z;
  MaxY : Z;
  PaletteLen : Z
}.

(** [image.Point{x, y}.In(p.Rect)]. *)
Definition inRect (p : Paletted) (x y : Z) : bool :=
  (MinX p <=? x) && (x <? MaxX p) && (MinY p <=? y) && (y <? MaxY p).

(** [p.PixOffset(x, y)]. *)
Definition PixOffset (p : Paletted) (x y : Z) : Z :=
  (y - MinY p) * Stride p + (x - MinX p) * 1.

(** [p.Pix[i] = ci]. *)
Fixpoint set_pix (pix : list N) (i : nat) (ci : N) : list N :=
  match pix, i with
  | [], _ => []
  | _ :: r, O => ci :: r
  | a :: r, S i' => a :: set_pix r i' ci
  end.

(** [glowPlotter.setPixIfLower]; [None] is an index out of range. *)
Definition setPixIfLower (x y : Z) (ci : N) (p : Paletted) : option (bool * Paletted) :=
  if inRect p x y then
    let i := PixOffset p x y in
    if i <? 0 then None
    else
      old <- nth_error (Pix p) (Z.to_nat i) ;;
      if (ci <? old)%N then
        Some (true,
              mk_Paletted (set_pix (Pix p) (Z.to_nat i) ci) (Stride p)
                (MinX p) (MinY p) (MaxX p) (MaxY p) (PaletteLen p))
      else Some (false, p)
  else Some (false, p).

(** [float64(n)] of an [int]. *)
Definition float64_of_int (n : Z) : float :=
  if n <? 0 then PrimFloat.opp (PrimFloat.of_uint63 (Uint63.of_Z (- n)))
  else PrimFloat.of_uint63 (Uint63.of_Z n).

Section Glow.

(** [uint8(i)] of a [float64]. *)
Variable uint8_of_float64 : float -> N.

(** The constant [sqrt2] of [SetColorIndex], 1.414213562, as a [float64]. *)
Definition sqrt2 : float := 0x1.6a09e6665983ep+0%float.

(** One of the two blocks of [SetColorIndex]: the index for the four
    neighbours at the offsets [ds], and the image with them set. *)
Definition glowRing (x y : Z) (ds : list (Z * Z)) (ci : N) (p : Paletted)
  : option (N * Paletted) :=
  let i := PrimFloat.mul (float64_of_int (Z.of_N ci)) sqrt2 in
  if PrimFloat.ltb i (float64_of_int (PaletteLen p - 2)) then
    let ci := uint8_of_float64 i in
    p <- fold_left
           (fun acc d =>
              p <- acc ;;
              '(_, p) <- setPixIfLower (x + fst d) (y + snd d) ci p ;;
              Some p)
           ds (Some p) ;;
    Some (ci, p)
  else Some (ci, p).

(** [glowPlotter.SetColorIndex]. *)
Definition SetColorIndex (x y : Z) (ci : N) (p : Paletted) : option Paletted :=
  '(lowered, p) <- setPixIfLower x y ci p ;;
  if lowered then
    '(ci, p) <- glowRing x y [(-1, 0); (0, -1); (1, 0); (0, 1)] ci p ;;
    '(_, p) <- glowRing x y [(-1, -1); (-1, 1); (1, -1); (1, 1)] ci p ;;
    Some p
  else Some p.

End Glow.

(** An image whose pixel slice holds every point of its rectangle. *)
Definition wellFormedImage (p : Paletted) : Prop :=
  MaxX p - MinX p <= Stride p
  /\ (MinX p < MaxX p -> MinY p < MaxY p ->
      (MaxY p - MinY p - 1) * Stride p + (MaxX p - MinX p) <= Z.of_nat (List.length (Pix p))).

(** [q] is [p] with some pixels lowered and nothing else changed. *)
Definition Lowered (p q : Paletted) : Prop :=
  Stride q = Stride p /\ MinX q = MinX p /\ MinY q = MinY p
  /\ MaxX q = MaxX p /\ MaxY q = MaxY p /\ PaletteLen q = PaletteLen p
  /\ List.length (Pix q) = List.length (Pix p)
  /\ forall i, (nth i (Pix q) 0 <= nth i (Pix p) 0)%N.

(** An image of three by three pixels of the index 200. *)
Definition image3x3 : Paletted :=
  mk_Paletted (repeat 200%N 9) 3 0 0 3 3 256.

(** ** [parseGPX]: the records and the distance of a track *)

(** What [parseGPX] reads of a [gpx.GPXPoint]. *)
Record GPXPoint : Type := mk_GPXPoint {
  gpx_Timestamp : Z;
  gpx_Latitude : float;
  gpx_Longitude : float
}.

(** The record that [parseGPX] appends for a point. *)
Definition gpxRecord (p : GPXPoint) : ActivityRecord :=
  mk_Record (gpx_Timestamp p) (NewPointFromDegrees (gpx_Latitude p) (gpx_Longitude p)).

(** The variables of the loops over the segments of a track: the records
    and the distance of the activity, the first and the last point. *)
Record trackScan : Type := mk_trackScan {
  ts_Records : list ActivityRecord;
  ts_Distance : float;
  ts_p0 : GPXPoint;
  ts_p1 : GPXPoint
}.

Section GPX.

Variable DistanceTo : Point -> Point -> float.

(** The body of the loop [for i, p := range s.Points]; [None] is an index
    of [act.Records] out of range. *)
Definition gpx_point (i : nat) (p : GPXPoint) (s : trackScan) : option trackScan :=
  let p0 := if (List.length (ts_Records s) =? 0)%nat then p else ts_p0 s in
  let records := (ts_Records s ++ [gpxRecord p])%list in
  if (0 <? i)%nat then
    a <- nth_error records (i - 1) ;;
    b <- nth_error records i ;;
    Some (mk_trackScan records
            (PrimFloat.add (ts_Distance s) (DistanceTo (Position a) (Position b)))
            p0 p)
  else Some (mk_trackScan records (ts_Distance s) p0 p).

(** The loop over the points of a segment from the index [i] on. *)
Fixpoint gpx_points (i : nat) (ps : list GPXPoint) (s : trackScan) : option trackScan :=
  match ps with
  | [] => Some s
  | p :: rest => s' <- gpx_point i p s ;; gpx_points (S i) rest s'
  end.

(** The loop over the segments of a track. *)
Fixpoint gpx_segments (segs : list (list GPXPoint)) (s : trackScan) : option trackScan :=
  match segs with
  | [] => Some s
  | seg :: rest => s' <- gpx_points 0 seg s ;; gpx_segments rest s'
  end.

(** The length of the path through [rs], added to [acc] step by step. *)
Fixpoint pathFrom (acc : float) (rs : list ActivityRecord) : float :=
  match rs with
  | a :: ((b :: _) as rest) =>
      pathFrom (PrimFloat.add acc (DistanceTo (Position a) (Position b))) rest
  | _ => acc
  end.

(** The distance that the loops leave: a segment with [n] points adds the
    length of the path through the first [n] records of the activity. *)
Fixpoint segmentsDistance (acc : float) (prev : list ActivityRecord)
         (segs : list (list GPXPoint)) : float :=
  match segs with
  | [] => acc
  | seg :: rest =>
      let records := (prev ++ map gpxRecord seg)%list in
      segmentsDistance (pathFrom acc (firstn (List.length seg) records)) records rest
  end.

End GPX.

(** ** The criterion of a tag comparison *)

(** The tag name as the generator writes it. *)
Definition tagName (k : string) : string := if needsQuote k then Quote k else k.

(** The criterion of [k == v] or [k != v] for a tag [k] and a string
    literal [v]: a comparison with the empty string is a match against the
    empty value. *)
Definition tagCriterion (negated : bool) (k v : string) : string :=
  "[" ++ tagName k
  ++ (if String.eqb v EmptyString
      then bangIf "~" negated ++ dq ++ "^$" ++ dq
      else bangIf "=" negated ++ Quote v)
  ++ "]".

(** ** The criterion of a numeric comparison *)

(** The comparison that a negation turns [op] into. *)
Definition negatedComparison (op : string) : string :=
  if String.eqb op ">" then "<="
  else if String.eqb op ">=" then "<"
  else if String.eqb op "<" then ">="
  else if String.eqb op "<=" then ">"
  else op.

(** The criterion of [k op n] for a tag [k] and an integer [n]: an
    evaluator on the value of the tag. *)
Definition valueCriterion (op : string) (k : string) (n : Z) : string :=
  "(if:t[" ++ Quote k ++ "]" ++ op ++ Sprint_int n ++ ")".

(** ** The generator at the root: negation without the stack of flags *)

(** A node that [queryBuilder.Enter] does not count as a level: a
    negation, a conjunction or a disjunction. *)
Definition isConnective (n : Node) : bool :=
  match asUnaryNot n, asBinaryAnd n, asBinaryOr n with
  | None, None, None => false
  | _, _, _ => true
  end.

(** Negation normal form of the outer chain: a negation stands on a node
    that is no connective. *)
Fixpoint rootNNF (t : Node) : bool :=
  match t with
  | UnaryNode op x => if isNot op then negb (isConnective x) else true
  | BinaryNode op l r => if isLogical op then rootNNF l && rootNNF r else true
  | _ => true
  end.

(** The flag that [queryBuilder.Exit] takes from [q.not] at the root. *)
Definition headFlag (flags : list bool) : bool :=
  match flags with
  | b :: _ => b
  | [] => false
  end.

(** The state [r] with other flags and another depth. *)
Definition reset (flags : list bool) (depth : Z) (r : queryBuilder) : queryBuilder :=
  mk_qb (qstack r) flags depth (qerr r).

(** Two walks end alike: both panic, or they leave the same fragments and
    the same error. *)
Definition sameOutput (o1 o2 : option queryBuilder) : Prop :=
  match o1, o2 with
  | Some a, Some b => qstack a = qstack b /\ qerr a = qerr b
  | None, None => True
  | _, _ => False
  end.

(** A walk at depth above zero neither reads the flags nor the depth it
    starts at: from depth [d] and flags [flags] it does what it does from
    depth 1 and no flags, [d - 1] levels higher and with [flags] kept.  A
    walk that ends without error ends at the depth it started at, and
    started without error. *)
Definition NestedFrame (walk : option queryBuilder -> option queryBuilder) : Prop :=
  forall st e,
    match walk (Some (mk_qb st [] 1 e)) with
    | None => forall flags d, 0 < d -> walk (Some (mk_qb st flags d e)) = None
    | Some r =>
        qnot r = [] /\ 1 <= qdepth r /\ (qerr r = None -> qdepth r = 1 /\ e = None)
        /\ forall flags d, 0 < d ->
             walk (Some (mk_qb st flags d e))
             = Some (mk_qb (qstack r) flags (qdepth r + (d - 1)) (qerr r))
    end.

(** What holds of the state between two walks at the root, unless an
    error is latched: the depth is zero and no flag is set. *)
Definition RootInv (q : queryBuilder) : Prop :=
  qerr q = None -> qdepth q = 0 /\ Forall (fun b => b = false) (qnot q).

(** The walk that ends in [o] ends like the one that ends in [w]. *)
Definition RootPost (w o : option queryBuilder) : Prop :=
  match w with
  | None => o = None
  | Some w => exists r, o = Some r /\ qstack r = qstack w /\ qerr r = qerr w /\ RootInv r
  end.

Section RootWalk.

Variable Sprint_float : float -> string.

(** The state in which the generator's walk of [node] ends. *)
Definition walkState (node : Node) (s : option queryBuilder) : option queryBuilder :=
  snd (Walk (qb_visitor Sprint_float) node s).

Fixpoint walkStates (ns : list Node) (s : option queryBuilder) : option queryBuilder :=
  match ns with
  | [] => s
  | n :: r => walkStates r (walkState n s)
  end.

(** The state after the children of [node], left to right. *)
Definition childrenState (node : Node) (s : option queryBuilder) : option queryBuilder :=
  match node with
  | UnaryNode _ x => walkState x s
  | BinaryNode _ l r => walkState r (walkState l s)
  | MatchesNode l r => walkState r (walkState l s)
  | FunctionNode _ args => walkStates args s
  | ConditionalNode c a b => walkState b (walkState a (walkState c s))
  | ArrayNode ns => walkStates ns s
  | _ => s
  end.

(** The walk of a node that is no connective, on its own, with the flag
    [negated] for it. *)
Definition walkAtom (negated : bool) (a : Node) (q : queryBuilder) : option queryBuilder :=
  walkState a (Some (mk_qb (qstack q) [negated] 0 (qerr q))).

(** The generator at the root without the stack of flags: a node under a
    negation is walked with the flag set, any other with the flag clear,
    and a conjunction or disjunction exits on the fragments of its
    operands. *)
Fixpoint walkRoot (t : Node) (q : queryBuilder) : option queryBuilder :=
  match t with
  | UnaryNode op x => if isNot op then walkAtom true x q else walkAtom false t q
  | BinaryNode op l r =>
      if isLogical op then
        q1 <- walkRoot l q ;;
        q2 <- walkRoot r q1 ;;
        qb_Exit Sprint_float t (mk_qb (qstack q2) [] 0 (qerr q2))
      else walkAtom false t q
  | _ => walkAtom false t q
  end.

End RootWalk.

(** * Proofs *)

(** ** Membership expander *)

Lemma expandInArray_loop_next (lhs : Node) :
  forall rest done d,
    LeftDisjunction lhs done d ->
    LeftDisjunction lhs (done ++ rest)
      (expandInArray_loop lhs (List.length done) rest d).
Proof.
  induction rest as [|e rest IH]; intros done d Hd; simpl.
  - now rewrite app_nil_r.
  - destruct done as [|x done'].
    + inversion Hd. destruct es; discriminate.
    + change (S (List.length (x :: done'))) with (List.length (x :: done') + 1)%nat in IH.
      specialize (IH ((x :: done') ++ [e])%list
                     (BinaryNode "or" d (BinaryNode "==" lhs e)) (LD_next lhs _ e d Hd)).
      rewrite length_app in IH. simpl in IH.
      rewrite Nat.add_1_r in IH.
      rewrite <- app_assoc in IH. simpl in IH. simpl. exact IH.
Qed.

Lemma expandInArray_loop_spec (lhs node e : Node) (es : list Node) :
  LeftDisjunction lhs (e :: es) (expandInArray_loop lhs 0 (e :: es) node).
Proof.
  simpl. apply (expandInArray_loop_next lhs es [e]). constructor.
Qed.

Lemma LeftDisjunction_disjuncts (lhs : Node) :
  forall es d, LeftDisjunction lhs es d -> disjuncts d = map (BinaryNode "==" lhs) es.
Proof.
  induction 1 as [e|es e d _ IH]; [reflexivity|].
  rewrite map_app. simpl. now rewrite IH.
Qed.

(** C3.  On an [in] / [not in] node whose right-hand side is an array
    literal, [expandInArray.Exit] leaves a node [body], wrapped in a unary
    [not] exactly when the operator was [not in]: for the empty array
    [body] is the boolean literal false; for an array of N > 0 elements it
    is the left-associated disjunction of the N comparisons of the left
    operand with each element, in array order. *)
Theorem expandInArray_Exit_array (op : string) (lhs : Node) (elems : list Node) :
  op = "in" \/ op = "not in" ->
  exists body,
    expandInArray_Exit (BinaryNode op lhs (ArrayNode elems))
    = negatedIf (String.eqb op "not in") body
    /\ (elems = [] -> body = BoolNode false)
    /\ (elems <> [] ->
        LeftDisjunction lhs elems body
        /\ disjuncts body = map (BinaryNode "==" lhs) elems
        /\ List.length (disjuncts body) = List.length elems).
Proof.
  intros Hop.
  assert (Hin : asBinaryIn (BinaryNode op lhs (ArrayNode elems))
                = Some (op, lhs, ArrayNode elems)).
  { destruct Hop; subst; reflexivity. }
  unfold expandInArray_Exit. rewrite Hin. unfold wrapNotIn, negatedIf.
  destruct elems as [|e es].
  - exists (BoolNode false). simpl. repeat split; congruence.
  - pose proof (expandInArray_loop_spec lhs (BinaryNode op lhs (ArrayNode (e :: es))) e es) as H.
    pose proof (LeftDisjunction_disjuncts lhs _ _ H) as Hd.
    exists (expandInArray_loop lhs 0 (e :: es) (BinaryNode op lhs (ArrayNode (e :: es)))).
    split; [reflexivity|]. split; [discriminate|]. intros _.
    split; [exact H|]. split; [exact Hd|]. rewrite Hd. apply length_map.
Qed.

Lemma expandInArray_Exit_array_witness :
  exists body,
    expandInArray_Exit
      (BinaryNode "not in" (IdentifierNode "a")
         (ArrayNode [StringNode "b"; StringNode "c"; StringNode "d"]))
    = negatedIf (String.eqb "not in" "not in") body
    /\ (([StringNode "b"; StringNode "c"; StringNode "d"] : list Node) = [] ->
        body = BoolNode false)
    /\ ([StringNode "b"; StringNode "c"; StringNode "d"] <> [] ->
        LeftDisjunction (IdentifierNode "a")
          [StringNode "b"; StringNode "c"; StringNode "d"] body
        /\ disjuncts body
           = map (BinaryNode "==" (IdentifierNode "a"))
               [StringNode "b"; StringNode "c"; StringNode "d"]
        /\ List.length (disjuncts body)
           = List.length [StringNode "b"; StringNode "c"; StringNode "d"]).
Proof.
  apply (expandInArray_Exit_array "not in" (IdentifierNode "a")
           [StringNode "b"; StringNode "c"; StringNode "d"]).
  right; reflexivity.
Defined.

(** The example of the source comment: [a not in ['b','c','d']] becomes
    [not (a=='b' or a=='c' or a=='d')]. *)
Example expandInArray_comment_example :
  expandInArray_Exit
    (BinaryNode "not in" (IdentifierNode "a")
       (ArrayNode [StringNode "b"; StringNode "c"; StringNode "d"]))
  = UnaryNode "not"
      (BinaryNode "or"
         (BinaryNode "or"
            (BinaryNode "==" (IdentifierNode "a") (StringNode "b"))
            (BinaryNode "==" (IdentifierNode "a") (StringNode "c")))
         (BinaryNode "==" (IdentifierNode "a") (StringNode "d"))).
Proof. reflexivity. Qed.

Lemma getValue_literalValueEqual (lo hi : Node) :
  any_eqb (getValue lo) (getValue hi) = literalValueEqual lo hi.
Proof. destruct lo, hi; reflexivity. Qed.

(** C4.  On an [in] / [not in] node whose right-hand side is the range
    [lo..hi], [expandInRange.Exit] leaves the comparison [lhs == lo] when
    the bounds are equal by literal value and the conjunction
    [lhs >= lo and lhs <= hi] otherwise, wrapped in a unary [not] exactly
    when the operator was [not in]; a bound that is not a literal makes
    the bounds unequal. *)
Theorem expandInRange_Exit_range (op : string) (lhs lo hi : Node) :
  op = "in" \/ op = "not in" ->
  expandInRange_Exit (BinaryNode op lhs (BinaryNode ".." lo hi))
  = negatedIf (String.eqb op "not in")
      (if literalValueEqual lo hi then BinaryNode "==" lhs lo
       else BinaryNode "and" (BinaryNode ">=" lhs lo) (BinaryNode "<=" lhs hi))
  /\ (isLiteral lo = false \/ isLiteral hi = false -> literalValueEqual lo hi = false).
Proof.
  intros Hop. split.
  - unfold expandInRange_Exit.
    replace (asBinaryIn (BinaryNode op lhs (BinaryNode ".." lo hi)))
      with (Some (op, lhs, BinaryNode ".." lo hi))
      by (destruct Hop; subst; reflexivity).
    simpl. now rewrite getValue_literalValueEqual.
  - intros [H|H]; destruct lo, hi; simpl in *; congruence.
Qed.

Lemma expandInRange_Exit_range_witness :
  expandInRange_Exit
    (BinaryNode "not in" (IdentifierNode "a")
       (BinaryNode ".." (IntegerNode 2) (IntegerNode 6)))
  = negatedIf (String.eqb "not in" "not in")
      (if literalValueEqual (IntegerNode 2) (IntegerNode 6)
       then BinaryNode "==" (IdentifierNode "a") (IntegerNode 2)
       else BinaryNode "and"
              (BinaryNode ">=" (IdentifierNode "a") (IntegerNode 2))
              (BinaryNode "<=" (IdentifierNode "a") (IntegerNode 6)))
  /\ (isLiteral (IntegerNode 2) = false \/ isLiteral (IntegerNode 6) = false ->
      literalValueEqual (IntegerNode 2) (IntegerNode 6) = false).
Proof.
  apply (expandInRange_Exit_range "not in" (IdentifierNode "a") (IntegerNode 2) (IntegerNode 6)).
  right; reflexivity.
Defined.

(** The example of the source comment: [a not in (2 .. 6)] becomes
    [not (a>=2 and a<=6)]; equal bounds give one comparison. *)
Example expandInRange_comment_example :
  expandInRange_Exit
    (BinaryNode "not in" (IdentifierNode "a")
       (BinaryNode ".." (IntegerNode 2) (IntegerNode 6)))
  = UnaryNode "not"
      (BinaryNode "and"
         (BinaryNode ">=" (IdentifierNode "a") (IntegerNode 2))
         (BinaryNode "<=" (IdentifierNode "a") (IntegerNode 6)))
  /\ expandInRange_Exit
       (BinaryNode "in" (IdentifierNode "a")
          (BinaryNode ".." (IntegerNode 3) (IntegerNode 3)))
     = BinaryNode "==" (IdentifierNode "a") (IntegerNode 3).
Proof. split; reflexivity. Qed.

(** ** Negation normalizer *)

Lemma operatorPairs_Dual (a b : string) :
  map_lookup operatorPairs a = Some b <-> Dual a b.
Proof.
  split.
  - cbv [operatorPairs operatorPairs_literal fold_left app fst snd map_lookup].
    repeat match goal with
      | |- context [String.eqb ?k a] =>
          destruct (String.eqb_spec k a) as [<-|_]; [intros [= <-]; constructor|]
      end.
    discriminate.
  - destruct 1; reflexivity.
Qed.

Lemma weight_Function (name : string) (args : list Node) :
  weight (FunctionNode name args) = S (weights args).
Proof. induction args as [|x r IH]; simpl in *; congruence. Qed.

Lemma weight_Array (ns : list Node) : weight (ArrayNode ns) = S (weights ns).
Proof. induction ns as [|x r IH]; simpl in *; congruence. Qed.

Lemma weight_pos (n : Node) : (1 <= weight n)%nat.
Proof. destruct n; simpl; lia. Qed.

Lemma Enter_monotone (w1 w2 : Node -> option Node) (node n1 : Node) :
  (forall x y, w1 x = Some y -> w2 x = Some y) ->
  distributeAndFoldNot_Enter w1 node = Some n1 ->
  distributeAndFoldNot_Enter w2 node = Some n1.
Proof.
  intros Hw. unfold distributeAndFoldNot_Enter.
  destruct (asUnaryNot node) as [[unop operand]|]; [|auto].
  destruct operand; simpl; auto.
  destruct (String.eqb Operator "not" || String.eqb Operator "!"); auto.
Qed.

Lemma omap_list_monotone {A B : Type} (f g : A -> option B) :
  forall l l', (forall x y, f x = Some y -> g x = Some y) ->
               omap_list f l = Some l' -> omap_list g l = Some l'.
Proof.
  induction l as [|a r IH]; intros l' Hfg; simpl; [auto|].
  destruct (f a) as [b|] eqn:Ha; simpl; [|discriminate].
  rewrite (Hfg _ _ Ha). simpl.
  destruct (omap_list f r) as [r'|] eqn:Hr; simpl; [|discriminate].
  now rewrite (IH r' Hfg eq_refl).
Qed.

(** More fuel does not change the result of a walk that returned. *)
Lemma WalkNot_monotone :
  forall f node node', WalkNot f node = Some node' ->
  forall f', (f <= f')%nat -> WalkNot f' node = Some node'.
Proof.
  induction f as [|f IH]; intros node node' H f' Hle; [discriminate|].
  destruct f' as [|f']; [lia|].
  assert (Hw : forall x y, WalkNot f x = Some y -> WalkNot f' x = Some y).
  { intros x y Hx. apply (IH _ _ Hx). lia. }
  simpl in H |- *.
  destruct (distributeAndFoldNot_Enter (WalkNot f) node) as [n1|] eqn:HE;
    simpl in H; [|discriminate].
  rewrite (Enter_monotone _ _ _ _ Hw HE). simpl.
  destruct n1; auto;
    repeat match type of H with
      | context [WalkNot f ?x] =>
          let E := fresh "E" in
          destruct (WalkNot f x) eqn:E; simpl in H; [|discriminate];
          rewrite (Hw _ _ E); simpl
      | context [omap_list (WalkNot f) ?x] =>
          let E := fresh "E" in
          destruct (omap_list (WalkNot f) x) eqn:E; simpl in H; [|discriminate];
          rewrite (omap_list_monotone _ _ _ _ Hw E); simpl
      end; auto.
Qed.

Lemma Enter_total (w : Node -> option Node) (f : nat) (node : Node) :
  (forall x, (weight x < f)%nat -> exists y, w x = Some y /\ (weight y <= weight x)%nat) ->
  (weight node <= f)%nat ->
  exists n1, distributeAndFoldNot_Enter w node = Some n1 /\ (weight n1 <= weight node)%nat.
Proof.
  intros Hw Hle. unfold distributeAndFoldNot_Enter.
  destruct (asUnaryNot node) as [[unop operand]|] eqn:Hn; [|eauto].
  destruct node; simpl in Hn; try discriminate.
  destruct (String.eqb Operator "not" || String.eqb Operator "!"); [|discriminate].
  injection Hn as <- <-.
  destruct node; try (eexists; split; [reflexivity|simpl; lia]).
  - simpl. destruct (String.eqb Operator0 "not" || String.eqb Operator0 "!").
    + simpl in Hle. destruct (Hw node) as [y [Hy Hwy]]; [lia|].
      exists y. split; [exact Hy|]. simpl. lia.
    + eexists; split; [reflexivity|simpl; lia].
  - destruct (map_lookup operatorPairs Operator0);
      [destruct (isLogical Operator0)|]; eexists; (split; [reflexivity|simpl; lia]).
Qed.

Lemma omap_list_total (w : Node -> option Node) (f : nat) :
  forall ns,
    (forall x, (weight x < f)%nat -> exists y, w x = Some y /\ (weight y <= weight x)%nat) ->
    (weights ns < f)%nat ->
    exists ns', omap_list w ns = Some ns' /\ (weights ns' <= weights ns)%nat.
Proof.
  induction ns as [|x r IH]; intros Hw Hlt; simpl.
  - exists []. split; [reflexivity|simpl; lia].
  - simpl in Hlt. pose proof (weight_pos x).
    destruct (Hw x) as [y [Hy Hwy]]; [lia|]. rewrite Hy. simpl.
    destruct (IH Hw) as [r' [Hr Hwr]]; [lia|]. rewrite Hr. simpl.
    eexists; split; [reflexivity|simpl; lia].
Qed.

(** The walk of the negation normalizer returns once the fuel exceeds the
    weight of the node, and it does not increase the weight. *)
Lemma WalkNot_total :
  forall f node, (weight node < f)%nat ->
  exists node', WalkNot f node = Some node' /\ (weight node' <= weight node)%nat.
Proof.
  induction f as [|f IH]; intros node Hlt; [lia|].
  simpl.
  destruct (Enter_total (WalkNot f) f node IH) as [n1 [HE Hw1]]; [lia|].
  rewrite HE. simpl.
  destruct n1;
    try (eexists; split; [reflexivity|exact Hw1]).
  - simpl in Hw1. destruct (IH n1) as [y [Hy Hwy]]; [lia|].
    rewrite Hy. simpl. eexists; split; [reflexivity|simpl; lia].
  - simpl in Hw1.
    destruct (IH n1_1) as [y1 [Hy1 Hwy1]]; [lia|].
    destruct (IH n1_2) as [y2 [Hy2 Hwy2]]; [lia|].
    rewrite Hy1, Hy2. simpl. eexists; split; [reflexivity|simpl; lia].
  - simpl in Hw1.
    destruct (IH n1_1) as [y1 [Hy1 Hwy1]]; [lia|].
    destruct (IH n1_2) as [y2 [Hy2 Hwy2]]; [lia|].
    rewrite Hy1, Hy2. simpl. eexists; split; [reflexivity|simpl; lia].
  - rewrite weight_Function in Hw1.
    destruct (omap_list_total (WalkNot f) f Arguments IH) as [ns' [Hns Hwns]]; [lia|].
    rewrite Hns. simpl. eexists; split; [reflexivity|].
    rewrite weight_Function. lia.
  - simpl in Hw1.
    destruct (IH n1_1) as [y1 [Hy1 Hwy1]]; [lia|].
    destruct (IH n1_2) as [y2 [Hy2 Hwy2]]; [lia|].
    destruct (IH n1_3) as [y3 [Hy3 Hwy3]]; [lia|].
    rewrite Hy1, Hy2, Hy3. simpl. eexists; split; [reflexivity|simpl; lia].
  - rewrite weight_Array in Hw1.
    destruct (omap_list_total (WalkNot f) f Nodes IH) as [ns' [Hns Hwns]]; [lia|].
    rewrite Hns. simpl. eexists; split; [reflexivity|].
    rewrite weight_Array. lia.
Qed.

(** With enough fuel the fuelled walk returns what the pass returns. *)
Lemma WalkNot_enough (f : nat) (node : Node) :
  (weight node < f)%nat -> WalkNot f node = Some (distributeAndFoldNot_Walk node).
Proof.
  intros Hlt. unfold distributeAndFoldNot_Walk.
  destruct (WalkNot_total (S (weight node)) node) as [n' [Hn _]]; [lia|].
  rewrite Hn. apply (WalkNot_monotone _ _ _ Hn). lia.
Qed.

Lemma WalkNot_Walk (f : nat) (node node' : Node) :
  WalkNot f node = Some node' -> distributeAndFoldNot_Walk node = node'.
Proof.
  intros H.
  pose proof (WalkNot_enough (S (Nat.max f (weight node))) node ltac:(lia)) as H1.
  pose proof (WalkNot_monotone _ _ _ H (S (Nat.max f (weight node))) ltac:(lia)) as H2.
  congruence.
Qed.

(** C5.  On a unary [not] / [!] whose operand is a binary node with a
    registered dual, [distributeAndFoldNot.Enter] puts the operand in the
    place of the not-node with its operator swapped for the dual; for the
    connectives [and], [&&], [or], [||] both children are wrapped in the
    same unary operator first, the other operators keep their children.
    The pass then normalizes the children: [not (A and B)] becomes
    [(not A) or (not B)] and [not (A or B)] becomes [(not A) and (not B)],
    each negated child normalized in turn. *)
Theorem distributeAndFoldNot_dual (unop a b : string) (l r : Node) :
  unop = "not" \/ unop = "!" ->
  Dual a b ->
  (forall walk,
      distributeAndFoldNot_Enter walk (UnaryNode unop (BinaryNode a l r))
      = Some (if isLogical a
              then BinaryNode b (UnaryNode unop l) (UnaryNode unop r)
              else BinaryNode b l r))
  /\ distributeAndFoldNot_Walk (UnaryNode unop (BinaryNode a l r))
     = (if isLogical a
        then BinaryNode b (distributeAndFoldNot_Walk (UnaryNode unop l))
                          (distributeAndFoldNot_Walk (UnaryNode unop r))
        else BinaryNode b (distributeAndFoldNot_Walk l) (distributeAndFoldNot_Walk r)).
Proof.
  intros Hun Hd.
  assert (HE : forall walk,
             distributeAndFoldNot_Enter walk (UnaryNode unop (BinaryNode a l r))
             = Some (if isLogical a
                     then BinaryNode b (UnaryNode unop l) (UnaryNode unop r)
                     else BinaryNode b l r)).
  { intros walk. unfold distributeAndFoldNot_Enter.
    replace (asUnaryNot (UnaryNode unop (BinaryNode a l r)))
      with (Some (unop, BinaryNode a l r)) by (destruct Hun; subst; reflexivity).
    apply operatorPairs_Dual in Hd. rewrite Hd. now destruct (isLogical a). }
  split; [exact HE|].
  apply (WalkNot_Walk (S (weight (UnaryNode unop (BinaryNode a l r))))).
  cbn [WalkNot]. rewrite HE. cbn [obind].
  destruct (isLogical a).
  - rewrite !WalkNot_enough by (simpl; lia). reflexivity.
  - rewrite !WalkNot_enough by (simpl; lia). reflexivity.
Qed.

Lemma distributeAndFoldNot_dual_witness :
  (forall walk,
      distributeAndFoldNot_Enter walk
        (UnaryNode "not" (BinaryNode "and" (IdentifierNode "A") (IdentifierNode "B")))
      = Some (if isLogical "and"
              then BinaryNode "or" (UnaryNode "not" (IdentifierNode "A"))
                     (UnaryNode "not" (IdentifierNode "B"))
              else BinaryNode "or" (IdentifierNode "A") (IdentifierNode "B")))
  /\ distributeAndFoldNot_Walk
       (UnaryNode "not" (BinaryNode "and" (IdentifierNode "A") (IdentifierNode "B")))
     = (if isLogical "and"
        then BinaryNode "or"
               (distributeAndFoldNot_Walk (UnaryNode "not" (IdentifierNode "A")))
               (distributeAndFoldNot_Walk (UnaryNode "not" (IdentifierNode "B")))
        else BinaryNode "or" (distributeAndFoldNot_Walk (IdentifierNode "A"))
               (distributeAndFoldNot_Walk (IdentifierNode "B"))).
Proof.
  apply (distributeAndFoldNot_dual "not" "and" "or" (IdentifierNode "A") (IdentifierNode "B")).
  - left; reflexivity.
  - constructor.
Defined.

(** De Morgan on concrete operands, and a comparison swapped in place. *)
Example distributeAndFoldNot_examples :
  distributeAndFoldNot_Walk
    (UnaryNode "not" (BinaryNode "and" (IdentifierNode "A") (IdentifierNode "B")))
  = BinaryNode "or" (UnaryNode "not" (IdentifierNode "A")) (UnaryNode "not" (IdentifierNode "B"))
  /\ distributeAndFoldNot_Walk
       (UnaryNode "not" (BinaryNode "or" (IdentifierNode "A") (IdentifierNode "B")))
     = BinaryNode "and" (UnaryNode "not" (IdentifierNode "A"))
         (UnaryNode "not" (IdentifierNode "B"))
  /\ distributeAndFoldNot_Walk
       (UnaryNode "!" (BinaryNode ">=" (IdentifierNode "x") (IntegerNode 3)))
     = BinaryNode "<" (IdentifierNode "x") (IntegerNode 3).
Proof. repeat split; reflexivity. Qed.

(** ** The walk *)

Lemma Walk_eq {S : Type} (v : Visitor S) (node : Node) (s : S) :
  Walk v node s
  = (let '(node', s') := WalkChildren v node (Enter v node s) in Exit v node' s').
Proof.
  assert (HL : forall ns s0,
             (fix walks (ns : list Node) (s : S) {struct ns} : list Node * S :=
                match ns with
                | [] => ([], s)
                | n :: r =>
                    let '(n', s) := Walk v n s in
                    let '(r', s) := walks r s in
                    (n' :: r', s)
                end) ns s0 = WalkList v ns s0).
  { induction ns as [|n r IH]; intros s0; simpl; [reflexivity|].
    destruct (Walk v n s0) as [n' s1]. now rewrite IH. }
  destruct node; try reflexivity; simpl; now rewrite HL.
Qed.

(** ** DNF converter *)

Lemma dnf_Walk_positive_depth :
  forall node f, 0 < dnf_depth f -> Walk dnf_visitor node f = (node, f).
Proof.
  induction node using Node_forall_ind; intros f Hf; rewrite Walk_eq;
    assert (HE : Enter dnf_visitor = dnf_Enter) by reflexivity;
    assert (HX : Exit dnf_visitor = dnf_Exit) by reflexivity;
    rewrite HE, HX; unfold dnf_Enter;
    destruct (Z.ltb_spec 0 (dnf_depth f)) as [_|]; try lia;
    set (f1 := mk_dnf (dnf_depth f + 1) (dnf_applied f));
    assert (H1 : 0 < dnf_depth f1) by (simpl; lia);
    assert (HXf : forall n, dnf_Exit n f1 = (n, f))
      by (intros n0; unfold dnf_Exit; destruct (Z.ltb_spec 0 (dnf_depth f1)); [|lia];
          simpl; destruct f; simpl; f_equal; f_equal; lia);
    cbn [WalkChildren].
  all: try (apply HXf).
  - rewrite IHnode by exact H1. apply HXf.
  - rewrite IHnode1, IHnode2 by exact H1. apply HXf.
  - rewrite IHnode1, IHnode2 by exact H1. apply HXf.
  - assert (HL : WalkList dnf_visitor args f1 = (args, f1)).
    { induction H as [|x r Hx _ IH]; simpl; [reflexivity|].
      rewrite Hx by exact H1. now rewrite IH. }
    rewrite HL. apply HXf.
  - rewrite IHnode1, IHnode2, IHnode3 by exact H1. apply HXf.
  - assert (HL : WalkList dnf_visitor ns f1 = (ns, f1)).
    { induction H as [|x r Hx _ IH]; simpl; [reflexivity|].
      rewrite Hx by exact H1. now rewrite IH. }
    rewrite HL. apply HXf.
Qed.

Lemma dnf_WalkList_positive_depth :
  forall ns f, 0 < dnf_depth f -> WalkList dnf_visitor ns f = (ns, f).
Proof.
  induction ns as [|x r IH]; intros f Hf; simpl; [reflexivity|].
  rewrite dnf_Walk_positive_depth by exact Hf. now rewrite IH.
Qed.

Lemma dnf_Walk_nonlogical (node : Node) (f : dnf) :
  dnf_depth f = 0 -> asBinaryAnd node = None -> asBinaryOr node = None ->
  Walk dnf_visitor node f = (node, f).
Proof.
  intros H0 Hand Hor. rewrite Walk_eq.
  assert (HE : Enter dnf_visitor node f = mk_dnf 1 (dnf_applied f)).
  { simpl. unfold dnf_Enter. rewrite H0. simpl.
    destruct node; try reflexivity.
    simpl in Hand, Hor.
    destruct (String.eqb Operator "and"), (String.eqb Operator "&&"),
      (String.eqb Operator "or"), (String.eqb Operator "||"); simpl in *;
      try discriminate; reflexivity. }
  rewrite HE.
  assert (HC : WalkChildren dnf_visitor node (mk_dnf 1 (dnf_applied f))
               = (node, mk_dnf 1 (dnf_applied f))).
  { destruct node; cbn [WalkChildren];
      rewrite ?dnf_Walk_positive_depth, ?dnf_WalkList_positive_depth by (simpl; lia);
      reflexivity. }
  rewrite HC. simpl. unfold dnf_Exit. simpl. destruct f; simpl in *; subst. reflexivity.
Qed.

Lemma Distributes_Exit (node node' : Node) (f : dnf) :
  dnf_depth f = 0 -> Distributes node node' -> dnf_Exit node f = (node', mk_dnf 0 true).
Proof.
  intros H0 HD. unfold dnf_Exit. rewrite H0. simpl.
  destruct HD as [a o b c d Ha Ho|a o l b c Ha Ho Hl].
  - replace (asBinaryAnd (BinaryNode a (BinaryNode o b c) d))
      with (Some (a, BinaryNode o b c, d)) by (destruct Ha; subst; reflexivity).
    replace (asBinaryOr (BinaryNode o b c))
      with (Some (o, b, c)) by (destruct Ho; subst; reflexivity).
    reflexivity.
  - replace (asBinaryAnd (BinaryNode a l (BinaryNode o b c)))
      with (Some (a, l, BinaryNode o b c)) by (destruct Ha; subst; reflexivity).
    rewrite Hl.
    replace (asBinaryOr (BinaryNode o b c))
      with (Some (o, b, c)) by (destruct Ho; subst; reflexivity).
    reflexivity.
Qed.

Lemma asBinaryAnd_Some (node : Node) (a : string) (l r : Node) :
  asBinaryAnd node = Some (a, l, r) -> node = BinaryNode a l r /\ (a = "and" \/ a = "&&").
Proof.
  destruct node; simpl; try discriminate.
  destruct (String.eqb_spec Operator "and"); simpl.
  - intros [= <- <- <-]. auto.
  - destruct (String.eqb_spec Operator "&&"); [|discriminate].
    intros [= <- <- <-]. auto.
Qed.

Lemma asBinaryOr_Some (node : Node) (o : string) (l r : Node) :
  asBinaryOr node = Some (o, l, r) -> node = BinaryNode o l r /\ (o = "or" \/ o = "||").
Proof.
  destruct node; simpl; try discriminate.
  destruct (String.eqb_spec Operator "or"); simpl.
  - intros [= <- <- <-]. auto.
  - destruct (String.eqb_spec Operator "||"); [|discriminate].
    intros [= <- <- <-]. auto.
Qed.

Lemma not_Distributes_Exit (node : Node) (f : dnf) :
  dnf_depth f = 0 -> (forall node', ~ Distributes node node') -> dnf_Exit node f = (node, f).
Proof.
  intros H0 HN. unfold dnf_Exit. rewrite H0. simpl.
  destruct (asBinaryAnd node) as [[[a l] r]|] eqn:Ha; [|reflexivity].
  apply asBinaryAnd_Some in Ha. destruct Ha as [-> Ha].
  destruct (asBinaryOr l) as [[[o b] c]|] eqn:Hl.
  - apply asBinaryOr_Some in Hl. destruct Hl as [-> Ho].
    exfalso. eapply HN. now apply Distributes_left.
  - destruct (asBinaryOr r) as [[[o b] c]|] eqn:Hr; [|reflexivity].
    apply asBinaryOr_Some in Hr. destruct Hr as [-> Ho].
    exfalso. eapply HN. now apply Distributes_right.
Qed.

Lemma Distributes_iff (node : Node) :
  (exists node', Distributes node node')
  <-> (exists a l r, asBinaryAnd node = Some (a, l, r)
                     /\ (asBinaryOr l <> None \/ asBinaryOr r <> None)).
Proof.
  split.
  - intros [node' HD]. destruct HD as [a o b c d Ha Ho|a o l b c Ha Ho Hl].
    + exists a, (BinaryNode o b c), d. split.
      * destruct Ha; subst; reflexivity.
      * left. destruct Ho; subst; discriminate.
    + exists a, l, (BinaryNode o b c). split.
      * destruct Ha; subst; reflexivity.
      * right. destruct Ho; subst; discriminate.
  - intros [a [l [r [Ha Hlr]]]].
    apply asBinaryAnd_Some in Ha. destruct Ha as [-> Ha].
    destruct (asBinaryOr l) as [[[o b] c]|] eqn:Hl.
    + apply asBinaryOr_Some in Hl. destruct Hl as [-> Ho].
      eexists. now apply Distributes_left.
    + destruct Hlr as [Hlr|Hlr]; [congruence|].
      destruct (asBinaryOr r) as [[[o b] c]|] eqn:Hr; [|congruence].
      apply asBinaryOr_Some in Hr. destruct Hr as [-> Ho].
      eexists. now apply Distributes_right.
Qed.

(** C6.  [dnf.Exit] rewrites exactly at depth zero and exactly a
    conjunction with a disjunction as its left or right child, by the
    distributive law, and then marks the round as applied; any other node
    at depth zero is left as it is, and at a positive depth [Exit] only
    counts the depth down.  A walk that starts at a positive depth, and
    the walk of a node at depth zero that is not an [and] / [or] node (a
    function call with its arguments, a comparison with its operands),
    returns the node and the state as they were. *)
Theorem dnf_rewrites_only_at_depth_zero (node : Node) (f : dnf) :
  0 <= dnf_depth f ->
  (dnf_depth f = 0 ->
   (forall node', Distributes node node' -> dnf_Exit node f = (node', mk_dnf 0 true))
   /\ ((forall a l r, asBinaryAnd node = Some (a, l, r) ->
                      asBinaryOr l = None /\ asBinaryOr r = None) ->
       dnf_Exit node f = (node, f))
   /\ (asBinaryAnd node = None -> asBinaryOr node = None ->
       Walk dnf_visitor node f = (node, f)))
  /\ (0 < dnf_depth f ->
      dnf_Exit node f = (node, mk_dnf (dnf_depth f - 1) (dnf_applied f))
      /\ Walk dnf_visitor node f = (node, f)).
Proof.
  intros _. split.
  - intros H0. split; [|split].
    + intros node' HD. now apply Distributes_Exit.
    + intros Hno. apply not_Distributes_Exit; [exact H0|].
      intros node' HD.
      destruct (proj1 (Distributes_iff node) (ex_intro _ node' HD)) as [a [l [r [Ha Hlr]]]].
      destruct (Hno a l r Ha) as [Hl Hr]. destruct Hlr; congruence.
    + now apply dnf_Walk_nonlogical.
  - intros Hpos. split.
    + unfold dnf_Exit. destruct (Z.ltb_spec 0 (dnf_depth f)); [reflexivity|lia].
    + now apply dnf_Walk_positive_depth.
Qed.

Lemma dnf_rewrites_only_at_depth_zero_witness :
  dnf_Exit
    (BinaryNode "and" (BinaryNode "or" (IdentifierNode "B") (IdentifierNode "C"))
       (IdentifierNode "D"))
    (mk_dnf 0 false)
  = (BinaryNode "or" (BinaryNode "and" (IdentifierNode "B") (IdentifierNode "D"))
       (BinaryNode "and" (IdentifierNode "C") (IdentifierNode "D")),
     mk_dnf 0 true).
Proof.
  destruct (dnf_rewrites_only_at_depth_zero
              (BinaryNode "and" (BinaryNode "or" (IdentifierNode "B") (IdentifierNode "C"))
                 (IdentifierNode "D"))
              (mk_dnf 0 false) (Z.le_refl 0)) as [H0 _].
  destruct (H0 eq_refl) as [HD _].
  apply HD. apply Distributes_left; left; reflexivity.
Defined.

(** One round on [(B or C) and D], on [A and (B or C)], and on the same
    conjunction as a function argument and as a comparison operand. *)
Example dnf_round_examples :
  let B := IdentifierNode "B" in
  let C := IdentifierNode "C" in
  let D := IdentifierNode "D" in
  dnf_round (BinaryNode "and" (BinaryNode "or" B C) D)
  = (BinaryNode "or" (BinaryNode "and" B D) (BinaryNode "and" C D), true)
  /\ dnf_round (BinaryNode "&&" D (BinaryNode "||" B C))
     = (BinaryNode "||" (BinaryNode "&&" D B) (BinaryNode "&&" D C), true)
  /\ dnf_round (FunctionNode "f" [BinaryNode "and" (BinaryNode "or" B C) D])
     = (FunctionNode "f" [BinaryNode "and" (BinaryNode "or" B C) D], false)
  /\ dnf_round (BinaryNode "==" (BinaryNode "and" (BinaryNode "or" B C) D) (BoolNode true))
     = (BinaryNode "==" (BinaryNode "and" (BinaryNode "or" B C) D) (BoolNode true), false).
Proof. repeat split; reflexivity. Qed.

Lemma toDNF_loop_rounds :
  forall limit node,
    let n := toDNF_rounds_from limit node in
    (1 <= n <= limit + 1)%nat
    /\ toDNF_loop limit node = dnf_iterate n node
    /\ (forall k, (k < n - 1)%nat -> snd (dnf_round (dnf_iterate k node)) = true)
    /\ (snd (dnf_round (dnf_iterate (n - 1) node)) = false \/ n = (limit + 1)%nat).
Proof.
  induction limit as [|limit IH]; intros node; cbn zeta; simpl toDNF_rounds_from;
    simpl toDNF_loop; destruct (dnf_round node) as [node' applied] eqn:Hr;
    destruct applied; simpl negb; cbn iota.
  - split; [lia|]. split; [simpl; now rewrite Hr|]. split; [intros k Hk; lia|]. now right.
  - split; [lia|]. split; [simpl; now rewrite Hr|]. split; [intros k Hk; lia|].
    left. simpl. now rewrite Hr.
  - destruct (IH node') as [Hn [Hloop [Hall Hlast]]].
    set (n := toDNF_rounds_from limit node') in *.
    split; [lia|]. split; [rewrite Hloop; simpl; now rewrite Hr|]. split.
    + intros k Hk. destruct k as [|k]; simpl; [now rewrite Hr|].
      rewrite Hr. simpl. apply Hall. lia.
    + replace (S n - 1)%nat with (S (n - 1)) by lia. simpl. rewrite Hr. simpl.
      destruct Hlast as [Hlast|Hlast]; [now left|right; lia].
  - split; [lia|]. split; [simpl; now rewrite Hr|]. split; [intros k Hk; lia|].
    left. simpl. now rewrite Hr.
Qed.

(** C7, as the code has it.  [toDNF] always returns.  It runs whole-tree
    rounds, at least one and at most 1001 of them, the loop variable going
    from 1000 down to 0; every round but the last applied a rewrite, and
    the last round either applied none or was round 1001. *)
Theorem toDNF_terminates_within_cap (node : Node) :
  exists n,
    n = toDNF_rounds node
    /\ (1 <= n <= 1001)%nat
    /\ toDNF node = dnf_iterate n node
    /\ (forall k, (k < n - 1)%nat -> snd (dnf_round (dnf_iterate k node)) = true)
    /\ (snd (dnf_round (dnf_iterate (n - 1) node)) = false \/ n = 1001%nat).
Proof.
  exists (toDNF_rounds node). split; [reflexivity|].
  pose proof (toDNF_loop_rounds 1000 node) as H. cbn zeta in H.
  unfold toDNF_rounds, toDNF. exact H.
Qed.

(** A conjunction over a thousand nested disjunctions takes 1001 rounds,
    one more than a cap of 1000 rounds allows. *)
Lemma toDNF_rounds_exceed_1000 : ~ (toDNF_rounds deep_conjunction <= 1000)%nat.
Proof.
  assert (H : toDNF_rounds deep_conjunction = 1001%nat) by (vm_compute; reflexivity).
  rewrite H. lia.
Qed.

(** On a tree that is in disjunctive normal form already the single
    confirming round applies nothing. *)
Example toDNF_idempotent_example :
  let t := BinaryNode "or"
             (BinaryNode "and" (IdentifierNode "a") (IdentifierNode "b"))
             (IdentifierNode "c") in
  toDNF t = t /\ toDNF_rounds t = 1%nat.
Proof. split; reflexivity. Qed.

(** ** Code generator: the latched error *)

Section GeneratorProofs.

Variable Sprint_float : float -> string.

Local Abbreviation qbv := (qb_visitor Sprint_float).

Lemma qb_Enter_stack_err (node : Node) (q : queryBuilder) :
  qstack (qb_Enter node q) = qstack q /\ qerr (qb_Enter node q) = qerr q.
Proof.
  unfold qb_Enter. destruct (0 <? qdepth q); [now split|].
  match goal with |- context [if ?b then _ else _] => destruct b end; now split.
Qed.

Lemma qb_Exit_latched (node : Node) (q : queryBuilder) (e : string) :
  qerr q = Some e -> qb_Exit Sprint_float node q = Some q.
Proof. intros H. unfold qb_Exit. now rewrite H. Qed.

Lemma qb_Walk_latched (e : string) :
  forall node q,
    qerr q = Some e ->
    exists q', Walk qbv node (Some q) = (node, Some q')
               /\ qerr q' = Some e /\ qstack q' = qstack q.
Proof.
  assert (HX : forall node q, qerr q = Some e ->
               Exit qbv node (Some q) = (node, Some q)).
  { intros node q H. simpl. now rewrite (qb_Exit_latched node q e H). }
  assert (HN : forall node q, qerr q = Some e ->
               exists q1, Enter qbv node (Some q) = Some q1
                          /\ qerr q1 = Some e /\ qstack q1 = qstack q).
  { intros node q H. exists (qb_Enter node q).
    destruct (qb_Enter_stack_err node q) as [Hs He].
    repeat split; congruence. }
  assert (HL : forall ns,
             Forall (fun node => forall q, qerr q = Some e ->
                       exists q', Walk qbv node (Some q) = (node, Some q')
                                  /\ qerr q' = Some e /\ qstack q' = qstack q) ns ->
             forall q, qerr q = Some e ->
             exists q', WalkList qbv ns (Some q) = (ns, Some q')
                        /\ qerr q' = Some e /\ qstack q' = qstack q).
  { induction 1 as [|x r Hx _ IH]; intros q H; simpl.
    - exists q. auto.
    - destruct (Hx q H) as [q1 [E1 [He1 Hs1]]]. rewrite E1.
      destruct (IH q1 He1) as [q2 [E2 [He2 Hs2]]]. rewrite E2.
      exists q2. repeat split; congruence. }
  induction node using Node_forall_ind; intros q Hq; rewrite Walk_eq;
    match goal with |- context [Enter qbv ?n (Some q)] =>
      destruct (HN n q Hq) as [q1 [E1 [He1 Hs1]]]; rewrite E1 end;
    cbn [WalkChildren].
  all: try (rewrite (HX _ q1 He1); exists q1; auto).
  - destruct (IHnode q1 He1) as [q2 [E2 [He2 Hs2]]]. rewrite E2.
    rewrite (HX _ q2 He2). exists q2. repeat split; congruence.
  - destruct (IHnode1 q1 He1) as [q2 [E2 [He2 Hs2]]]. rewrite E2.
    destruct (IHnode2 q2 He2) as [q3 [E3 [He3 Hs3]]]. rewrite E3.
    rewrite (HX _ q3 He3). exists q3. repeat split; congruence.
  - destruct (IHnode1 q1 He1) as [q2 [E2 [He2 Hs2]]]. rewrite E2.
    destruct (IHnode2 q2 He2) as [q3 [E3 [He3 Hs3]]]. rewrite E3.
    rewrite (HX _ q3 He3). exists q3. repeat split; congruence.
  - destruct (HL args H q1 He1) as [q2 [E2 [He2 Hs2]]]. rewrite E2.
    rewrite (HX _ q2 He2). exists q2. repeat split; congruence.
  - destruct (IHnode1 q1 He1) as [q2 [E2 [He2 Hs2]]]. rewrite E2.
    destruct (IHnode2 q2 He2) as [q3 [E3 [He3 Hs3]]]. rewrite E3.
    destruct (IHnode3 q3 He3) as [q4 [E4 [He4 Hs4]]]. rewrite E4.
    rewrite (HX _ q4 He4). exists q4. repeat split; congruence.
  - destruct (HL ns H q1 He1) as [q2 [E2 [He2 Hs2]]]. rewrite E2.
    rewrite (HX _ q2 He2). exists q2. repeat split; congruence.
Qed.

(** C9.  Once the error cell holds an error, [Exit] returns the state as
    it is; the walk of any subtree keeps the error and the fragment
    stack; and [buildCriteria] returns the error its walk ended with and
    no criteria, so that [buildQuery] returns an error and no query. *)
Theorem first_error_is_latched (e : string) (q : queryBuilder) :
  qerr q = Some e ->
  (forall node, qb_Exit Sprint_float node q = Some q)
  /\ (forall node, exists q',
         Walk qbv node (Some q) = (node, Some q')
         /\ qerr q' = Some e /\ qstack q' = qstack q)
  /\ (forall tree,
         generate Sprint_float (rewriteTree tree) = Some q ->
         buildCriteriaTree Sprint_float tree = Some (Err e)
         /\ forall parser_Parse FormatFloat_f5 region filter,
             parser_Parse filter = Ok tree ->
             buildQuery Sprint_float parser_Parse FormatFloat_f5 region filter
             = Some (Err ("overpass query error: " ++ e))).
Proof.
  intros H. split; [|split].
  - intros node. now apply qb_Exit_latched with e.
  - intros node. now apply qb_Walk_latched.
  - intros tree Hg.
    assert (HB : buildCriteriaTree Sprint_float tree = Some (Err e)).
    { unfold buildCriteriaTree. rewrite Hg. simpl. now rewrite H. }
    split; [exact HB|].
    intros parser_Parse FormatFloat_f5 region filter HP.
    unfold buildQuery, buildCriteria. rewrite HP, HB. reflexivity.
Qed.

End GeneratorProofs.

(** ** The passes keep the tree in the grammar *)

Lemma WalkList_wellFormed {S : Type} (v : Visitor S) :
  forall ns,
    Forall (fun n => forall s, wellFormed n = true -> wellFormed (fst (Walk v n s)) = true) ns ->
    forall s, forallb wellFormed ns = true ->
              forallb wellFormed (fst (WalkList v ns s)) = true.
Proof.
  induction 1 as [|x r Hx _ IH]; intros s Hwf; simpl in *; [reflexivity|].
  apply andb_prop in Hwf. destruct Hwf as [Hwx Hwr].
  specialize (Hx s Hwx). destruct (Walk v x s) as [x' s1]. simpl in Hx.
  specialize (IH s1 Hwr). destruct (WalkList v r s1) as [r' s2]. simpl in *.
  now rewrite Hx, IH.
Qed.

Lemma Walk_wellFormed {S : Type} (v : Visitor S) :
  (forall n s, wellFormed n = true -> wellFormed (fst (Exit v n s)) = true) ->
  forall node s, wellFormed node = true -> wellFormed (fst (Walk v node s)) = true.
Proof.
  intros HX.
  induction node using Node_forall_ind; intros s Hwf; rewrite Walk_eq;
    cbn [WalkChildren]; simpl in Hwf.
  1-6: now apply HX.
  - specialize (IHnode (Enter v (UnaryNode op node) s) Hwf).
    destruct (Walk v node _) as [n' s1]. now apply HX.
  - apply andb_prop in Hwf. destruct Hwf as [H1 H2].
    specialize (IHnode1 (Enter v (BinaryNode op node1 node2) s) H1).
    destruct (Walk v node1 _) as [l' s1].
    specialize (IHnode2 s1 H2). destruct (Walk v node2 _) as [r' s2].
    apply HX. simpl in *. now rewrite IHnode1, IHnode2.
  - apply andb_prop in Hwf. destruct Hwf as [H1 H2].
    specialize (IHnode1 (Enter v (MatchesNode node1 node2) s) H1).
    destruct (Walk v node1 _) as [l' s1].
    specialize (IHnode2 s1 H2). destruct (Walk v node2 _) as [r' s2].
    apply HX. simpl in *. now rewrite IHnode1, IHnode2.
  - pose proof (WalkList_wellFormed v args H (Enter v (FunctionNode name args) s) Hwf) as HL.
    destruct (WalkList v args _) as [a' s1]. now apply HX.
  - apply andb_prop in Hwf. destruct Hwf as [H12 H3].
    apply andb_prop in H12. destruct H12 as [H1 H2].
    specialize (IHnode1 (Enter v (ConditionalNode node1 node2 node3) s) H1).
    destruct (Walk v node1 _) as [c' s1].
    specialize (IHnode2 s1 H2). destruct (Walk v node2 _) as [a' s2].
    specialize (IHnode3 s2 H3). destruct (Walk v node3 _) as [b' s3].
    apply HX. simpl in *. now rewrite IHnode1, IHnode2, IHnode3.
  - pose proof (WalkList_wellFormed v ns H (Enter v (ArrayNode ns) s) Hwf) as HL.
    destruct (WalkList v ns _) as [a' s1]. now apply HX.
Qed.

Lemma asBinaryIn_Some (node : Node) (op : string) (l r : Node) :
  asBinaryIn node = Some (op, l, r) -> node = BinaryNode op l r.
Proof.
  destruct node; simpl; try discriminate.
  destruct (String.eqb Operator "in" || String.eqb Operator "not in"); [|discriminate].
  now intros [= <- <- <-].
Qed.

Lemma wrapNotIn_wellFormed (op : string) (node : Node) :
  wellFormed (wrapNotIn op node) = wellFormed node.
Proof. unfold wrapNotIn. now destruct (String.eqb op "not in"). Qed.

Lemma expandInArray_loop_wellFormed (lhs : Node) :
  wellFormed lhs = true ->
  forall nodes i node,
    forallb wellFormed nodes = true -> wellFormed node = true ->
    wellFormed (expandInArray_loop lhs i nodes node) = true.
Proof.
  intros Hl. induction nodes as [|n r IH]; intros i node Hns Hn; simpl in *; [exact Hn|].
  apply andb_prop in Hns. destruct Hns as [Hwn Hwr].
  apply IH; [exact Hwr|]. destruct (i =? 0)%nat; simpl; now rewrite ?Hl, ?Hwn, ?Hn.
Qed.

Lemma expandInArray_Exit_wellFormed (node : Node) :
  wellFormed node = true -> wellFormed (expandInArray_Exit node) = true.
Proof.
  intros Hwf. unfold expandInArray_Exit.
  destruct (asBinaryIn node) as [[[op l] r]|] eqn:Hin; [|exact Hwf].
  apply asBinaryIn_Some in Hin. subst node. simpl in Hwf.
  apply andb_prop in Hwf. destruct Hwf as [Hl Hr].
  destruct r; simpl; try (now rewrite Hl, ?Hr).
  rewrite wrapNotIn_wellFormed. destruct (List.length Nodes =? 0)%nat; [reflexivity|].
  apply expandInArray_loop_wellFormed; auto. simpl. now rewrite Hl.
Qed.

Lemma expandInRange_Exit_wellFormed (node : Node) :
  wellFormed node = true -> wellFormed (expandInRange_Exit node) = true.
Proof.
  intros Hwf. unfold expandInRange_Exit.
  destruct (asBinaryIn node) as [[[op l] r]|] eqn:Hin; [|exact Hwf].
  apply asBinaryIn_Some in Hin. subst node. simpl in Hwf.
  apply andb_prop in Hwf. destruct Hwf as [Hl Hr].
  destruct r; simpl; try (now rewrite Hl, ?Hr).
  simpl in Hr. apply andb_prop in Hr. destruct Hr as [Hlo Hhi].
  destruct (String.eqb Operator ".."); [|simpl; now rewrite Hl, Hlo, Hhi].
  rewrite wrapNotIn_wellFormed.
  destruct (any_eqb (getValue r1) (getValue r2)); simpl; now rewrite Hl, Hlo, ?Hhi.
Qed.

Lemma dnf_Exit_wellFormed (node : Node) (f : dnf) :
  wellFormed node = true -> wellFormed (fst (dnf_Exit node f)) = true.
Proof.
  intros Hwf. unfold dnf_Exit. destruct (0 <? dnf_depth f); [exact Hwf|].
  destruct (asBinaryAnd node) as [[[a l] r]|] eqn:Ha; [|exact Hwf].
  apply asBinaryAnd_Some in Ha. destruct Ha as [-> _]. simpl in Hwf.
  apply andb_prop in Hwf. destruct Hwf as [Hl Hr].
  destruct (asBinaryOr l) as [[[o b] c]|] eqn:Ho.
  - apply asBinaryOr_Some in Ho. destruct Ho as [-> _]. simpl in *.
    apply andb_prop in Hl. destruct Hl as [Hb Hc]. now rewrite Hb, Hc, Hr.
  - destruct (asBinaryOr r) as [[[o b] c]|] eqn:Ho2.
    + apply asBinaryOr_Some in Ho2. destruct Ho2 as [-> _]. simpl in *.
      apply andb_prop in Hr. destruct Hr as [Hb Hc]. now rewrite Hb, Hc, Hl.
    + simpl. now rewrite Hl, Hr.
Qed.

Lemma toDNF_loop_wellFormed :
  forall limit node, wellFormed node = true -> wellFormed (toDNF_loop limit node) = true.
Proof.
  induction limit as [|limit IH]; intros node Hwf; simpl;
    unfold dnf_round;
    pose proof (Walk_wellFormed dnf_visitor dnf_Exit_wellFormed node (mk_dnf 0 false) Hwf) as H;
    destruct (Walk dnf_visitor node (mk_dnf 0 false)) as [node' f]; simpl in H;
    destruct (negb (dnf_applied f)); auto.
Qed.

Lemma Enter_wellFormed (w : Node -> option Node) (node n1 : Node) :
  (forall x y, w x = Some y -> wellFormed x = true -> wellFormed y = true) ->
  distributeAndFoldNot_Enter w node = Some n1 ->
  wellFormed node = true -> wellFormed n1 = true.
Proof.
  intros Hw. unfold distributeAndFoldNot_Enter.
  destruct (asUnaryNot node) as [[unop operand]|] eqn:Hn; [|now intros [= <-]].
  destruct node; simpl in Hn; try discriminate.
  destruct (String.eqb Operator "not" || String.eqb Operator "!"); [|discriminate].
  injection Hn as <- <-.
  destruct node; try (now intros [= <-]).
  - simpl. destruct (String.eqb Operator0 "not" || String.eqb Operator0 "!").
    + intros Hy Hwf. now apply (Hw _ _ Hy).
    + now intros [= <-].
  - destruct (map_lookup operatorPairs Operator0);
      [destruct (isLogical Operator0)|]; now intros [= <-].
Qed.

Lemma omap_list_wellFormed (w : Node -> option Node) :
  (forall x y, w x = Some y -> wellFormed x = true -> wellFormed y = true) ->
  forall ns ns', omap_list w ns = Some ns' ->
                 forallb wellFormed ns = true -> forallb wellFormed ns' = true.
Proof.
  intros Hw. induction ns as [|x r IH]; intros ns' H Hwf; simpl in *.
  - now injection H as <-.
  - apply andb_prop in Hwf. destruct Hwf as [Hx Hr].
    destruct (w x) as [y|] eqn:Hy; simpl in H; [|discriminate].
    destruct (omap_list w r) as [r'|] eqn:Hr'; simpl in H; [|discriminate].
    injection H as <-. simpl. now rewrite (Hw _ _ Hy Hx), (IH _ eq_refl Hr).
Qed.

Lemma WalkNot_wellFormed :
  forall f node node', WalkNot f node = Some node' ->
                       wellFormed node = true -> wellFormed node' = true.
Proof.
  induction f as [|f IH]; intros node node' H Hwf; [discriminate|].
  simpl in H.
  destruct (distributeAndFoldNot_Enter (WalkNot f) node) as [n1|] eqn:HE;
    simpl in H; [|discriminate].
  pose proof (Enter_wellFormed _ _ _ IH HE Hwf) as Hw1. clear HE Hwf.
  destruct n1; try (now injection H as <-); simpl in Hw1;
    repeat match type of H with
      | context [WalkNot f ?x] =>
          let E := fresh "E" in
          destruct (WalkNot f x) eqn:E; simpl in H; [|discriminate]
      | context [omap_list (WalkNot f) ?x] =>
          let E := fresh "E" in
          destruct (omap_list (WalkNot f) x) eqn:E; simpl in H; [|discriminate]
      end; injection H as <-; simpl.
  - eauto.
  - apply andb_prop in Hw1. destruct Hw1. now rewrite (IH _ _ E), (IH _ _ E0).
  - apply andb_prop in Hw1. destruct Hw1. now rewrite (IH _ _ E), (IH _ _ E0).
  - now apply (omap_list_wellFormed _ IH _ _ E).
  - apply andb_prop in Hw1. destruct Hw1 as [H12 H3].
    apply andb_prop in H12. destruct H12.
    now rewrite (IH _ _ E), (IH _ _ E0), (IH _ _ E1).
  - now apply (omap_list_wellFormed _ IH _ _ E).
Qed.

Lemma rewriteTree_wellFormed (tree : Node) :
  wellFormed tree = true -> wellFormed (rewriteTree tree) = true.
Proof.
  intros Hwf. unfold rewriteTree, toDNF.
  apply toDNF_loop_wellFormed.
  unfold distributeAndFoldNot_Walk.
  set (t2 := fst (Walk expandInRange (fst (Walk expandInArray tree tt)) tt)).
  assert (H2 : wellFormed t2 = true).
  { apply Walk_wellFormed; [intros n s; apply expandInRange_Exit_wellFormed|].
    apply Walk_wellFormed; [intros n s; apply expandInArray_Exit_wellFormed|exact Hwf]. }
  destruct (WalkNot (S (weight t2)) t2) as [t3|] eqn:H3; [|exact H2].
  now apply (WalkNot_wellFormed _ _ _ H3).
Qed.

(** ** Code generator: no index out of range *)

Lemma append_nonempty_l (a b : string) : a <> EmptyString -> a ++ b <> EmptyString.
Proof. destruct a; [congruence|discriminate]. Qed.

Lemma append_nonempty_r (a b : string) : b <> EmptyString -> a ++ b <> EmptyString.
Proof. destruct a; [auto|discriminate]. Qed.

Lemma String_nonempty (c : ascii) (s : string) : String c s <> EmptyString.
Proof. discriminate. Qed.

Lemma bangIf_nonempty (s : string) (b : bool) : s <> EmptyString -> bangIf s b <> EmptyString.
Proof. destruct b; simpl; [discriminate|auto]. Qed.

Lemma Quote_nonempty (s : string) : Quote s <> EmptyString.
Proof. discriminate. Qed.

Lemma Sprint_int_nonempty (z : Z) : Sprint_int z <> EmptyString.
Proof.
  unfold Sprint_int. destruct (Z.to_int z) as [d|d]; simpl; [|discriminate].
  unfold NilZero.string_of_uint. destruct d; discriminate.
Qed.

Lemma first_byte_nonempty (s : string) :
  s <> EmptyString -> exists c, first_byte s = Some c.
Proof. destruct s; [congruence|simpl; eauto]. Qed.

Lemma isWrapped_nonempty (s : string) :
  s <> EmptyString -> exists b, isWrapped s = Some b.
Proof. destruct s; [congruence|]. unfold isWrapped. simpl. eauto. Qed.

Lemma split_first_nonempty (s : string) :
  s <> EmptyString -> exists a b, split_first s = Some (a, b).
Proof. destruct s; [congruence|simpl; eauto]. Qed.

Lemma split_last_nonempty (s : string) :
  s <> EmptyString -> exists a b, split_last s = Some (a, b).
Proof.
  destruct s as [|c r]; [congruence|]. intros _. simpl.
  destruct (split_last r) as [[i l]|]; eauto.
Qed.

Create HintDb nonempty.
#[local] Hint Resolve append_nonempty_l append_nonempty_r String_nonempty bangIf_nonempty
  Quote_nonempty Sprint_int_nonempty : nonempty.

Ltac nonempty :=
  solve [ auto 8 with nonempty
        | simpl; discriminate
        | simpl; auto 8 with nonempty ].

Ltac push_done :=
  unfold push, set_err; cbn [qstack qerr List.length];
  split; [|split];
  [ repeat (constructor; [nonempty|]); assumption
  | try reflexivity; try assumption
  | lia ].

Ltac exit_done :=
  eexists; (split; [reflexivity|]);
  let H := fresh in
  intros H; unfold push, set_err in *; cbn [qstack qerr List.length] in *;
  try discriminate H;
  (split; [ repeat (constructor; [nonempty|]); assumption | lia ]).

Lemma pop_ok (q : queryBuilder) (base : nat) :
  NonEmptyFragments (qstack q) -> (S base <= List.length (qstack q))%nat ->
  exists str q', pop q = Some (str, q')
                 /\ str <> EmptyString
                 /\ NonEmptyFragments (qstack q')
                 /\ qerr q' = qerr q
                 /\ (base <= List.length (qstack q'))%nat.
Proof.
  unfold pop. destruct (qstack q) as [|s r]; simpl; intros HN Hl; [lia|].
  inversion HN; subst. exists s. eexists. split; [reflexivity|]. simpl.
  repeat split; auto. lia.
Qed.

Section GeneratorSafety.

Variable Sprint_float : float -> string.
Local Abbreviation qbv := (qb_visitor Sprint_float).
Hypothesis Sprint_float_nonempty : forall f, Sprint_float f <> EmptyString.

Lemma qb_Exit_binary_ok (op : string) (l r : Node) (root not : bool)
      (lhs rhs : string) (q : queryBuilder) :
  lhs <> EmptyString -> rhs <> EmptyString -> NonEmptyFragments (qstack q) ->
  exists q', qb_Exit_binary op l r root not lhs rhs q = Some q'
             /\ NonEmptyFragments (qstack q')
             /\ qerr q' = qerr q
             /\ (S (List.length (qstack q)) <= List.length (qstack q'))%nat.
Proof.
  intros Hl Hr Hq.
  destruct (isWrapped_nonempty lhs Hl) as [wl Hwl].
  destruct (isWrapped_nonempty rhs Hr) as [wr Hwr].
  destruct (first_byte_nonempty lhs Hl) as [cl Hcl].
  destruct (split_first_nonempty rhs Hr) as [h1 [t1 Hsf]].
  destruct (split_last_nonempty rhs Hr) as [i1 [l1 Hsl]].
  unfold qb_Exit_binary. rewrite Hwl, Hwr, Hcl, Hsf, Hsl.
  repeat match goal with
    | |- context [if ?b then _ else _] => destruct b; cbn [obind negb andb orb]
    end.
  all: eexists; (split; [reflexivity|]); push_done.
Qed.

Lemma Join_empty_app (a b : list string) :
  Join_empty (a ++ b) = Join_empty a ++ Join_empty b.
Proof.
  induction a as [|x r IH]; simpl; [reflexivity|].
  unfold Join_empty in *. simpl. rewrite IH.
  clear. induction x; simpl; congruence.
Qed.

Lemma pop_arguments_ok (base : nat) :
  forall args parts q,
    NonEmptyFragments (qstack q) ->
    (base + List.length args <= List.length (qstack q))%nat ->
    exists parts' q',
      pop_arguments args parts q = Some (parts', q')
      /\ NonEmptyFragments (qstack q')
      /\ qerr q' = qerr q
      /\ (base <= List.length (qstack q'))%nat.
Proof.
  induction args as [|a r IH]; intros parts q HN Hl; simpl in *.
  - exists parts, q. repeat split; auto. lia.
  - destruct (pop_ok q (base + List.length r) HN) as [s [q1 [Hp [_ [HN1 [He1 Hl1]]]]]];
      [lia|].
    rewrite Hp. simpl.
    destruct (IH (parts ++ [s])%list q1 HN1 Hl1) as [p' [q' [Hpa [HN' [He' Hl']]]]].
    exists p', q'. repeat split; auto. congruence.
Qed.

Lemma qb_Exit_ok (node : Node) (q : queryBuilder) (base : nat) :
  (forall v, node = IdentifierNode v -> v <> EmptyString) ->
  qerr q = None ->
  NonEmptyFragments (qstack q) ->
  (base + arity node <= List.length (qstack q))%nat ->
  exists q', qb_Exit Sprint_float node q = Some q'
             /\ (qerr q' = None ->
                 NonEmptyFragments (qstack q') /\ (S base <= List.length (qstack q'))%nat).
Proof.
  intros Hwf Herr HN Hlen. unfold qb_Exit. rewrite Herr.
  set (depth := if 0 <? qdepth q then qdepth q - 1 else qdepth q).
  set (root := depth =? 0).
  set (nn := match qnot q with
             | b :: rest => if root then (b, rest) else (false, qnot q)
             | [] => (false, [])
             end).
  destruct nn as [not nots]. clearbody root depth.
  set (q0 := mk_qb (qstack q) nots depth None).
  assert (HN0 : NonEmptyFragments (qstack q0)) by exact HN.
  assert (Hl0 : List.length (qstack q0) = List.length (qstack q)) by reflexivity.
  assert (He0 : qerr q0 = None) by reflexivity.
  clearbody q0.
  destruct node; cbn [arity] in Hlen.
  - exit_done.
  - assert (Hv : Value <> EmptyString) by (now apply Hwf).
    assert (Hname : (if needsQuote Value then Quote Value else Value) <> EmptyString)
      by (destruct (needsQuote Value); [apply Quote_nonempty|exact Hv]).
    destruct (negb root), not; exit_done.
  - destruct not; exit_done.
  - destruct not; exit_done.
  - destruct (negb (Bool.eqb Value not)), not; exit_done.
  - destruct not; exit_done.
  - cbn match.
    match goal with |- context [if ?b then _ else _] => destruct b end.
    + destruct (pop_ok q0 base HN0) as [s [q1 [Hp [Hs [HN1 [He1 Hl1]]]]]]; [lia|].
      rewrite Hp. cbn [obind]. exit_done.
    + exit_done.
  - cbn match.
    destruct (pop_ok q0 (S base) HN0) as [rhs [q1 [Hp [Hr [HN1 [He1 Hl1]]]]]]; [lia|].
    rewrite Hp. cbn [obind].
    destruct (pop_ok q1 base HN1) as [lhs [q2 [Hp2 [Hl [HN2 [He2 Hl2]]]]]]; [lia|].
    rewrite Hp2. cbn [obind].
    destruct (qb_Exit_binary_ok Operator node1 node2 root not lhs rhs q2 Hl Hr HN2)
      as [q' [HX [HN' [He' Hl']]]].
    exists q'. split; [exact HX|]. intros _. split; [exact HN'|lia].
  - cbn match.
    destruct (pop_ok q0 (S base) HN0) as [rhs [q1 [Hp [Hr [HN1 [He1 Hl1]]]]]]; [lia|].
    rewrite Hp. cbn [obind].
    destruct (pop_ok q1 base HN1) as [lhs [q2 [Hp2 [Hl [HN2 [He2 Hl2]]]]]]; [lia|].
    rewrite Hp2. cbn [obind].
    destruct root; exit_done.
  - cbn match.
    match goal with |- context [if ?b then _ else _] => destruct b eqn:Hb end.
    + apply andb_prop in Hb. destruct Hb as [_ Hb]. apply Nat.eqb_eq in Hb.
      destruct (pop_ok q0 base HN0) as [s [q1 [Hp [Hs [HN1 [He1 Hl1]]]]]]; [lia|].
      rewrite Hp. cbn [obind]. exit_done.
    + destruct (pop_arguments_ok base Arguments [bangIf Name not; "("] q0 HN0)
        as [parts [q1 [Hp [HN1 [He1 Hl1]]]]]; [lia|].
      rewrite Hp. cbn [obind].
      eexists; split; [reflexivity|]. intros _. unfold push. cbn [qstack List.length].
      split; [|lia]. constructor; [|exact HN1].
      rewrite Join_empty_app. apply append_nonempty_r. discriminate.
  - cbn match.
    destruct (pop_ok q0 (S (S base)) HN0) as [e2 [q1 [Hp [Hr [HN1 [He1 Hl1]]]]]]; [lia|].
    rewrite Hp. cbn [obind].
    destruct (pop_ok q1 (S base) HN1) as [e1 [q2 [Hp2 [Hl [HN2 [He2 Hl2]]]]]]; [lia|].
    rewrite Hp2. cbn [obind].
    destruct (pop_ok q2 base HN2) as [c [q3 [Hp3 [Hc [HN3 [He3 Hl3]]]]]]; [lia|].
    rewrite Hp3. cbn [obind]. exit_done.
  - exit_done.
Qed.

Lemma Grow_refl (q : queryBuilder) :
  (qerr q = None -> NonEmptyFragments (qstack q)) -> Grow 0 q q.
Proof. intros H He. repeat split; auto. lia. Qed.

Lemma Grow_trans (a b : nat) (q q1 q2 : queryBuilder) :
  Grow a q q1 -> Grow b q1 q2 -> Grow (a + b) q q2.
Proof.
  intros H1 H2 He. destruct (H2 He) as [He1 [HN2 Hl2]].
  destruct (H1 He1) as [He0 [HN1 Hl1]]. repeat split; auto. lia.
Qed.

Lemma Grow_Enter (k : nat) (node : Node) (q q' : queryBuilder) :
  Grow k (qb_Enter node q) q' -> Grow k q q'.
Proof.
  destruct (qb_Enter_stack_err node q) as [Hs He]. unfold Grow.
  now rewrite Hs, He.
Qed.

Lemma qb_Exit_Grow (node : Node) (q q2 : queryBuilder) :
  (forall v, node = IdentifierNode v -> v <> EmptyString) ->
  Grow (arity node) q q2 ->
  exists q', qb_Exit Sprint_float node q2 = Some q' /\ Grow 1 q q'.
Proof.
  intros Hwf HG. destruct (qerr q2) as [e|] eqn:He.
  - exists q2. split; [now apply qb_Exit_latched with e|].
    intros H. congruence.
  - destruct (HG He) as [He0 [HN Hl]].
    destruct (qb_Exit_ok node q2 (List.length (qstack q)) Hwf He HN Hl) as [q' [HX Hq']].
    exists q'. split; [exact HX|]. intros H. destruct (Hq' H) as [HN' Hl'].
    repeat split; auto. lia.
Qed.

Lemma Grow_Inv (k : nat) (q q' : queryBuilder) :
  Grow k q q' -> qerr q' = None -> NonEmptyFragments (qstack q').
Proof. intros H He. now destruct (H He) as [_ [HN _]]. Qed.

Lemma WalkList_ok :
  forall ns, Forall (WalkOk Sprint_float) ns -> forallb wellFormed ns = true ->
  forall q, (qerr q = None -> NonEmptyFragments (qstack q)) ->
  exists q', WalkList qbv ns (Some q) = (ns, Some q') /\ Grow (List.length ns) q q'.
Proof.
  induction 1 as [|x r Hx _ IH]; intros Hwf q Hq; simpl in *.
  - exists q. split; [reflexivity|]. now apply Grow_refl.
  - apply andb_prop in Hwf. destruct Hwf as [Hwx Hwr].
    destruct (Hx Hwx q Hq) as [q1 [E1 G1]]. rewrite E1.
    destruct (IH Hwr q1 (Grow_Inv _ _ _ G1)) as [q2 [E2 G2]]. rewrite E2.
    exists q2. split; [reflexivity|].
    change (S (List.length r)) with (1 + List.length r)%nat.
    now apply Grow_trans with q1.
Qed.

Lemma Walk_ok : forall node, WalkOk Sprint_float node.
Proof.
  assert (HE : forall node q, Enter qbv node (Some q) = Some (qb_Enter node q))
    by reflexivity.
  assert (HI : forall node q, (qerr q = None -> NonEmptyFragments (qstack q)) ->
               (qerr (qb_Enter node q) = None ->
                NonEmptyFragments (qstack (qb_Enter node q)))).
  { intros node q Hq. destruct (qb_Enter_stack_err node q) as [Hs He].
    now rewrite Hs, He. }
  assert (HX : forall node q q2,
             (forall v, node = IdentifierNode v -> v <> EmptyString) ->
             Grow (arity node) (qb_Enter node q) q2 ->
             exists q', Exit qbv node (Some q2) = (node, Some q') /\ Grow 1 q q').
  { intros node q q2 Hwf HG. apply Grow_Enter in HG.
    destruct (qb_Exit_Grow node q q2 Hwf HG) as [q' [HXq HG']].
    exists q'. split; [|exact HG']. simpl. now rewrite HXq. }
  induction node using Node_forall_ind; intros Hwf q Hq; rewrite Walk_eq, HE;
    cbn [WalkChildren]; simpl in Hwf.
  - apply HX; [discriminate|]. now apply Grow_refl, HI.
  - apply HX; [|now apply Grow_refl, HI].
    intros v0 [= <-]. destruct v; [discriminate|discriminate].
  - apply HX; [discriminate|]. now apply Grow_refl, HI.
  - apply HX; [discriminate|]. now apply Grow_refl, HI.
  - apply HX; [discriminate|]. now apply Grow_refl, HI.
  - apply HX; [discriminate|]. now apply Grow_refl, HI.
  - destruct (IHnode Hwf _ (HI (UnaryNode op node) q Hq)) as [q1 [E1 G1]]. rewrite E1.
    apply HX; [discriminate|exact G1].
  - apply andb_prop in Hwf. destruct Hwf as [Hw1 Hw2].
    destruct (IHnode1 Hw1 _ (HI (BinaryNode op node1 node2) q Hq)) as [q1 [E1 G1]].
    rewrite E1.
    destruct (IHnode2 Hw2 q1 (Grow_Inv _ _ _ G1)) as [q2 [E2 G2]]. rewrite E2.
    apply HX; [discriminate|]. apply (Grow_trans 1 1 _ q1); assumption.
  - apply andb_prop in Hwf. destruct Hwf as [Hw1 Hw2].
    destruct (IHnode1 Hw1 _ (HI (MatchesNode node1 node2) q Hq)) as [q1 [E1 G1]].
    rewrite E1.
    destruct (IHnode2 Hw2 q1 (Grow_Inv _ _ _ G1)) as [q2 [E2 G2]]. rewrite E2.
    apply HX; [discriminate|]. apply (Grow_trans 1 1 _ q1); assumption.
  - destruct (WalkList_ok args H Hwf _ (HI (FunctionNode name args) q Hq))
      as [q1 [E1 G1]].
    rewrite E1. apply HX; [discriminate|exact G1].
  - apply andb_prop in Hwf. destruct Hwf as [Hw12 Hw3].
    apply andb_prop in Hw12. destruct Hw12 as [Hw1 Hw2].
    destruct (IHnode1 Hw1 _ (HI (ConditionalNode node1 node2 node3) q Hq))
      as [q1 [E1 G1]].
    rewrite E1.
    destruct (IHnode2 Hw2 q1 (Grow_Inv _ _ _ G1)) as [q2 [E2 G2]]. rewrite E2.
    destruct (IHnode3 Hw3 q2 (Grow_Inv _ _ _ G2)) as [q3 [E3 G3]]. rewrite E3.
    apply HX; [discriminate|].
    apply (Grow_trans 2 1 _ q2); [|assumption].
    apply (Grow_trans 1 1 _ q1); assumption.
  - destruct (WalkList_ok ns H Hwf _ (HI (ArrayNode ns) q Hq)) as [q1 [E1 G1]].
    rewrite E1. apply HX; [discriminate|].
    intros He. destruct (G1 He) as [He0 [HN Hl]]. repeat split; auto.
    simpl. lia.
Qed.
End GeneratorSafety.

Lemma wrapCriteria_ok :
  forall crits, NonEmptyFragments crits -> exists l, wrapCriteria crits = Some l.
Proof.
  induction 1 as [|c r Hc _ [l IH]]; simpl; [eauto|].
  destruct (isWrapped_nonempty c Hc) as [w Hw]. rewrite Hw, IH. simpl. eauto.
Qed.

(** C10.  For a tree of the filter grammar the generator's walk returns a
    state, before and after the rewrite passes: no [pop] finds the stack
    empty, no fragment is indexed while empty, the negation stack is only
    popped when it holds a flag.  [buildCriteria] then returns a criteria
    list or an error. *)
Theorem generator_walk_is_total (Sprint_float : float -> string) (tree : Node) :
  (forall f, Sprint_float f <> EmptyString) ->
  wellFormed tree = true ->
  (exists q, generate Sprint_float tree = Some q)
  /\ (exists q, generate Sprint_float (rewriteTree tree) = Some q)
  /\ ((exists crits, buildCriteriaTree Sprint_float tree = Some (Ok crits))
      \/ (exists e, buildCriteriaTree Sprint_float tree = Some (Err e))).
Proof.
  intros Hsf Hwf.
  assert (HG : forall t, wellFormed t = true ->
               exists q, generate Sprint_float t = Some q
                         /\ (qerr q = None -> NonEmptyFragments (qstack q))).
  { intros t Ht.
    destruct (Walk_ok Sprint_float Hsf t Ht (mk_qb [] [] 0 None)) as [q [HW HGrow]].
    - intros _. constructor.
    - exists q. unfold generate. rewrite HW. split; [reflexivity|].
      intros He. now destruct (HGrow He) as [_ [HN _]]. }
  split; [|split].
  - destruct (HG tree Hwf) as [q [Hq _]]. eauto.
  - destruct (HG _ (rewriteTree_wellFormed tree Hwf)) as [q [Hq _]]. eauto.
  - destruct (HG _ (rewriteTree_wellFormed tree Hwf)) as [q [Hq HN]].
    unfold buildCriteriaTree. rewrite Hq. simpl.
    destruct (qerr q) as [e|]; [right; eauto|].
    destruct (wrapCriteria_ok (rev (qstack q))) as [l Hl].
    { apply Forall_rev. now apply HN. }
    rewrite Hl. left. simpl. eauto.
Qed.

Lemma generator_walk_is_total_witness :
  (exists q, generate Sprint_float_fixed highway_tree = Some q)
  /\ (exists q, generate Sprint_float_fixed (rewriteTree highway_tree) = Some q)
  /\ ((exists crits, buildCriteriaTree Sprint_float_fixed highway_tree = Some (Ok crits))
      \/ (exists e, buildCriteriaTree Sprint_float_fixed highway_tree = Some (Err e))).
Proof.
  apply (generator_walk_is_total Sprint_float_fixed highway_tree).
  - intros f. discriminate.
  - reflexivity.
Defined.

(** An identifier without a name is outside the grammar, and the comparison
    case indexes its empty fragment. *)
Example empty_identifier_panics :
  forall Sprint_float,
    buildCriteriaTree Sprint_float (BinaryNode "<" (IdentifierNode EmptyString) (IntegerNode 1))
    = None.
Proof. reflexivity. Qed.

Lemma first_error_is_latched_witness :
  (forall node, qb_Exit Sprint_float_fixed node latched_state = Some latched_state)
  /\ (forall node, exists q',
         Walk (qb_visitor Sprint_float_fixed) node (Some latched_state) = (node, Some q')
         /\ qerr q' = Some "array not supported" /\ qstack q' = qstack latched_state)
  /\ (forall tree,
         generate Sprint_float_fixed (rewriteTree tree) = Some latched_state ->
         buildCriteriaTree Sprint_float_fixed tree = Some (Err "array not supported")
         /\ forall parser_Parse FormatFloat_f5 region filter,
             parser_Parse filter = Ok tree ->
             buildQuery Sprint_float_fixed parser_Parse FormatFloat_f5 region filter
             = Some (Err ("overpass query error: " ++ "array not supported"))).
Proof.
  apply (first_error_is_latched Sprint_float_fixed "array not supported" latched_state).
  reflexivity.
Defined.

(** The first error wins: the array is rejected when its [Exit] runs, and
    the negated integer met afterwards does not replace that error. *)
Example first_error_wins_example :
  forall Sprint_float,
    buildCriteriaTree Sprint_float
      (BinaryNode "and" (ArrayNode [IdentifierNode "a"]) (UnaryNode "not" (IntegerNode 1)))
    = Some (Err "array not supported").
Proof. reflexivity. Qed.

(** ** Query assembler *)

Lemma rev_str_app (a b : string) : rev_str (a ++ b) = rev_str b ++ rev_str a.
Proof.
  induction a as [|c a IH]; simpl.
  - clear. induction (rev_str b); simpl; congruence.
  - rewrite IH. clear.
    induction (rev_str b) as [|x r IH]; simpl; [reflexivity|]. now rewrite IH.
Qed.

Lemma rev_str_involutive (s : string) : rev_str (rev_str s) = s.
Proof.
  induction s as [|c s IH]; simpl; [reflexivity|].
  rewrite rev_str_app. simpl. now rewrite IH.
Qed.

Lemma rev_str_zeros (n : nat) : rev_str (zeros n) = zeros n.
Proof.
  induction n as [|n IH]; simpl; [reflexivity|]. rewrite IH.
  clear. induction n as [|n IH]; simpl; [reflexivity|]. now rewrite IH.
Qed.

Lemma first_byte_rev_str (s : string) : first_byte (rev_str s) = last_byte s.
Proof.
  induction s as [|c s IH]; simpl; [reflexivity|].
  destruct s as [|d s]; [reflexivity|].
  rewrite <- IH. simpl. destruct (rev_str s); reflexivity.
Qed.

Lemma TrimLeft_zeros (n : nat) (s : string) :
  TrimLeft (zeros n ++ s) "0" = TrimLeft s "0".
Proof. induction n as [|n IH]; simpl; [reflexivity|exact IH]. Qed.

Lemma TrimLeft_stops (s : string) (c : ascii) :
  first_byte s <> Some c -> TrimLeft s (String c EmptyString) = s.
Proof.
  destruct s as [|d s]; simpl; [reflexivity|]. intros H.
  unfold byte_eqb. destruct (Ascii.eqb_spec d c); [congruence|reflexivity].
Qed.

Lemma append_assoc (a b c : string) : (a ++ b) ++ c = a ++ b ++ c.
Proof. induction a; simpl; congruence. Qed.

Lemma append_nil_r (s : string) : s ++ EmptyString = s.
Proof. induction s; simpl; congruence. Qed.

Lemma TrimRight_zeros (s : string) (z : nat) :
  TrimRight (s ++ zeros z) "0" = TrimRight s "0".
Proof.
  unfold TrimRight. now rewrite rev_str_app, rev_str_zeros, TrimLeft_zeros.
Qed.

Lemma TrimRight_stops (s : string) (c : ascii) :
  last_byte s <> Some c -> TrimRight s (String c EmptyString) = s.
Proof.
  intros H. unfold TrimRight.
  rewrite TrimLeft_stops by (now rewrite first_byte_rev_str).
  apply rev_str_involutive.
Qed.

Lemma TrimRight_last (s : string) (c : ascii) :
  TrimRight (s ++ String c EmptyString) (String c EmptyString)
  = TrimRight s (String c EmptyString).
Proof.
  unfold TrimRight. rewrite rev_str_app. simpl.
  unfold byte_eqb. now rewrite Ascii.eqb_refl.
Qed.

Lemma last_byte_app (a : string) (c : ascii) (b : string) :
  last_byte (a ++ String c b) = last_byte (String c b).
Proof.
  induction a as [|x a IH]; [reflexivity|].
  simpl append. simpl last_byte at 1. rewrite IH.
  destruct (a ++ String c b) eqn:E; [|reflexivity].
  destruct a; discriminate.
Qed.

(** [conv.FormatFloat] on a fixed-point decimal: the trailing zeros of the
    fraction go, and the point with them when nothing is left of it. *)
Lemma FormatFloat_minimal (FormatFloat_f5 : float -> string)
      (v : float) (ip frac : string) (z : nat) :
  FormatFloat_f5 v = ip ++ "." ++ frac ++ zeros z ->
  last_byte ip <> Some "."%char ->
  last_byte frac <> Some "0"%char ->
  last_byte frac <> Some "."%char ->
  FormatFloat FormatFloat_f5 v = minimalDecimal ip frac.
Proof.
  intros Hv Hip Hf0 Hfd. unfold FormatFloat. rewrite Hv.
  replace (ip ++ "." ++ frac ++ zeros z) with ((ip ++ "." ++ frac) ++ zeros z)
    by (now rewrite !append_assoc).
  rewrite TrimRight_zeros.
  destruct frac as [|c frac].
  - rewrite append_nil_r.
    rewrite (TrimRight_stops (ip ++ ".") "0").
    + rewrite TrimRight_last. now apply TrimRight_stops.
    + rewrite last_byte_app. discriminate.
  - change (ip ++ "." ++ String c frac) with (ip ++ String "." (String c frac)).
    assert (HL : last_byte (ip ++ String "." (String c frac)) = last_byte (String c frac)).
    { rewrite last_byte_app. reflexivity. }
    rewrite (TrimRight_stops _ "0") by (now rewrite HL).
    rewrite (TrimRight_stops _ ".") by (now rewrite HL).
    reflexivity.
Qed.

Lemma concat_Join_empty (l : list string) :
  String.concat EmptyString l = Join_empty l.
Proof.
  induction l as [|x r IH]; [reflexivity|].
  simpl. destruct r as [|y r]; [simpl; now rewrite append_nil_r|].
  now rewrite IH.
Qed.

Lemma Join_empty_appendCriteria (prefix : string) :
  forall crits parts,
    Join_empty (appendCriteria parts prefix crits)
    = Join_empty parts
      ++ String.concat EmptyString (map (fun crit => prefix ++ crit ++ ";") crits).
Proof.
  induction crits as [|c r IH]; intros parts; simpl appendCriteria.
  - simpl. now rewrite append_nil_r.
  - rewrite IH, Join_empty_app. rewrite !concat_Join_empty. simpl map.
    cbn [Join_empty fold_right]. rewrite !append_assoc. simpl. reflexivity.
Qed.

(** C2.  When the filter compiles to [crits], [buildQuery] returns the
    query document: the preamble, for each criterion in order the clause
    [way(around:radius,lat,lon)] followed by the criterion and [;], and the
    epilogue; radius, latitude and longitude (in degrees) are the
    fixed-point decimals of the runtime with the trailing zeros of the
    fraction, and a point left without fraction, dropped. *)
Theorem buildQuery_wire_format
        (Sprint_float : float -> string) (parser_Parse : string -> result Node)
        (FormatFloat_f5 : float -> string)
        (region : Circle) (filter : string) (crits : list string) :
  buildCriteria Sprint_float parser_Parse filter = Some (Ok crits) ->
  buildQuery Sprint_float parser_Parse FormatFloat_f5 region filter
  = Some (Ok (queryDocument
                (FormatFloat FormatFloat_f5 (Radius region))
                (FormatFloat FormatFloat_f5 (RadiansToDegrees (Lat (Origin region))))
                (FormatFloat FormatFloat_f5 (RadiansToDegrees (Lon (Origin region))))
                crits))
  /\ (forall v ip frac z,
         FormatFloat_f5 v = ip ++ "." ++ frac ++ zeros z ->
         last_byte ip <> Some "."%char ->
         last_byte frac <> Some "0"%char ->
         last_byte frac <> Some "."%char ->
         FormatFloat FormatFloat_f5 v = minimalDecimal ip frac).
Proof.
  intros Hc. split; [|apply FormatFloat_minimal].
  unfold buildQuery. rewrite Hc. cbn [obind]. do 2 f_equal.
  rewrite Join_empty_app, Join_empty_appendCriteria.
  unfold queryDocument, queryPrefix.
  cbn [Join_empty fold_right]. rewrite !append_nil_r.
  rewrite append_assoc. do 3 f_equal.
  apply map_ext. intros c. now rewrite !append_assoc.
Qed.

Lemma buildQuery_wire_format_witness :
  buildQuery Sprint_float_fixed parse_highway FormatFloat_f5_fixed
    (mk_Circle (mk_Point 1 2) 1500) highway_filter
  = Some (Ok (queryDocument
                (FormatFloat FormatFloat_f5_fixed 1500)
                (FormatFloat FormatFloat_f5_fixed (RadiansToDegrees 1))
                (FormatFloat FormatFloat_f5_fixed (RadiansToDegrees 2))
                ["[highway=" ++ dq ++ "primary" ++ dq ++ "]";
                 "[highway=" ++ dq ++ "secondary" ++ dq ++ "]"]))
  /\ (forall v ip frac z,
         FormatFloat_f5_fixed v = ip ++ "." ++ frac ++ zeros z ->
         last_byte ip <> Some "."%char ->
         last_byte frac <> Some "0"%char ->
         last_byte frac <> Some "."%char ->
         FormatFloat FormatFloat_f5_fixed v = minimalDecimal ip frac).
Proof.
  apply (buildQuery_wire_format Sprint_float_fixed parse_highway FormatFloat_f5_fixed
           (mk_Circle (mk_Point 1 2) 1500) highway_filter).
  reflexivity.
Defined.

(** [conv.FormatFloat] on the fixed-point decimals "1500.00000",
    "52.37000" and "-0.12345". *)
Example FormatFloat_examples :
  FormatFloat (fun _ => "1500.00000") 0 = "1500"
  /\ FormatFloat (fun _ => "52.37000") 0 = "52.37"
  /\ FormatFloat (fun _ => "-0.12345") 0 = "-0.12345".
Proof. repeat split; reflexivity. Qed.

(** ** Compiled filters *)

(** At root a disjunction whose two fragments are bracketed filters keeps
    both on the stack, the left one below the right one. *)
Lemma or_at_root_keeps_both (op : string) (l r : Node) (not : bool)
      (lhs rhs : string) (q : queryBuilder) :
  op = "or" \/ op = "||" ->
  isWrapped lhs = Some true ->
  isWrapped rhs = Some true ->
  qb_Exit_binary op l r true not lhs rhs q = Some (push [rhs] (push [lhs] q)).
Proof.
  intros Hop Hl Hr. unfold qb_Exit_binary.
  destruct Hop; subst op; simpl; rewrite Hl; reflexivity.
Qed.

(** C1, as the code has it.  For every region, the filter
    [highway in ['primary','secondary']] compiles to exactly two criteria,
    the bracketed filters of [highway] against the quoted strings
    "primary" and "secondary", in this order, and the query holds one
    statement for each: the disjunction at root is not joined inline. *)
Theorem highway_in_two_criteria
        (Sprint_float : float -> string) (parser_Parse : string -> result Node)
        (FormatFloat_f5 : float -> string) (region : Circle) :
  parser_Parse highway_filter = Ok highway_tree ->
  let c1 := "[highway=" ++ dq ++ "primary" ++ dq ++ "]" in
  let c2 := "[highway=" ++ dq ++ "secondary" ++ dq ++ "]" in
  let prefix := queryPrefix FormatFloat_f5 region in
  buildCriteria Sprint_float parser_Parse highway_filter = Some (Ok [c1; c2])
  /\ buildQuery Sprint_float parser_Parse FormatFloat_f5 region highway_filter
     = Some (Ok ("[out:json];(" ++ prefix ++ c1 ++ ";" ++ prefix ++ c2 ++ ";"
                 ++ ");out tags geom qt;"))
  /\ (forall l r not q,
         qb_Exit_binary "or" l r true not c1 c2 q = Some (push [c2] (push [c1] q))).
Proof.
  intros HP c1 c2 prefix.
  assert (HC : buildCriteria Sprint_float parser_Parse highway_filter = Some (Ok [c1; c2])).
  { unfold buildCriteria. rewrite HP. reflexivity. }
  split; [exact HC|]. split.
  - unfold buildQuery. rewrite HC. cbn [obind appendCriteria app].
    fold prefix. cbn [Join_empty fold_right]. now rewrite append_nil_r.
  - intros l r not q. apply or_at_root_keeps_both; [now left|reflexivity|reflexivity].
Qed.

Lemma highway_in_two_criteria_witness :
  let c1 := "[highway=" ++ dq ++ "primary" ++ dq ++ "]" in
  let c2 := "[highway=" ++ dq ++ "secondary" ++ dq ++ "]" in
  let prefix := queryPrefix FormatFloat_f5_fixed (mk_Circle (mk_Point 1 2) 1500) in
  buildCriteria Sprint_float_fixed parse_highway highway_filter = Some (Ok [c1; c2])
  /\ buildQuery Sprint_float_fixed parse_highway FormatFloat_f5_fixed
       (mk_Circle (mk_Point 1 2) 1500) highway_filter
     = Some (Ok ("[out:json];(" ++ prefix ++ c1 ++ ";" ++ prefix ++ c2 ++ ";"
                 ++ ");out tags geom qt;"))
  /\ (forall l r not q,
         qb_Exit_binary "or" l r true not c1 c2 q = Some (push [c2] (push [c1] q))).
Proof.
  apply (highway_in_two_criteria Sprint_float_fixed parse_highway FormatFloat_f5_fixed
           (mk_Circle (mk_Point 1 2) 1500)).
  reflexivity.
Defined.

(** The two criteria are not the unquoted [[highway=primary]] and
    [[highway=secondary]]. *)
Lemma highway_criteria_are_quoted :
  buildCriteria Sprint_float_fixed parse_highway highway_filter
  <> Some (Ok ["[highway=primary]"; "[highway=secondary]"]).
Proof. vm_compute. discriminate. Qed.

(** C8.  A call with two arguments: the generator emits the argument
    fragments in the order of its pops, the last argument first, with
    nothing between them. *)
Theorem function_call_arguments_reversed (Sprint_float : float -> string) :
  buildCriteriaTree Sprint_float
    (FunctionNode "f" [IdentifierNode "a"; IdentifierNode "b"])
  = Some (Ok ["(if:f(ba))"]).
Proof. reflexivity. Qed.

(** The loop of the function case appends the fragments from the top of
    the stack down, which is the reverse of the order of the arguments. *)
Lemma pop_arguments_order :
  forall args parts q,
    (List.length args <= List.length (qstack q))%nat ->
    pop_arguments args parts q
    = Some ((parts ++ firstn (List.length args) (qstack q))%list,
            mk_qb (skipn (List.length args) (qstack q)) (qnot q) (qdepth q) (qerr q)).
Proof.
  induction args as [|a r IH]; intros parts q Hl; simpl.
  - rewrite app_nil_r. now destruct q.
  - unfold pop. destruct (qstack q) as [|s st] eqn:Hs; simpl in Hl; [lia|].
    cbn [obind]. rewrite IH by (simpl; lia). simpl. now rewrite <- app_assoc.
Qed.

(** The tag-presence test at root, plain and under a pending negation, and
    calls with one argument and with none. *)
Example function_call_examples :
  forall Sprint_float,
    buildCriteriaTree Sprint_float (FunctionNode "is_tag" [IdentifierNode "highway"])
    = Some (Ok ["[highway]"])
    /\ buildCriteriaTree Sprint_float
         (UnaryNode "not" (FunctionNode "is_tag" [IdentifierNode "highway"]))
       = Some (Ok ["[!highway]"])
    /\ buildCriteriaTree Sprint_float (FunctionNode "f" [IdentifierNode "a"])
       = Some (Ok ["(if:f(a))"])
    /\ buildCriteriaTree Sprint_float (FunctionNode "is_closed" [])
       = Some (Ok ["(if:is_closed())"]).
Proof. intros; repeat split; reflexivity. Qed.

(** * Further properties *)

(** ** The expanders eliminate membership tests *)

Lemma WalkList_establishes {S : Type} (v : Visitor S) (P : Node -> Prop) :
  forall ns, Forall (fun n => forall s, P (fst (Walk v n s))) ns ->
  forall s, Forall P (fst (WalkList v ns s)).
Proof.
  induction 1 as [|x r Hx _ IH]; intros s; simpl; [constructor|].
  specialize (Hx s). destruct (Walk v x s) as [x' s1].
  specialize (IH s1). destruct (WalkList v r s1) as [r' s2].
  simpl in *. now constructor.
Qed.

Lemma Walk_establishes {S : Type} (v : Visitor S) (P : Node -> Prop) :
  (forall n s, ChildrenSat P n -> P (fst (Exit v n s))) ->
  forall node s, P (fst (Walk v node s)).
Proof.
  intros HX.
  induction node using Node_forall_ind; intros s; rewrite Walk_eq; cbn [WalkChildren].
  1-6: now apply HX.
  - specialize (IHnode (Enter v (UnaryNode op node) s)).
    destruct (Walk v node _) as [n' s1]. now apply HX.
  - specialize (IHnode1 (Enter v (BinaryNode op node1 node2) s)).
    destruct (Walk v node1 _) as [l' s1].
    specialize (IHnode2 s1). destruct (Walk v node2 _) as [r' s2].
    apply HX. now split.
  - specialize (IHnode1 (Enter v (MatchesNode node1 node2) s)).
    destruct (Walk v node1 _) as [l' s1].
    specialize (IHnode2 s1). destruct (Walk v node2 _) as [r' s2].
    apply HX. now split.
  - pose proof (WalkList_establishes v P args H (Enter v (FunctionNode name args) s)) as HL.
    destruct (WalkList v args _) as [a' s1]. now apply HX.
  - specialize (IHnode1 (Enter v (ConditionalNode node1 node2 node3) s)).
    destruct (Walk v node1 _) as [c' s1].
    specialize (IHnode2 s1). destruct (Walk v node2 _) as [a' s2].
    specialize (IHnode3 s2). destruct (Walk v node3 _) as [b' s3].
    apply HX. now repeat split.
  - pose proof (WalkList_establishes v P ns H (Enter v (ArrayNode ns) s)) as HL.
    destruct (WalkList v ns _) as [a' s1]. now apply HX.
Qed.

Lemma Forall_forallb_true {A : Type} (f : A -> bool) (l : list A) :
  Forall (fun x => f x = true) l <-> forallb f l = true.
Proof.
  rewrite forallb_forall, Forall_forall. reflexivity.
Qed.

(** A node none of whose children holds a [p]-node, and that is no
    [p]-node itself, holds no [p]-node. *)
Lemma noneIs_intro (p : Node -> bool) (n : Node) :
  p n = false -> ChildrenSat (fun x => noneIs p x = true) n -> noneIs p n = true.
Proof.
  intros Hp Hc. destruct n; simpl in *; rewrite Hp; simpl; auto.
  - destruct Hc as [-> ->]; reflexivity.
  - destruct Hc as [-> ->]; reflexivity.
  - now apply Forall_forallb_true.
  - destruct Hc as [-> [-> ->]]; reflexivity.
  - now apply Forall_forallb_true.
Qed.

Lemma expandInArray_loop_noneIs (p : Node -> bool) (lhs : Node) :
  (forall op l r, op = "==" \/ op = "or" -> p (BinaryNode op l r) = false) ->
  noneIs p lhs = true ->
  forall nodes i node,
    forallb (noneIs p) nodes = true -> noneIs p node = true ->
    noneIs p (expandInArray_loop lhs i nodes node) = true.
Proof.
  intros Hp Hl. induction nodes as [|n r IH]; intros i node Hns Hn; simpl in *; [exact Hn|].
  apply andb_prop in Hns. destruct Hns as [Hwn Hwr].
  apply IH; [exact Hwr|].
  destruct (i =? 0)%nat; simpl; rewrite ?Hp by auto; simpl; now rewrite ?Hl, ?Hwn, ?Hn.
Qed.

Lemma isArrayMembership_ops (op : string) (l r : Node) :
  op = "==" \/ op = "or" \/ op = "and" \/ op = ">=" \/ op = "<=" ->
  isArrayMembership (BinaryNode op l r) = false
  /\ isRangeMembership (BinaryNode op l r) = false.
Proof. intros [H|[H|[H|[H|H]]]]; subst; split; reflexivity. Qed.

Lemma expandInArray_Exit_establishes (n : Node) :
  ChildrenSat (fun x => noneIs isArrayMembership x = true) n ->
  noneIs isArrayMembership (expandInArray_Exit n) = true.
Proof.
  intros Hc. unfold expandInArray_Exit.
  destruct (asBinaryIn n) as [[[op l] r]|] eqn:Hin.
  - pose proof (asBinaryIn_Some _ _ _ _ Hin) as ->. simpl in Hc. destruct Hc as [Hl Hr].
    destruct r; try (apply noneIs_intro; [unfold isArrayMembership; now rewrite Hin|now split]).
    assert (HN : forallb (noneIs isArrayMembership) Nodes = true).
    { simpl in Hr. exact Hr. }
    assert (HW : forall x, noneIs isArrayMembership x = true ->
                           noneIs isArrayMembership (wrapNotIn op x) = true).
    { intros x Hx. unfold wrapNotIn. destruct (String.eqb op "not in"); [|exact Hx].
      apply noneIs_intro; [reflexivity|exact Hx]. }
    apply HW. destruct Nodes as [|e es]; [reflexivity|].
    simpl in HN. apply andb_prop in HN. destruct HN as [He Hes].
    simpl. apply expandInArray_loop_noneIs; auto.
    + intros op0 l0 r0 H0. apply isArrayMembership_ops. tauto.
    + apply noneIs_intro; [reflexivity|now split].
  - apply noneIs_intro; [unfold isArrayMembership; now rewrite Hin|exact Hc].
Qed.

Lemma expandInArray_Walk_array_free (tree : Node) (s : unit) :
  noneIs isArrayMembership (fst (Walk expandInArray tree s)) = true.
Proof.
  apply (Walk_establishes expandInArray (fun x => noneIs isArrayMembership x = true)).
  intros n s'. apply expandInArray_Exit_establishes.
Qed.

(** After the array pass no membership test against an array literal is
    left anywhere in the tree. *)
Theorem expandInArray_eliminates (tree : Node) :
  noneIs isArrayMembership (fst (Walk expandInArray tree tt)) = true.
Proof. apply expandInArray_Walk_array_free. Qed.

Lemma isArrayMembership_head (op : string) (l l' r r' : Node) :
  isArrayNode r' = isArrayNode r ->
  isArrayMembership (BinaryNode op l' r') = isArrayMembership (BinaryNode op l r).
Proof.
  intros H. unfold isArrayMembership. simpl.
  destruct (String.eqb op "in" || String.eqb op "not in"); [|reflexivity].
  destruct r, r'; simpl in H; congruence.
Qed.

Lemma expandInRange_Exit_establishes (n : Node) :
  ChildrenSat (fun x => noneIs isRangeMembership x = true) n ->
  noneIs isRangeMembership (expandInRange_Exit n) = true.
Proof.
  intros Hc. unfold expandInRange_Exit.
  destruct (asBinaryIn n) as [[[op l] r]|] eqn:Hin.
  - pose proof (asBinaryIn_Some _ _ _ _ Hin) as ->. simpl in Hc. destruct Hc as [Hl Hr].
    destruct r; try (apply noneIs_intro; [unfold isRangeMembership; now rewrite Hin|now split]).
    destruct (String.eqb Operator "..") eqn:Hop.
    + simpl in Hr. apply andb_prop in Hr. destruct Hr as [_ Hr].
      apply andb_prop in Hr. destruct Hr as [Hlo Hhi].
      unfold wrapNotIn.
      assert (HB : noneIs isRangeMembership
                     (if any_eqb (getValue r1) (getValue r2)
                      then BinaryNode "==" l r1
                      else BinaryNode "and" (BinaryNode ">=" l r1) (BinaryNode "<=" l r2))
                   = true).
      { destruct (any_eqb (getValue r1) (getValue r2)); simpl; now rewrite Hl, Hlo, ?Hhi. }
      destruct (String.eqb op "not in"); [|exact HB].
      apply noneIs_intro; [reflexivity|exact HB].
    + apply noneIs_intro; [|now split].
      unfold isRangeMembership. now rewrite Hin.
  - apply noneIs_intro; [unfold isRangeMembership; now rewrite Hin|exact Hc].
Qed.

Lemma expandInRange_Exit_keeps_array_free (n : Node) :
  noneIs isArrayMembership n = true ->
  noneIs isArrayMembership (expandInRange_Exit n) = true
  /\ isArrayNode (expandInRange_Exit n) = isArrayNode n.
Proof.
  intros Hn. unfold expandInRange_Exit.
  destruct (asBinaryIn n) as [[[op l] r]|] eqn:Hin; [|now split].
  pose proof (asBinaryIn_Some _ _ _ _ Hin) as ->.
  destruct r; try (now split).
  destruct (String.eqb Operator ".."); [|now split].
  simpl in Hn. apply andb_prop in Hn. destruct Hn as [_ Hn].
  apply andb_prop in Hn. destruct Hn as [Hl Hr].
  apply andb_prop in Hr. destruct Hr as [_ Hr].
  apply andb_prop in Hr. destruct Hr as [Hlo Hhi].
  unfold wrapNotIn.
  destruct (String.eqb op "not in"), (any_eqb (getValue r1) (getValue r2));
    simpl; rewrite Hl, Hlo, ?Hhi; now split.
Qed.

Ltac finish_keep :=
  match goal with
  | |- noneIs _ (expandInRange_Exit ?n) = true /\ _ =>
      let HA := fresh in let HB := fresh in
      destruct (expandInRange_Exit_keeps_array_free n) as [HA HB];
      [|split; [exact HA|rewrite HB; reflexivity]]
  end.

Lemma expandInRange_Walk_keeps_array_free :
  forall node s,
    noneIs isArrayMembership node = true ->
    noneIs isArrayMembership (fst (Walk expandInRange node s)) = true
    /\ isArrayNode (fst (Walk expandInRange node s)) = isArrayNode node.
Proof.
  assert (HL : forall ns,
             Forall (fun node => forall s,
                       noneIs isArrayMembership node = true ->
                       noneIs isArrayMembership (fst (Walk expandInRange node s)) = true
                       /\ isArrayNode (fst (Walk expandInRange node s)) = isArrayNode node) ns ->
             forall s, forallb (noneIs isArrayMembership) ns = true ->
                       forallb (noneIs isArrayMembership)
                         (fst (WalkList expandInRange ns s)) = true).
  { induction 1 as [|x r Hx _ IH]; intros s Hns; simpl in *; [reflexivity|].
    apply andb_prop in Hns. destruct Hns as [Hwx Hwr].
    destruct (Hx s Hwx) as [Hx' _]. destruct (Walk expandInRange x s) as [x' s1].
    specialize (IH s1 Hwr). destruct (WalkList expandInRange r s1) as [r' s2].
    simpl in *. now rewrite Hx', IH. }
  induction node using Node_forall_ind; intros s Hn; rewrite Walk_eq;
    cbn [WalkChildren Enter Exit expandInRange fst].
  1-6: now split.
  - simpl in Hn. destruct (IHnode s Hn) as [H1 _].
    destruct (Walk expandInRange node s) as [n' s1]. cbn [fst] in *.
    finish_keep; simpl; exact H1.
  - simpl in Hn. apply andb_prop in Hn. destruct Hn as [Hp Hn].
    apply andb_prop in Hn. destruct Hn as [Hl Hr].
    destruct (IHnode1 s Hl) as [H1 _]. destruct (Walk expandInRange node1 s) as [l' s1].
    destruct (IHnode2 s1 Hr) as [H2 H2k]. destruct (Walk expandInRange node2 s1) as [r' s2].
    cbn [fst] in *.
    destruct (expandInRange_Exit_keeps_array_free (BinaryNode op l' r')) as [HA HB].
    { cbn [noneIs]. rewrite H1, H2.
      rewrite (isArrayMembership_head op node1 l' node2 r' H2k).
      now rewrite Hp. }
    split; [exact HA|rewrite HB; reflexivity].
  - simpl in Hn. apply andb_prop in Hn. destruct Hn as [Hl Hr].
    destruct (IHnode1 s Hl) as [H1 _]. destruct (Walk expandInRange node1 s) as [l' s1].
    destruct (IHnode2 s1 Hr) as [H2 _]. destruct (Walk expandInRange node2 s1) as [r' s2].
    cbn [fst] in *. finish_keep; simpl; now rewrite H1, H2.
  - simpl in Hn. pose proof (HL args H s Hn) as HA.
    destruct (WalkList expandInRange args s) as [a' s1]. cbn [fst] in *.
    finish_keep; exact HA.
  - simpl in Hn. apply andb_prop in Hn. destruct Hn as [H12 H3].
    apply andb_prop in H12. destruct H12 as [Hc Ha].
    destruct (IHnode1 s Hc) as [H1 _]. destruct (Walk expandInRange node1 s) as [c' s1].
    destruct (IHnode2 s1 Ha) as [H2 _]. destruct (Walk expandInRange node2 s1) as [a' s2].
    destruct (IHnode3 s2 H3) as [H3' _]. destruct (Walk expandInRange node3 s2) as [b' s3].
    cbn [fst] in *. finish_keep; simpl; now rewrite H1, H2, H3'.
  - simpl in Hn. pose proof (HL ns H s Hn) as HA.
    destruct (WalkList expandInRange ns s) as [a' s1]. cbn [fst] in *.
    finish_keep; exact HA.
Qed.

(** After the two expanders, in the order [buildCriteria] runs them, no
    membership test against an array literal or a range is left. *)
Theorem expanders_eliminate_membership (tree : Node) :
  let tree' := fst (Walk expandInRange (fst (Walk expandInArray tree tt)) tt) in
  noneIs isArrayMembership tree' = true /\ noneIs isRangeMembership tree' = true.
Proof.
  cbn zeta. split.
  - apply expandInRange_Walk_keeps_array_free, expandInArray_Walk_array_free.
  - apply (Walk_establishes expandInRange (fun x => noneIs isRangeMembership x = true)).
    intros n s. apply expandInRange_Exit_establishes.
Qed.

(** ** The negation normalizer reaches a normal form *)

Lemma reducibleOperand_head (x x' : Node) :
  headOf x' = headOf x -> reducibleOperand x' = reducibleOperand x.
Proof.
  destruct x, x'; simpl; intros H; try discriminate; try reflexivity;
    injection H as ->; reflexivity.
Qed.

Lemma Enter_irreducible (w : Node -> option Node) (n : Node) :
  reducibleNot n = false -> distributeAndFoldNot_Enter w n = Some n.
Proof.
  unfold distributeAndFoldNot_Enter, reducibleNot.
  destruct n as [| | | | | |op x| | | | |]; try reflexivity.
  cbn [asUnaryNot].
  destruct (String.eqb op "not" || String.eqb op "!"); [|reflexivity].
  cbn [andb]. intros H.
  destruct x as [| | | | | |op2 y|bop l r| | | |];
    cbn [reducibleOperand asUnaryNot] in *; try reflexivity; try (discriminate H).
  - now rewrite H.
  - revert H. destruct (map_lookup operatorPairs bop);
      [intros H; discriminate H|reflexivity].
Qed.

Lemma omap_list_noneIs (p : Node -> bool) (w : Node -> option Node) :
  (forall x y, w x = Some y -> noneIs p y = true) ->
  forall ns ns', omap_list w ns = Some ns' -> forallb (noneIs p) ns' = true.
Proof.
  intros Hw. induction ns as [|x r IH]; intros ns' H; simpl in H.
  - now injection H as <-.
  - destruct (w x) as [y|] eqn:Hy; simpl in H; [|discriminate].
    destruct (omap_list w r) as [r'|] eqn:Hr; simpl in H; [|discriminate].
    injection H as <-. simpl. now rewrite (Hw _ _ Hy), (IH _ eq_refl).
Qed.

Lemma WalkNot_eq (f : nat) (n : Node) :
  WalkNot (S f) n
  = (n1 <- distributeAndFoldNot_Enter (WalkNot f) n ;; WalkNotChildren f n1).
Proof.
  simpl. destruct (distributeAndFoldNot_Enter (WalkNot f) n) as [n1|]; [|reflexivity].
  simpl. destruct n1; reflexivity.
Qed.

Lemma WalkNotChildren_head (f : nat) (n n' : Node) :
  WalkNotChildren f n = Some n' -> headOf n' = headOf n.
Proof.
  destruct n; simpl; intros H;
    repeat match type of H with
      | context [WalkNot f ?x] => destruct (WalkNot f x); simpl in H; [|discriminate]
      | context [omap_list (WalkNot f) ?x] =>
          destruct (omap_list (WalkNot f) x); simpl in H; [|discriminate]
      end; injection H as <-; reflexivity.
Qed.

Lemma WalkNotChildren_noneIs (f : nat) (n n' : Node) :
  (forall x y, WalkNot f x = Some y -> noneIs reducibleNot y = true) ->
  WalkNotChildren f n = Some n' ->
  ChildrenSat (fun x => noneIs reducibleNot x = true) n'.
Proof.
  intros IH. destruct n; simpl; intros H;
    repeat match type of H with
      | context [WalkNot f ?x] =>
          let E := fresh "E" in
          destruct (WalkNot f x) eqn:E; simpl in H; [|discriminate]
      | context [omap_list (WalkNot f) ?x] =>
          let E := fresh "E" in
          destruct (omap_list (WalkNot f) x) eqn:E; simpl in H; [|discriminate]
      end; injection H as <-; simpl; eauto;
    try (apply Forall_forallb_true; eapply omap_list_noneIs; eauto).
  repeat split; eauto.
Qed.

Lemma WalkNot_head (f : nat) (n n' : Node) :
  WalkNot f n = Some n' -> reducibleNot n = false -> headOf n' = headOf n.
Proof.
  destruct f as [|f]; [discriminate|]. rewrite WalkNot_eq. intros H Hn.
  rewrite (Enter_irreducible _ _ Hn) in H. simpl in H.
  now apply WalkNotChildren_head in H.
Qed.

Lemma reducibleOperand_not (x : Node) :
  reducibleOperand x = false -> reducibleNot x = false.
Proof.
  destruct x; try reflexivity. simpl. intros ->. reflexivity.
Qed.

Lemma Enter_result_irreducible (w : Node -> option Node) (n n1 : Node) :
  (forall x y, w x = Some y -> reducibleNot y = false) ->
  distributeAndFoldNot_Enter w n = Some n1 -> reducibleNot n1 = false.
Proof.
  intros Hw. unfold distributeAndFoldNot_Enter.
  destruct n as [| | | | | |op x| | | | |]; try (intros [= <-]; reflexivity).
  cbn [asUnaryNot].
  destruct (String.eqb op "not" || String.eqb op "!") eqn:Hop;
    [|intros [= <-]; simpl; now rewrite Hop].
  destruct x as [| | | | | |op2 y|bop l r| | | |];
    try (intros [= <-]; simpl; rewrite ?Hop; reflexivity).
  - cbn [asUnaryNot].
    destruct (String.eqb op2 "not" || String.eqb op2 "!") eqn:Hop2.
    + apply Hw.
    + intros [= <-]. cbn [reducibleNot reducibleOperand]. now rewrite Hop, Hop2.
  - destruct (map_lookup operatorPairs bop) eqn:HL.
    + destruct (isLogical bop); intros [= <-]; reflexivity.
    + intros [= <-]. cbn [reducibleNot reducibleOperand]. now rewrite Hop, HL.
Qed.

Lemma noneIs_head (p : Node -> bool) (n : Node) : noneIs p n = true -> p n = false.
Proof.
  destruct n; simpl; intros H; apply andb_prop in H; destruct H as [H _];
    now apply negb_true_iff in H.
Qed.

Lemma WalkNot_normal :
  forall f n n', WalkNot f n = Some n' -> noneIs reducibleNot n' = true.
Proof.
  induction f as [|f IH]; intros n n' H; [discriminate|].
  rewrite WalkNot_eq in H.
  destruct (distributeAndFoldNot_Enter (WalkNot f) n) as [n1|] eqn:HE; simpl in H;
    [|discriminate].
  pose proof (WalkNotChildren_noneIs f n1 n' IH H) as HC.
  apply noneIs_intro; [|exact HC].
  assert (H1 : reducibleNot n1 = false).
  { apply (Enter_result_irreducible _ _ _ (fun x y Hxy => noneIs_head _ _ (IH x y Hxy)) HE). }
  destruct n1 as [| | | | | |op x| | | | |];
    try (apply WalkNotChildren_head in H; destruct n'; simpl in H;
         try discriminate; reflexivity).
  simpl in H. destruct (WalkNot f x) as [x'|] eqn:Hx; simpl in H; [|discriminate].
  injection H as <-. cbn [reducibleNot] in *.
  destruct (String.eqb op "not" || String.eqb op "!"); [|reflexivity].
  cbn [andb] in *.
  rewrite (reducibleOperand_head x x'); [exact H1|].
  apply (WalkNot_head f); [exact Hx|]. now apply reducibleOperand_not.
Qed.

(** A tree in normal form is a fixed point of the walk. *)
Lemma WalkNot_fixed :
  forall f n, (weight n < f)%nat -> noneIs reducibleNot n = true -> WalkNot f n = Some n.
Proof.
  assert (HL : forall f ns,
             Forall (fun n => (weight n < f)%nat -> noneIs reducibleNot n = true ->
                              WalkNot f n = Some n) ns ->
             (weights ns < f)%nat -> forallb (noneIs reducibleNot) ns = true ->
             omap_list (WalkNot f) ns = Some ns).
  { intros f. induction 1 as [|x r Hx _ IH]; intros Hw Hn; simpl in *; [reflexivity|].
    apply andb_prop in Hn. destruct Hn as [Hnx Hnr]. pose proof (weight_pos x).
    rewrite Hx by (auto; lia). simpl. rewrite IH by (auto; lia). reflexivity. }
  induction f as [|f IH]; intros n Hw Hn; [lia|].
  rewrite WalkNot_eq, (Enter_irreducible _ _ (noneIs_head _ _ Hn)). simpl.
  destruct n; try reflexivity; cbn [noneIs] in Hn; apply andb_prop in Hn;
    destruct Hn as [_ Hn].
  - simpl in Hw. simpl. rewrite IH by (auto; lia). reflexivity.
  - simpl in Hw. apply andb_prop in Hn. destruct Hn as [H1 H2].
    simpl. rewrite !IH by (auto; lia). reflexivity.
  - simpl in Hw. apply andb_prop in Hn. destruct Hn as [H1 H2].
    simpl. rewrite !IH by (auto; lia). reflexivity.
  - rewrite weight_Function in Hw. simpl. rewrite HL; [reflexivity| |lia|exact Hn].
    apply Forall_forall. intros x _. apply IH.
  - simpl in Hw. apply andb_prop in Hn. destruct Hn as [H12 H3].
    apply andb_prop in H12. destruct H12 as [H1 H2].
    simpl. rewrite !IH by (auto; lia). reflexivity.
  - rewrite weight_Array in Hw. simpl. rewrite HL; [reflexivity| |lia|exact Hn].
    apply Forall_forall. intros x _. apply IH.
Qed.

(** The negation pass leaves no negation that it would rewrite: no [not]
    on a binary node with a dual, on another [not], or on a boolean
    literal, anywhere in the tree.  A tree in this form is returned as it
    is, so the pass is idempotent. *)
Theorem distributeAndFoldNot_normal_form (tree : Node) :
  noneIs reducibleNot (distributeAndFoldNot_Walk tree) = true
  /\ (noneIs reducibleNot tree = true -> distributeAndFoldNot_Walk tree = tree)
  /\ distributeAndFoldNot_Walk (distributeAndFoldNot_Walk tree)
     = distributeAndFoldNot_Walk tree.
Proof.
  assert (H1 : noneIs reducibleNot (distributeAndFoldNot_Walk tree) = true).
  { apply (WalkNot_normal (S (weight tree)) tree). apply WalkNot_enough. lia. }
  assert (H2 : forall t, noneIs reducibleNot t = true -> distributeAndFoldNot_Walk t = t).
  { intros t Ht. apply (WalkNot_Walk (S (weight t))). apply WalkNot_fixed; [lia|exact Ht]. }
  split; [exact H1|]. split; [apply H2|]. now apply H2.
Qed.

Lemma distributeAndFoldNot_normal_form_witness :
  distributeAndFoldNot_Walk
    (BinaryNode "or" (UnaryNode "not" (IdentifierNode "oneway")) (IdentifierNode "lit"))
  = BinaryNode "or" (UnaryNode "not" (IdentifierNode "oneway")) (IdentifierNode "lit").
Proof.
  apply (proj1 (proj2 (distributeAndFoldNot_normal_form
                         (BinaryNode "or" (UnaryNode "not" (IdentifierNode "oneway"))
                            (IdentifierNode "lit"))))).
  reflexivity.
Defined.

(** ** The DNF converter: normal form and truth value *)

Lemma asBinaryAnd_eq (op : string) (l r : Node) :
  asBinaryAnd (BinaryNode op l r)
  = if String.eqb op "and" || String.eqb op "&&" then Some (op, l, r) else None.
Proof. reflexivity. Qed.

Lemma asBinaryOr_eq (op : string) (l r : Node) :
  asBinaryOr (BinaryNode op l r)
  = if String.eqb op "or" || String.eqb op "||" then Some (op, l, r) else None.
Proof. reflexivity. Qed.

Lemma and_is_not_or (op : string) :
  String.eqb op "and" || String.eqb op "&&" = true ->
  String.eqb op "or" || String.eqb op "||" = false.
Proof.
  intros H. apply orb_true_iff in H.
  destruct H as [H|H]; apply String.eqb_eq in H; subst; reflexivity.
Qed.

Lemma holds_or (rho : Node -> bool) (n : Node) (o : string) (b c : Node) :
  asBinaryOr n = Some (o, b, c) -> holds rho n = holds rho b || holds rho c.
Proof.
  intros H. destruct (asBinaryOr_Some _ _ _ _ H) as [-> Ho].
  destruct Ho; subst; reflexivity.
Qed.

(** One walk of the [dnf] visitor from depth zero. *)
Lemma dnf_Walk_zero :
  forall t a,
  exists t' a',
    Walk dnf_visitor t (mk_dnf 0 a) = (t', mk_dnf 0 a')
    /\ (forall rho, holds rho t' = holds rho t)
    /\ (a' = false -> a = false /\ t' = t /\ isDNF t = true)
    /\ (isDNF t = true -> t' = t /\ a' = a).
Proof.
  assert (Hleaf : forall t a,
             asBinaryAnd t = None -> asBinaryOr t = None -> isDNF t = true ->
             exists t' a',
               Walk dnf_visitor t (mk_dnf 0 a) = (t', mk_dnf 0 a')
               /\ (forall rho, holds rho t' = holds rho t)
               /\ (a' = false -> a = false /\ t' = t /\ isDNF t = true)
               /\ (isDNF t = true -> t' = t /\ a' = a)).
  { intros t a Ha Ho Hd. exists t, a.
    rewrite (dnf_Walk_nonlogical t (mk_dnf 0 a) eq_refl Ha Ho). repeat split; auto. }
  induction t using Node_forall_ind; intros a; try (apply Hleaf; reflexivity).
  rename t1 into l, t2 into r.
  destruct (String.eqb op "and" || String.eqb op "&&") eqn:Hand.
  - (* a conjunction *)
    pose proof (and_is_not_or op Hand) as Hor.
    destruct (IHt1 a) as [l' [a1 [Wl [Hl [Hl1 Hl2]]]]].
    destruct (IHt2 a1) as [r' [a2 [Wr [Hr [Hr1 Hr2]]]]].
    rewrite Walk_eq.
    assert (HE : Enter dnf_visitor (BinaryNode op l r) (mk_dnf 0 a) = mk_dnf 0 a).
    { simpl. unfold dnf_Enter. simpl.
      apply orb_true_iff in Hand. destruct Hand as [H|H]; rewrite H; simpl;
        rewrite ?andb_false_r; reflexivity. }
    rewrite HE. cbn [WalkChildren]. rewrite Wl, Wr.
    cbn [Exit dnf_visitor]. unfold dnf_Exit. cbn [dnf_depth Z.ltb Z.compare].
    rewrite asBinaryAnd_eq, Hand.
    destruct (asBinaryOr l') as [[[o b] c]|] eqn:Hol.
    + eexists _, true. split; [reflexivity|]. split; [|split].
      * intros rho. cbn [holds].
        destruct (asBinaryOr_Some _ _ _ _ Hol) as [_ Ho].
        assert (Ho' : String.eqb o "or" || String.eqb o "||" = true)
          by (destruct Ho; subst; reflexivity).
        assert (Hoa : String.eqb o "and" || String.eqb o "&&" = false)
          by (destruct Ho; subst; reflexivity).
        rewrite Hoa, Ho', Hand. rewrite <- Hl, (holds_or rho l' o b c Hol), Hr.
        destruct (holds rho b), (holds rho c), (holds rho r); reflexivity.
      * discriminate.
      * intros Hd. exfalso. cbn [isDNF] in Hd. rewrite Hand in Hd.
        apply andb_prop in Hd. destruct Hd as [Hd _].
        apply andb_prop in Hd. destruct Hd as [Hd Hdl].
        apply andb_prop in Hd. destruct Hd as [Hd _].
        destruct (Hl2 Hdl) as [-> _]. rewrite Hol in Hd. discriminate.
    + destruct (asBinaryOr r') as [[[o b] c]|] eqn:Hor'.
      * eexists _, true. split; [reflexivity|]. split; [|split].
        -- intros rho. cbn [holds].
           destruct (asBinaryOr_Some _ _ _ _ Hor') as [_ Ho].
           assert (Ho' : String.eqb o "or" || String.eqb o "||" = true)
             by (destruct Ho; subst; reflexivity).
           assert (Hoa : String.eqb o "and" || String.eqb o "&&" = false)
             by (destruct Ho; subst; reflexivity).
           rewrite Hoa, Ho', Hand. rewrite <- Hr, (holds_or rho r' o b c Hor'), <- Hl.
           destruct (holds rho l'), (holds rho b), (holds rho c); reflexivity.
        -- discriminate.
        -- intros Hd. exfalso. cbn [isDNF] in Hd. rewrite Hand in Hd.
           apply andb_prop in Hd. destruct Hd as [Hd Hdr].
           apply andb_prop in Hd. destruct Hd as [Hd _].
           apply andb_prop in Hd. destruct Hd as [_ Hd].
           destruct (Hr2 Hdr) as [-> _]. rewrite Hor' in Hd. discriminate.
      * exists (BinaryNode op l' r'), a2. split; [destruct a2; reflexivity|].
        split; [|split].
        -- intros rho. cbn [holds]. now rewrite Hand, Hl, Hr.
        -- intros Ha2. destruct (Hr1 Ha2) as [Ha1 [-> Hdr]].
           destruct (Hl1 Ha1) as [Ha [-> Hdl]].
           repeat split; auto. cbn [isDNF]. now rewrite Hand, Hol, Hor', Hdl, Hdr.
        -- intros Hd. cbn [isDNF] in Hd. rewrite Hand in Hd.
           apply andb_prop in Hd. destruct Hd as [Hd Hdr].
           apply andb_prop in Hd. destruct Hd as [_ Hdl].
           destruct (Hl2 Hdl) as [-> ->]. destruct (Hr2 Hdr) as [-> ->]. now split.
  - destruct (String.eqb op "or" || String.eqb op "||") eqn:Hor.
    + (* a disjunction *)
      destruct (IHt1 a) as [l' [a1 [Wl [Hl [Hl1 Hl2]]]]].
      destruct (IHt2 a1) as [r' [a2 [Wr [Hr [Hr1 Hr2]]]]].
      rewrite Walk_eq.
      assert (HE : Enter dnf_visitor (BinaryNode op l r) (mk_dnf 0 a) = mk_dnf 0 a).
      { simpl. unfold dnf_Enter. simpl.
        apply orb_true_iff in Hor. destruct Hor as [H|H]; rewrite H; simpl;
          rewrite ?andb_false_r; reflexivity. }
      rewrite HE. cbn [WalkChildren]. rewrite Wl, Wr.
      cbn [Exit dnf_visitor]. unfold dnf_Exit. cbn [dnf_depth Z.ltb Z.compare].
      rewrite asBinaryAnd_eq, Hand.
      exists (BinaryNode op l' r'), a2. split; [destruct a2; reflexivity|].
      split; [|split].
      * intros rho. cbn [holds]. now rewrite Hand, Hor, Hl, Hr.
      * intros Ha2. destruct (Hr1 Ha2) as [Ha1 [-> Hdr]].
        destruct (Hl1 Ha1) as [Ha [-> Hdl]].
        repeat split; auto. cbn [isDNF]. now rewrite Hand, Hor, Hdl, Hdr.
      * intros Hd. cbn [isDNF] in Hd. rewrite Hand, Hor in Hd.
        apply andb_prop in Hd. destruct Hd as [Hdl Hdr].
        destruct (Hl2 Hdl) as [-> ->]. destruct (Hr2 Hdr) as [-> ->]. now split.
    + apply Hleaf.
      * now rewrite asBinaryAnd_eq, Hand.
      * now rewrite asBinaryOr_eq, Hor.
      * cbn [isDNF]. now rewrite Hand, Hor.
Qed.

Lemma dnf_round_spec (t : Node) :
  exists t' a',
    dnf_round t = (t', a')
    /\ (forall rho, holds rho t' = holds rho t)
    /\ (a' = false -> t' = t /\ isDNF t = true)
    /\ (isDNF t = true -> t' = t /\ a' = false).
Proof.
  destruct (dnf_Walk_zero t false) as [t' [a' [HW [Hh [H1 H2]]]]].
  exists t', a'. unfold dnf_round. rewrite HW. repeat split; auto.
  - now apply H1.
  - now apply H1.
  - now apply H2.
  - now apply H2.
Qed.

Lemma toDNF_loop_holds (rho : Node -> bool) :
  forall limit t, holds rho (toDNF_loop limit t) = holds rho t.
Proof.
  induction limit as [|limit IH]; intros t; simpl;
    destruct (dnf_round_spec t) as [t' [a' [HR [Hh _]]]]; rewrite HR;
    destruct (negb a'); auto.
  now rewrite IH.
Qed.

(** [toDNF] keeps the truth value of the outer [and] / [or] chain, whatever
    the values of the nodes that are neither. *)
Theorem toDNF_preserves_truth (rho : Node -> bool) (tree : Node) :
  holds rho (toDNF tree) = holds rho tree.
Proof. apply toDNF_loop_holds. Qed.

Lemma dnf_iterate_succ (k : nat) (t : Node) :
  dnf_iterate (S k) t = fst (dnf_round (dnf_iterate k t)).
Proof.
  revert t. induction k as [|k IH]; intros t; [reflexivity|].
  change (dnf_iterate (S (S k)) t) with (dnf_iterate (S k) (fst (dnf_round t))).
  rewrite IH. reflexivity.
Qed.

(** A round applies no rewrite exactly on a tree in disjunctive normal
    form, which [toDNF] then returns as it is after that one round; and
    whenever [toDNF] stops before its last round, its result is in
    disjunctive normal form. *)
Theorem toDNF_reaches_normal_form (tree : Node) :
  (snd (dnf_round tree) = false <-> isDNF tree = true)
  /\ (isDNF tree = true -> toDNF tree = tree /\ toDNF_rounds tree = 1%nat)
  /\ ((toDNF_rounds tree <= 1000)%nat -> isDNF (toDNF tree) = true).
Proof.
  split; [|split].
  - destruct (dnf_round_spec tree) as [t' [a' [HR [_ [H1 H2]]]]]. rewrite HR. simpl.
    split; [intros Ha; now apply H1|intros Hd; now apply H2].
  - intros Hd. destruct (dnf_round_spec tree) as [t' [a' [HR [_ [_ H2]]]]].
    destruct (H2 Hd) as [-> ->].
    unfold toDNF, toDNF_rounds. simpl. rewrite HR. now split.
  - intros Hn.
    destruct (toDNF_loop_rounds 1000 tree) as [Hb [Hloop [_ Hlast]]].
    fold (toDNF_rounds tree) in *. fold (toDNF tree) in *.
    destruct Hlast as [Hlast|Hlast]; [|lia].
    set (n := toDNF_rounds tree) in *.
    destruct n as [|k]; [lia|].
    replace (S k - 1)%nat with k in Hlast by lia.
    rewrite Hloop, dnf_iterate_succ.
    destruct (dnf_round_spec (dnf_iterate k tree)) as [t' [a' [HR [_ [H1 _]]]]].
    rewrite HR in *. simpl in *. destruct (H1 Hlast) as [-> Hd]. exact Hd.
Qed.

(** [(a or b) and (c or d)] takes three rounds to reach the four
    conjunctions. *)
Example toDNF_example :
  let a := IdentifierNode "a" in
  let b := IdentifierNode "b" in
  let c := IdentifierNode "c" in
  let d := IdentifierNode "d" in
  toDNF (BinaryNode "and" (BinaryNode "or" a b) (BinaryNode "or" c d))
  = BinaryNode "or"
      (BinaryNode "or" (BinaryNode "and" a c) (BinaryNode "and" a d))
      (BinaryNode "or" (BinaryNode "and" b c) (BinaryNode "and" b d))
  /\ toDNF_rounds (BinaryNode "and" (BinaryNode "or" a b) (BinaryNode "or" c d)) = 3%nat.
Proof. split; reflexivity. Qed.

Lemma toDNF_reaches_normal_form_witness :
  isDNF (toDNF (BinaryNode "and"
                  (BinaryNode "or" (IdentifierNode "a") (IdentifierNode "b"))
                  (BinaryNode "or" (IdentifierNode "c") (IdentifierNode "d")))) = true.
Proof.
  apply (proj2 (proj2 (toDNF_reaches_normal_form
                         (BinaryNode "and"
                            (BinaryNode "or" (IdentifierNode "a") (IdentifierNode "b"))
                            (BinaryNode "or" (IdentifierNode "c") (IdentifierNode "d")))))).
  apply Nat.leb_le. reflexivity.
Defined.

(** ** The criteria that [buildCriteria] returns *)

Lemma wrapCriteria_wrapped :
  forall crits l,
    wrapCriteria crits = Some l ->
    Forall (fun c => isWrapped c = Some true) l /\ List.length l = List.length crits.
Proof.
  induction crits as [|c r IH]; intros l H; simpl in H.
  - injection H as <-. split; [constructor|reflexivity].
  - destruct (isWrapped c) as [w|] eqn:Hw; simpl in H; [|discriminate].
    destruct (wrapCriteria r) as [r'|]; simpl in H; [|discriminate].
    injection H as <-. destruct (IH r' eq_refl) as [HF HL].
    split; [|simpl; now rewrite HL].
    constructor; [|exact HF]. destruct w; simpl; [exact Hw|].
    unfold isWrapped, HasPrefix. simpl. destruct (c ++ ")"); reflexivity.
Qed.

(** Every criterion that [buildCriteria] returns is a bracketed filter or
    an evaluated filter [(if:...)], and for a tree of the grammar there is
    at least one. *)
Theorem buildCriteria_returns_wrapped_criteria
        (Sprint_float : float -> string) (tree : Node) (crits : list string) :
  (forall f, Sprint_float f <> EmptyString) ->
  wellFormed tree = true ->
  buildCriteriaTree Sprint_float tree = Some (Ok crits) ->
  crits <> []
  /\ Forall (fun c => String.prefix "[" c = true \/ String.prefix "(if:" c = true) crits.
Proof.
  intros Hsf Hwf HB. unfold buildCriteriaTree in HB.
  destruct (Walk_ok Sprint_float Hsf _ (rewriteTree_wellFormed tree Hwf) (mk_qb [] [] 0 None))
    as [q [HW HG]]; [intros _; constructor|].
  unfold generate in HB. rewrite HW in HB. cbn [snd obind] in HB.
  destruct (qerr q) eqn:He; [discriminate|].
  destruct (wrapCriteria (rev (qstack q))) as [l|] eqn:Hl; simpl in HB; [|discriminate].
  injection HB as <-.
  destruct (wrapCriteria_wrapped _ _ Hl) as [HF HL].
  destruct (HG He) as [_ [_ Hlen]]. simpl in Hlen. rewrite length_rev in HL.
  split.
  - intros ->. simpl in HL. lia.
  - eapply Forall_impl; [|exact HF]. intros c Hc. unfold isWrapped in Hc.
    destruct c as [|ch c]; [discriminate|]. simpl in Hc. injection Hc as Hc.
    apply orb_true_iff in Hc. destruct Hc as [Hc|Hc].
    + left. unfold byte_eqb in Hc. apply Ascii.eqb_eq in Hc. subst. simpl.
      destruct c; reflexivity.
    + right. exact Hc.
Qed.

Lemma buildCriteria_returns_wrapped_criteria_witness :
  [ "[highway=" ++ dq ++ "primary" ++ dq ++ "]";
    "[highway=" ++ dq ++ "secondary" ++ dq ++ "]" ] <> []
  /\ Forall (fun c => String.prefix "[" c = true \/ String.prefix "(if:" c = true)
       [ "[highway=" ++ dq ++ "primary" ++ dq ++ "]";
         "[highway=" ++ dq ++ "secondary" ++ dq ++ "]" ].
Proof.
  apply (buildCriteria_returns_wrapped_criteria Sprint_float_fixed highway_tree).
  - intros f. discriminate.
  - reflexivity.
  - reflexivity.
Defined.

(** ** The generator below the root *)

Lemma split_last_snoc (s : string) (c : ascii) :
  split_last (s ++ String c EmptyString) = Some (s, String c EmptyString).
Proof.
  induction s as [|a s IH]; simpl; [reflexivity|]. now rewrite IH.
Qed.

Lemma nestedText_Function (sf : float -> string) (name : string) (args : list Node) :
  nestedText sf (FunctionNode name args)
  = rbind (nestedTexts sf args) (fun ss =>
      Ok (name ++ "(" ++ String.concat EmptyString (rev ss) ++ ")")).
Proof.
  simpl. f_equal. induction args as [|a r IH]; simpl; [reflexivity|].
  now rewrite IH.
Qed.

Lemma nestedText_Array (sf : float -> string) (ns : list Node) :
  nestedText sf (ArrayNode ns)
  = rbind (nestedTexts sf ns) (fun _ => Err "array not supported").
Proof.
  simpl. f_equal. induction ns as [|a r IH]; simpl; [reflexivity|].
  now rewrite IH.
Qed.

Lemma nestedTexts_length (sf : float -> string) :
  forall ns ss, nestedTexts sf ns = Ok ss -> List.length ss = List.length ns.
Proof.
  induction ns as [|n r IH]; intros ss; simpl.
  - intros [= <-]. reflexivity.
  - destruct (nestedText sf n) as [s|e]; simpl; [|discriminate].
    destruct (nestedTexts sf r) as [ss'|e]; simpl; [|discriminate].
    intros [= <-]. simpl. now rewrite (IH ss' eq_refl).
Qed.

Ltac pushed :=
  cbn [isString isIdentifier isFunction obind Join_empty fold_right bangIf negb
       qstack qnot qdepth qerr];
  repeat match goal with
         | |- context [if ?b then false else false] =>
             replace (if b then false else false) with false by (now destruct b)
         end;
  rewrite ?append_nil_r; try reflexivity.

Section NestedPrinter.

Variable Sprint_float : float -> string.

Local Abbreviation qbv := (qb_visitor Sprint_float).
Local Abbreviation text := (nestedText Sprint_float).

Lemma Failed_Walk (e : string) (node : Node) (out : option queryBuilder) :
  Failed e out -> exists out', Walk qbv node out = (node, out') /\ Failed e out'.
Proof.
  intros [q [-> He]].
  destruct (qb_Walk_latched Sprint_float e node q He) as [q' [E [He' _]]].
  exists (Some q'). split; [exact E|]. now exists q'.
Qed.

Lemma Failed_WalkList (e : string) :
  forall ns out, Failed e out ->
    exists out', WalkList qbv ns out = (ns, out') /\ Failed e out'.
Proof.
  induction ns as [|n r IH]; intros out Hf; simpl.
  - now exists out.
  - destruct (Failed_Walk e n out Hf) as [o1 [E1 F1]]. rewrite E1.
    destruct (IH o1 F1) as [o2 [E2 F2]]. rewrite E2. now exists o2.
Qed.

Lemma Failed_Exit (e : string) (node : Node) (out : option queryBuilder) :
  Failed e out -> Exit qbv node out = (node, out).
Proof.
  intros [q [-> He]]. simpl. now rewrite (qb_Exit_latched Sprint_float node q e He).
Qed.

Lemma Enter_nested (node : Node) (q : queryBuilder) :
  0 < qdepth q ->
  Enter qbv node (Some q) = Some (mk_qb (qstack q) (qnot q) (qdepth q + 1) (qerr q)).
Proof.
  intros Hd. simpl. unfold qb_Enter.
  destruct (Z.ltb_spec 0 (qdepth q)); [reflexivity|lia].
Qed.

(** The binary case of [Exit] in nested context. *)
Lemma qb_Exit_binary_nested (op : string) (l r : Node) (lhs rhs : string)
      (q : queryBuilder) :
  wellFormed l = true ->
  text l = Ok lhs -> text r = Ok rhs ->
  qb_Exit_binary op l r false false lhs rhs q
  = Some (mk_qb (nestedBinary op l r lhs rhs :: qstack q) (qnot q) (qdepth q) (qerr q)).
Proof.
  intros Hwf Hl Hr. unfold qb_Exit_binary, nestedBinary, push.
  destruct (String.eqb op "and" || String.eqb op "&&").
  { cbn. now rewrite append_nil_r. }
  destruct (String.eqb op "or" || String.eqb op "||").
  { cbn. now rewrite append_nil_r. }
  destruct (String.eqb op ">" || String.eqb op ">=" || String.eqb op "<"
            || String.eqb op "<=").
  { destruct l; cbn [isIdentifier obind Join_empty fold_right];
      try (now rewrite append_nil_r).
    simpl in Hl, Hwf. injection Hl as <-.
    destruct (needsQuote Value) eqn:Hq.
    - cbn. now rewrite !append_nil_r.
    - destruct Value as [|c v]; [discriminate Hwf|].
      cbn [first_byte obind].
      assert (Hc : byte_eqb c dquote_char = false).
      { simpl in Hq. apply orb_false_elim in Hq as [Hq _].
        destruct (byte_eqb c dquote_char) eqn:Hc; [|reflexivity].
        apply Ascii.eqb_eq in Hc. subst c. discriminate Hq. }
      rewrite Hc. cbn. now rewrite !append_nil_r. }
  destruct (String.eqb op "contains").
  { destruct r; pushed. }
  destruct (String.eqb op "startsWith").
  { destruct r; cbn [isString obind]; try (now pushed).
    simpl in Hr. injection Hr as <-. unfold Quote, dq at 1.
    cbn [append split_first]. pushed. }
  destruct (String.eqb op "endsWith").
  { destruct r; cbn [isString obind]; try (now pushed).
    simpl in Hr. injection Hr as <-. unfold Quote.
    replace (dq ++ concat_map quote_byte Value ++ dq)
      with ((dq ++ concat_map quote_byte Value) ++ String dquote_char EmptyString)
      by (now rewrite append_assoc).
    rewrite split_last_snoc. pushed. }
  pushed.
Qed.

Lemma nested_WalkList :
  forall ns,
    Forall (fun n => wellFormed n = true ->
              forall q, qerr q = None -> 0 < qdepth q ->
              exists out, Walk qbv n (Some q) = (n, out) /\ NestedPost q (text n) out) ns ->
    forallb wellFormed ns = true ->
    forall q, qerr q = None -> 0 < qdepth q ->
    exists out, WalkList qbv ns (Some q) = (ns, out)
                /\ NestedListPost q (nestedTexts Sprint_float ns) out.
Proof.
  induction 1 as [|x r Hx _ IH]; intros Hwf q Hq Hd; simpl.
  - exists (Some q). split; [reflexivity|]. destruct q; simpl in *. now subst.
  - simpl in Hwf. apply andb_prop in Hwf as [Hwx Hwr].
    destruct (Hx Hwx q Hq Hd) as [o1 [E1 P1]]. rewrite E1.
    destruct (text x) as [s|e]; simpl in P1 |- *.
    + subst o1.
      destruct (IH Hwr (mk_qb (s :: qstack q) (qnot q) (qdepth q) None) eq_refl Hd)
        as [o2 [E2 P2]].
      rewrite E2. exists o2. split; [reflexivity|].
      destruct (nestedTexts Sprint_float r) as [ss|e]; simpl in P2 |- *.
      * subst o2. now rewrite <- app_assoc.
      * exact P2.
    + destruct (Failed_WalkList e r o1 P1) as [o2 [E2 F2]]. rewrite E2.
      exists o2. split; [reflexivity|exact F2].
Qed.

Ltac exit_nested d nots :=
  cbn [Exit qb_visitor obind]; unfold qb_Exit; cbn [qerr qdepth qnot qstack];
  destruct (Z.ltb_spec 0 (d + 1)) as [_|]; [|lia];
  rewrite Z.add_simpl_r;
  destruct (Z.eqb_spec d 0) as [|_]; [lia|];
  destruct nots; cbn [negb orb andb pop obind qerr qdepth qnot qstack].

Ltac child IH q' :=
  let o := fresh "o" in
  let E := fresh "E" in
  let P := fresh "P" in
  destruct (IH ltac:(assumption) q' eq_refl ltac:(simpl; lia)) as [o [E P]];
  rewrite E; clear E; cbv beta iota; cbn [qstack qnot qdepth qerr] in P.

Ltac failed_rest :=
  match goal with
  | P : exists q', ?o = Some q' /\ qerr q' = Some ?e |- _ => change (Failed e o) in P
  end;
  repeat match goal with
         | F : Failed ?e ?o |- context [Walk _ ?n ?o] =>
             let o' := fresh "o" in
             let E := fresh "E" in
             let F' := fresh "F" in
             destruct (Failed_Walk e n o F) as [o' [E F']]; rewrite E; clear E F
         end;
  match goal with
  | F : Failed ?e ?o |- context [Exit _ ?n ?o] =>
      rewrite (Failed_Exit e n o F); exists o; split; [reflexivity | exact F]
  end.

Lemma nested_Walk :
  forall node,
    wellFormed node = true ->
    forall q, qerr q = None -> 0 < qdepth q ->
    exists out, Walk qbv node (Some q) = (node, out) /\ NestedPost q (text node) out.
Proof.
  induction node using Node_forall_ind; intros Hwf q Hq Hd;
    rewrite Walk_eq, (Enter_nested _ q Hd);
    destruct q as [st nots d err]; cbn [qstack qnot qdepth qerr] in *; subst err;
    cbn [WalkChildren].
  - eexists; split; [reflexivity|]. cbn [nestedText NestedPost].
    exit_nested d nots; eexists; split; reflexivity.
  - eexists; split; [reflexivity|]. cbn [nestedText NestedPost]; exit_nested d nots; unfold push; pushed.
  - eexists; split; [reflexivity|]. cbn [nestedText NestedPost]; exit_nested d nots; unfold push; pushed.
  - eexists; split; [reflexivity|]. cbn [nestedText NestedPost]; exit_nested d nots; unfold push; pushed.
  - eexists; split; [reflexivity|]. cbn [nestedText NestedPost].
    match goal with |- context [BoolNode ?v] => destruct v end;
      exit_nested d nots; unfold push; pushed.
  - eexists; split; [reflexivity|]. cbn [nestedText NestedPost]; exit_nested d nots; unfold push; pushed.
  - simpl in Hwf. child IHnode (mk_qb st nots (d + 1) None).
    cbn [nestedText]. destruct (text node) as [s|e]; cbn [rbind NestedPost qstack qnot qdepth qerr] in *.
    + subst o. eexists; split; [reflexivity|].
      cbn [nestedText NestedPost]; exit_nested d nots; unfold push; pushed.
    + failed_rest.
  - simpl in Hwf. apply andb_prop in Hwf as [Hw1 Hw2].
    child IHnode1 (mk_qb st nots (d + 1) None).
    cbn [nestedText]. destruct (text node1) as [lhs|e] eqn:T1; cbn [rbind NestedPost qstack qnot qdepth qerr] in *.
    + subst o. child IHnode2 (mk_qb (lhs :: st) nots (d + 1) None).
      destruct (text node2) as [rhs|e] eqn:T2; cbn [rbind NestedPost qstack qnot qdepth qerr] in *.
      * subst o. eexists; split; [reflexivity|].
        exit_nested d nots;
          now rewrite (qb_Exit_binary_nested _ _ _ lhs rhs _ Hw1 T1 T2).
      * failed_rest.
    + failed_rest.
  - simpl in Hwf. apply andb_prop in Hwf as [Hw1 Hw2].
    child IHnode1 (mk_qb st nots (d + 1) None).
    cbn [nestedText]. destruct (text node1) as [lhs|e] eqn:T1; cbn [rbind NestedPost qstack qnot qdepth qerr] in *.
    + subst o. child IHnode2 (mk_qb (lhs :: st) nots (d + 1) None).
      destruct (text node2) as [rhs|e] eqn:T2; cbn [rbind NestedPost qstack qnot qdepth qerr] in *.
      * subst o. eexists; split; [reflexivity|].
        exit_nested d nots; unfold push; pushed.
      * failed_rest.
    + failed_rest.
  - simpl in Hwf.
    destruct (nested_WalkList args H Hwf (mk_qb st nots (d + 1) None) eq_refl
                ltac:(simpl; lia)) as [o [E P]].
    rewrite E; clear E. rewrite nestedText_Function.
    destruct (nestedTexts Sprint_float args) as [ss|e] eqn:T;
      cbn [rbind NestedPost NestedListPost qstack qnot qdepth qerr] in *.
    + subst o. eexists; split; [reflexivity|].
      pose proof (nestedTexts_length Sprint_float args ss T) as Hlen.
      assert (Hpop : forall nots' parts,
                 pop_arguments args parts (mk_qb (rev ss ++ st) nots' d None)
                 = Some ((parts ++ rev ss)%list, mk_qb st nots' d None)).
      { intros nots' parts. rewrite pop_arguments_order;
          cbn [qstack qnot qdepth qerr]; rewrite <- Hlen, <- length_rev.
        - rewrite firstn_app, skipn_app, Nat.sub_diag, firstn_all, skipn_all.
          simpl. now rewrite app_nil_r.
        - rewrite length_app. lia. }
      exit_nested d nots; rewrite Hpop; cbn [obind]; unfold push;
        cbn [qstack qnot qdepth qerr bangIf];
        rewrite !Join_empty_app, concat_Join_empty;
        cbn [Join_empty fold_right app]; now rewrite ?append_nil_r, ?append_assoc.
    + change (Failed e o) in P.
      rewrite (Failed_Exit e _ o P). exists o. split; [reflexivity|exact P].
  - simpl in Hwf. apply andb_prop in Hwf as [Hw12 Hw3].
    apply andb_prop in Hw12 as [Hw1 Hw2].
    child IHnode1 (mk_qb st nots (d + 1) None).
    cbn [nestedText]. destruct (text node1) as [sc|e] eqn:T1; cbn [rbind NestedPost qstack qnot qdepth qerr] in *.
    + subst o. child IHnode2 (mk_qb (sc :: st) nots (d + 1) None).
      destruct (text node2) as [sa|e] eqn:T2; cbn [rbind NestedPost qstack qnot qdepth qerr] in *.
      * subst o. child IHnode3 (mk_qb (sa :: sc :: st) nots (d + 1) None).
        destruct (text node3) as [sb|e] eqn:T3; cbn [rbind NestedPost qstack qnot qdepth qerr] in *.
        -- subst o. eexists; split; [reflexivity|].
           exit_nested d nots; unfold push; pushed.
        -- failed_rest.
      * failed_rest.
    + failed_rest.
  - simpl in Hwf.
    destruct (nested_WalkList ns H Hwf (mk_qb st nots (d + 1) None) eq_refl
                ltac:(simpl; lia)) as [o [E P]].
    rewrite E; clear E. rewrite nestedText_Array.
    destruct (nestedTexts Sprint_float ns) as [ss|e] eqn:T;
      cbn [rbind NestedPost NestedListPost qstack qnot qdepth qerr] in *.
    + subst o. eexists; split; [reflexivity|].
      exit_nested d nots; eexists; split; reflexivity.
    + change (Failed e o) in P.
      rewrite (Failed_Exit e _ o P). exists o. split; [reflexivity|exact P].
Qed.


End NestedPrinter.


(** ** Negation through the rewrite passes *)

Lemma expander_Walk_Unary (X : Node -> Node) (op : string) (x : Node) :
  let v := {| Enter := fun (_ : Node) (s : unit) => s; Exit := fun node s => (X node, s) |} in
  fst (Walk v (UnaryNode op x) tt) = X (UnaryNode op (fst (Walk v x tt))).
Proof.
  intros v. rewrite Walk_eq. cbn [Enter v WalkChildren].
  destruct (Walk v x tt) as [x' []]. reflexivity.
Qed.

Lemma expander_Walk_Binary (X : Node -> Node) (op : string) (l r : Node) :
  let v := {| Enter := fun (_ : Node) (s : unit) => s; Exit := fun node s => (X node, s) |} in
  fst (Walk v (BinaryNode op l r) tt)
  = X (BinaryNode op (fst (Walk v l tt)) (fst (Walk v r tt))).
Proof.
  intros v. rewrite Walk_eq. cbn [Enter v WalkChildren].
  destruct (Walk v l tt) as [l' []]. destruct (Walk v r tt) as [r' []]. reflexivity.
Qed.

Lemma expandInArray_Exit_Unary (op : string) (x : Node) :
  expandInArray_Exit (UnaryNode op x) = UnaryNode op x.
Proof. reflexivity. Qed.

Lemma expandInRange_Exit_Unary (op : string) (x : Node) :
  expandInRange_Exit (UnaryNode op x) = UnaryNode op x.
Proof. reflexivity. Qed.

Lemma expandInArray_Exit_other (op : string) (l r : Node) :
  isIn op = false -> expandInArray_Exit (BinaryNode op l r) = BinaryNode op l r.
Proof. unfold isIn, expandInArray_Exit, asBinaryIn. now intros ->. Qed.

Lemma expandInRange_Exit_other (op : string) (l r : Node) :
  isIn op = false -> expandInRange_Exit (BinaryNode op l r) = BinaryNode op l r.
Proof. unfold isIn, expandInRange_Exit, asBinaryIn. now intros ->. Qed.

Lemma rewriteTree_eq (tree : Node) :
  rewriteTree tree = toDNF (distributeAndFoldNot_Walk (expandIn tree)).
Proof. reflexivity. Qed.

Lemma expandIn_Unary (op : string) (x : Node) :
  expandIn (UnaryNode op x) = UnaryNode op (expandIn x).
Proof.
  unfold expandIn.
  rewrite (expander_Walk_Unary expandInArray_Exit), expandInArray_Exit_Unary.
  now rewrite (expander_Walk_Unary expandInRange_Exit), expandInRange_Exit_Unary.
Qed.

Lemma expandIn_Binary (op : string) (l r : Node) :
  isIn op = false ->
  expandIn (BinaryNode op l r) = BinaryNode op (expandIn l) (expandIn r).
Proof.
  intros Hop. unfold expandIn.
  rewrite (expander_Walk_Binary expandInArray_Exit), expandInArray_Exit_other by exact Hop.
  now rewrite (expander_Walk_Binary expandInRange_Exit), expandInRange_Exit_other by exact Hop.
Qed.

Lemma distributeAndFoldNot_Walk_ext (n1 n2 : Node) :
  (forall f, WalkNot (S f) n1 = WalkNot (S f) n2) ->
  distributeAndFoldNot_Walk n1 = distributeAndFoldNot_Walk n2.
Proof.
  intros H.
  pose proof (WalkNot_enough (S (Nat.max (weight n1) (weight n2))) n1 ltac:(lia)) as H1.
  pose proof (WalkNot_enough (S (Nat.max (weight n1) (weight n2))) n2 ltac:(lia)) as H2.
  rewrite H in H1. congruence.
Qed.

Lemma isLogical_isIn (op : string) : isLogical op = true -> isIn op = false.
Proof.
  unfold isLogical, isIn. intros H.
  repeat (apply orb_prop in H; destruct H as [H|H]);
    apply String.eqb_eq in H; subst; reflexivity.
Qed.

(** A negation of a binary node with a dual is the binary node with the
    dual, the negation moved onto the operands of a connective. *)
Lemma distributeAndFoldNot_Walk_dual (u op op' : string) (l r : Node) :
  isNot u = true -> map_lookup operatorPairs op = Some op' ->
  distributeAndFoldNot_Walk (UnaryNode u (BinaryNode op l r))
  = distributeAndFoldNot_Walk
      (if isLogical op then BinaryNode op' (UnaryNode u l) (UnaryNode u r)
       else BinaryNode op' l r).
Proof.
  intros Hu Hop. apply distributeAndFoldNot_Walk_ext. intros f.
  rewrite !WalkNot_eq.
  unfold distributeAndFoldNot_Enter at 1. cbn [asUnaryNot].
  unfold isNot in Hu. rewrite Hu, Hop.
  destruct (isLogical op); cbn [obind]; reflexivity.
Qed.

(** A double negation is dropped. *)
Lemma distributeAndFoldNot_Walk_double (u u' : string) (x : Node) :
  isNot u = true -> isNot u' = true ->
  distributeAndFoldNot_Walk (UnaryNode u (UnaryNode u' x)) = distributeAndFoldNot_Walk x.
Proof.
  intros Hu Hu'.
  apply (WalkNot_Walk (S (S (weight x)))).
  rewrite WalkNot_eq.
  unfold distributeAndFoldNot_Enter. cbn [asUnaryNot].
  unfold isNot in Hu, Hu'. rewrite Hu. cbn [asUnaryNot]. rewrite Hu'.
  destruct (WalkNot_total (S (weight x)) x ltac:(lia)) as [x1 [Hx1 Hw]].
  rewrite Hx1. cbn [obind].
  rewrite (WalkNot_Walk _ _ _ Hx1).
  pose proof (WalkNot_normal _ _ _ Hx1) as Hn.
  pose proof (WalkNot_fixed (S (S (weight x))) x1 ltac:(lia) Hn) as Hfix.
  rewrite WalkNot_eq in Hfix.
  rewrite (Enter_irreducible _ _ (noneIs_head _ _ Hn)) in Hfix. exact Hfix.
Qed.

Lemma Dual_isIn (op op' : string) :
  Dual op op' -> isIn op = false -> isIn op' = false.
Proof. destruct 1; cbv; congruence. Qed.

Lemma Dual_isLogical (op op' : string) :
  Dual op op' -> isLogical op' = isLogical op.
Proof. destruct 1; reflexivity. Qed.



(** ** The cache of ways *)

Lemma uint8_small (j : N) : (j < 256)%N -> uint8 j = j.
Proof. intros H. unfold uint8. now apply N.mod_small. Qed.

Lemma uint8_le (j : N) : (uint8 j <= j)%N.
Proof. unfold uint8. apply N.Div0.mod_le. Qed.

Lemma unpackTag_total (idx : N) (table : list string) :
  unpackTag idx table = Some (Err "invalid cache data")
  \/ exists val, unpackTag idx table = Some (Ok val).
Proof.
  unfold unpackTag. destruct (idx <? MaxUint8)%N; [|right; eauto].
  destruct (N.leb_spec (uint8 (N.of_nat (List.length table))) idx) as [Hle|Hlt];
    [now left|right].
  destruct (nth_error table (N.to_nat idx)) as [val|] eqn:Hn; [eauto|].
  apply nth_error_None in Hn.
  pose proof (uint8_le (N.of_nat (List.length table))). lia.
Qed.

Section WayCacheProofs.

Variable float32 : Type.
Variable to_float32 : float -> float32.
Variable of_float32 : float32 -> float.

Local Abbreviation doc32 := (doc float32).
Local Abbreviation elem32 := (elem float32).
Local Abbreviation Packed := (Packed float32 to_float32).
Local Abbreviation Extends := (Extends float32).
Local Abbreviation Covered := (Covered float32).

Lemma unpackWay_total (d : doc32) (w : elem32) :
  unpackWay float32 of_float32 d w = Some (Err "invalid cache data")
  \/ exists x, unpackWay float32 of_float32 d w = Some (Ok x).
Proof.
  unfold unpackWay.
  destruct (unpackTag_total (elem_Highway w) (doc_Highways d)) as [->|[h ->]];
    [now left|]; cbn [obind].
  destruct (unpackTag_total (elem_Access w) (doc_Accesses d)) as [->|[a ->]];
    [now left|]; cbn [obind].
  destruct (unpackTag_total (elem_Surface w) (doc_Surfaces d)) as [->|[s ->]];
    [now left|]; cbn [obind].
  right. eauto.
Qed.

Lemma unpackWays_loop_total (d : doc32) :
  forall ws,
    unpackWays_loop float32 of_float32 d ws = Some (Err "invalid cache data")
    \/ exists xs, unpackWays_loop float32 of_float32 d ws = Some (Ok xs)
                  /\ List.length xs = List.length ws.
Proof.
  induction ws as [|w rest IH]; simpl.
  - right. now exists [].
  - destruct (unpackWay_total d w) as [->|[x ->]]; [now left|]; cbn [obind].
    destruct IH as [->|[xs [-> Hl]]]; [now left|]; cbn [obind].
    right. exists (x :: xs). simpl. now rewrite Hl.
Qed.

(** Whatever the cached [doc] holds, [unpackWays] indexes no table out of
    range: it returns one way per element, or the error of an index that a
    table does not have. *)
Theorem unpackWays_never_out_of_range (d : doc32) :
  unpackWays_doc float32 of_float32 d = Some (Err "invalid cache data")
  \/ exists ws, unpackWays_doc float32 of_float32 d = Some (Ok ws)
                /\ List.length ws = List.length (doc_Ways d).
Proof. apply unpackWays_loop_total. Qed.

Lemma slices_Index_nth (known : list string) (val : string) :
  forall j, slices_Index known val = Some j ->
            nth_error known (N.to_nat j) = Some val.
Proof.
  induction known as [|x r IH]; simpl; intros j H; [discriminate|].
  destruct (String.eqb_spec x val) as [->|_].
  - now injection H as <-.
  - destruct (slices_Index r val) as [i|]; [|discriminate].
    injection H as <-. replace (N.to_nat (i + 1)) with (S (N.to_nat i)) by lia.
    simpl. now apply IH.
Qed.

Lemma Encodes_app (table suffix : list string) (val : option string) (idx : N) :
  Encodes table val idx -> Encodes (table ++ suffix) val idx.
Proof.
  destruct val as [v|]; simpl; [|auto].
  intros [j [Hj Hn]]. exists j. split; [exact Hj|].
  rewrite nth_error_app1; [exact Hn|]. apply nth_error_Some. congruence.
Qed.

Lemma packTag_spec (tags : string -> option string) (tag : string) (known : list string) :
  (exists suffix, snd (packTag tags tag known) = (known ++ suffix)%list)
  /\ Encodes (snd (packTag tags tag known)) (tags tag) (fst (packTag tags tag known)).
Proof.
  unfold packTag. destruct (tags tag) as [val|]; simpl.
  - destruct (slices_Index known val) as [j|] eqn:Hj; simpl.
    + split; [exists []; now rewrite app_nil_r|].
      exists j. split; [reflexivity|]. now apply slices_Index_nth.
    + split; [now exists [val]|].
      exists (N.of_nat (List.length known)). split; [reflexivity|].
      replace (N.to_nat (N.of_nat (List.length known))) with (List.length known) by lia.
      rewrite nth_error_app2, Nat.sub_diag by lia. reflexivity.
  - split; [exists []; now rewrite app_nil_r|reflexivity].
Qed.

Lemma Extends_trans (a b c : doc32) : Extends a b -> Extends b c -> Extends a c.
Proof.
  intros [[s1 H1] [[s2 H2] [s3 H3]]] [[t1 G1] [[t2 G2] [t3 G3]]].
  repeat split; eexists.
  - rewrite G1, H1, <- app_assoc. reflexivity.
  - rewrite G2, H2, <- app_assoc. reflexivity.
  - rewrite G3, H3, <- app_assoc. reflexivity.
Qed.

Lemma Packed_Extends (d d' : doc32) (w : overpassWay) (e : elem32) :
  Extends d d' -> Packed d w e -> Packed d' w e.
Proof.
  intros [[s1 H1] [[s2 H2] [s3 H3]]] [Hg [Hh [Ha Hs]]].
  split; [exact Hg|]. rewrite H1, H2, H3.
  repeat split; now apply Encodes_app.
Qed.

Lemma packWay_spec (w : overpassWay) (d : doc32) :
  let d' := packWay float32 to_float32 w d in
  Extends d d'
  /\ exists e, doc_Ways d' = (doc_Ways d ++ [e])%list /\ Packed d' w e.
Proof.
  unfold packWay.
  pose proof (packTag_spec (ow_Tags w) "highway" (doc_Highways d)) as [Hh1 Hh2].
  pose proof (packTag_spec (ow_Tags w) "access" (doc_Accesses d)) as [Ha1 Ha2].
  pose proof (packTag_spec (ow_Tags w) "surface" (doc_Surfaces d)) as [Hs1 Hs2].
  destruct (packTag (ow_Tags w) "highway" (doc_Highways d)) as [h hs].
  destruct (packTag (ow_Tags w) "access" (doc_Accesses d)) as [a accs].
  destruct (packTag (ow_Tags w) "surface" (doc_Surfaces d)) as [s ss].
  cbn [fst snd] in *. cbv zeta. split.
  - repeat split; assumption.
  - eexists. split; [reflexivity|]. repeat split; assumption.
Qed.

Lemma packWays_loop_spec :
  forall ways d,
    let d' := packWays_loop float32 to_float32 ways d in
    Extends d d'
    /\ exists es, doc_Ways d' = (doc_Ways d ++ es)%list /\ Forall2 (Packed d') ways es.
Proof.
  induction ways as [|w rest IH]; intros d; simpl.
  - split.
    + repeat split; exists []; now rewrite app_nil_r.
    + exists []. split; [now rewrite app_nil_r|constructor].
  - destruct (packWay_spec w d) as [Hx [e [He Hp]]].
    destruct (IH (packWay float32 to_float32 w d)) as [Hx' [es [Hes HF]]].
    split; [eapply Extends_trans; eassumption|].
    exists (e :: es). split.
    + rewrite Hes, He, <- app_assoc. reflexivity.
    + constructor; [|exact HF]. eapply Packed_Extends; eassumption.
Qed.

Lemma unpackTag_Encodes (table : list string) (val : option string) (idx : N) :
  (List.length table <= 255)%nat ->
  Encodes table val idx ->
  unpackTag idx table
  = Some (Ok (match val with Some v => v | None => EmptyString end)).
Proof.
  intros Hlen. destruct val as [v|]; simpl.
  - intros [j [-> Hn]].
    assert (Hj : (N.to_nat j < List.length table)%nat)
      by (apply nth_error_Some; congruence).
    rewrite uint8_small by lia. unfold unpackTag.
    rewrite uint8_small by lia.
    destruct (N.ltb_spec j MaxUint8) as [_|Hge]; [|unfold MaxUint8 in Hge; lia].
    destruct (N.leb_spec (N.of_nat (List.length table)) j) as [Hle|_]; [lia|].
    now rewrite Hn.
  - intros ->. reflexivity.
Qed.

Lemma unpackWay_Packed (d : doc32) (w : overpassWay) (e : elem32) :
  (List.length (doc_Highways d) <= 255)%nat ->
  (List.length (doc_Accesses d) <= 255)%nat ->
  (List.length (doc_Surfaces d) <= 255)%nat ->
  Packed d w e ->
  unpackWay float32 of_float32 d e = Some (Ok (cachedWay to_float32 of_float32 w)).
Proof.
  intros Hh Ha Hs [Hg [Eh [Ea Es]]]. unfold unpackWay.
  rewrite (unpackTag_Encodes _ _ _ Hh Eh), (unpackTag_Encodes _ _ _ Ha Ea),
    (unpackTag_Encodes _ _ _ Hs Es).
  cbn [obind]. unfold cachedWay. rewrite Hg, map_map. reflexivity.
Qed.

Lemma unpackWays_loop_Packed (d : doc32) :
  (List.length (doc_Highways d) <= 255)%nat ->
  (List.length (doc_Accesses d) <= 255)%nat ->
  (List.length (doc_Surfaces d) <= 255)%nat ->
  forall ways es,
    Forall2 (Packed d) ways es ->
    unpackWays_loop float32 of_float32 d es
    = Some (Ok (map (cachedWay to_float32 of_float32) ways)).
Proof.
  intros Hh Ha Hs. induction 1 as [|w e ws es' Hp _ IH]; simpl; [reflexivity|].
  rewrite (unpackWay_Packed d w e Hh Ha Hs Hp). cbn [obind].
  rewrite IH. reflexivity.
Qed.

(** A packed list of ways whose tags take at most 255 different values each
    is unpacked to the ways themselves, in the order in which they were
    packed: no tag value is lost or mixed up, and a way without a tag comes
    back with the empty string. *)
Theorem unpackWays_packWays (ways : list overpassWay) :
  let d := packWays_doc float32 to_float32 ways in
  (List.length (doc_Highways d) <= 255)%nat ->
  (List.length (doc_Accesses d) <= 255)%nat ->
  (List.length (doc_Surfaces d) <= 255)%nat ->
  unpackWays_doc float32 of_float32 d
  = Some (Ok (map (cachedWay to_float32 of_float32) ways)).
Proof.
  intros d Hh Ha Hs. unfold unpackWays_doc.
  destruct (packWays_loop_spec ways (mk_doc [] [] [] [])) as [_ [es [Hes HF]]].
  fold (packWays_doc float32 to_float32 ways) in Hes, HF. fold d in Hes, HF.
  simpl in Hes. rewrite Hes.
  now apply unpackWays_loop_Packed.
Qed.

Lemma Covered_more (field : elem32 -> N) (table : list string) (es : list elem32)
      (e : elem32) :
  Covered field table es -> Covered field table (es ++ [e]).
Proof.
  intros H k Hk. destruct (H k Hk) as [x [Hin Hx]].
  exists x. split; [apply in_or_app; now left|exact Hx].
Qed.

Lemma packTag_Covered (field : elem32 -> N) (tags : string -> option string)
      (tag : string) (known : list string) (es : list elem32) (e : elem32) :
  Covered field known es ->
  field e = fst (packTag tags tag known) ->
  Covered field (snd (packTag tags tag known)) (es ++ [e]).
Proof.
  intros Hc He. unfold packTag in *.
  destruct (tags tag) as [val|]; [|now apply Covered_more].
  destruct (slices_Index known val) as [j|]; [now apply Covered_more|].
  cbn [fst snd] in *. intros k Hk. rewrite length_app in Hk. simpl in Hk.
  destruct (Nat.eq_dec k (List.length known)) as [->|Hne].
  - exists e. split; [apply in_or_app; right; now left|exact He].
  - destruct (Hc k ltac:(lia)) as [x [Hin Hx]].
    exists x. split; [apply in_or_app; now left|exact Hx].
Qed.

Lemma packWay_Covered (w : overpassWay) (d : doc32) :
  let d' := packWay float32 to_float32 w d in
  Covered elem_Highway (doc_Highways d) (doc_Ways d) ->
  Covered elem_Access (doc_Accesses d) (doc_Ways d) ->
  Covered elem_Surface (doc_Surfaces d) (doc_Ways d) ->
  Covered elem_Highway (doc_Highways d') (doc_Ways d')
  /\ Covered elem_Access (doc_Accesses d') (doc_Ways d')
  /\ Covered elem_Surface (doc_Surfaces d') (doc_Ways d').
Proof.
  unfold packWay. intros Hh Ha Hs.
  pose proof (fun e => packTag_Covered elem_Highway (ow_Tags w) "highway" _ _ e Hh) as Ch.
  pose proof (fun e => packTag_Covered elem_Access (ow_Tags w) "access" _ _ e Ha) as Ca.
  pose proof (fun e => packTag_Covered elem_Surface (ow_Tags w) "surface" _ _ e Hs) as Cs.
  destruct (packTag (ow_Tags w) "highway" (doc_Highways d)) as [h hs].
  destruct (packTag (ow_Tags w) "access" (doc_Accesses d)) as [a accs].
  destruct (packTag (ow_Tags w) "surface" (doc_Surfaces d)) as [s ss].
  cbn [fst snd doc_Ways doc_Highways doc_Accesses doc_Surfaces] in *.
  repeat split; [apply Ch|apply Ca|apply Cs]; reflexivity.
Qed.

Lemma packWays_loop_Covered :
  forall ways d,
    let d' := packWays_loop float32 to_float32 ways d in
    Covered elem_Highway (doc_Highways d) (doc_Ways d) ->
    Covered elem_Access (doc_Accesses d) (doc_Ways d) ->
    Covered elem_Surface (doc_Surfaces d) (doc_Ways d) ->
    Covered elem_Highway (doc_Highways d') (doc_Ways d')
    /\ Covered elem_Access (doc_Accesses d') (doc_Ways d')
    /\ Covered elem_Surface (doc_Surfaces d') (doc_Ways d').
Proof.
  induction ways as [|w rest IH]; intros d; simpl; [auto|].
  intros Hh Ha Hs.
  destruct (packWay_Covered w d Hh Ha Hs) as [Hh' [Ha' Hs']].
  now apply IH.
Qed.

Lemma unpackTag_wraps (table : list string) (field : elem32 -> N) (es : list elem32) :
  Covered field table es -> wraps (List.length table) ->
  exists e, In e es /\ unpackTag (field e) table = Some (Err "invalid cache data").
Proof.
  intros Hc [Hlen Hne].
  set (m := uint8 (N.of_nat (List.length table))) in *.
  assert (Hm : (m < 256)%N) by (apply N.mod_lt; discriminate).
  destruct (Hc (N.to_nat m) ltac:(lia)) as [e [Hin He]].
  exists e. split; [exact Hin|].
  replace (N.of_nat (N.to_nat m)) with m in He by lia.
  rewrite uint8_small in He by exact Hm. rewrite He. unfold unpackTag. fold m.
  destruct (N.ltb_spec m MaxUint8) as [_|Hge]; [|unfold MaxUint8 in *; lia].
  now rewrite N.leb_refl.
Qed.

Lemma unpackWays_loop_bad (d : doc32) (e : elem32) :
  unpackWay float32 of_float32 d e = Some (Err "invalid cache data") ->
  forall es, In e es ->
             unpackWays_loop float32 of_float32 d es = Some (Err "invalid cache data").
Proof.
  intros He. induction es as [|x rest IH]; intros Hin; [destruct Hin|].
  simpl. destruct Hin as [->|Hin].
  - now rewrite He.
  - destruct (unpackWay_total d x) as [->|[y ->]]; [reflexivity|]. cbn [obind].
    now rewrite (IH Hin).
Qed.

(** A table that has grown to 256 values, or to any length that [uint8]
    wraps to a value other than [math.MaxUint8], makes the packed data
    unreadable: [unpackWays] refuses what [packWays] has just built. *)
Theorem unpackWays_packWays_wraps (ways : list overpassWay) :
  let d := packWays_doc float32 to_float32 ways in
  wraps (List.length (doc_Highways d))
  \/ wraps (List.length (doc_Accesses d))
  \/ wraps (List.length (doc_Surfaces d)) ->
  unpackWays_doc float32 of_float32 d = Some (Err "invalid cache data").
Proof.
  intros d Hw.
  assert (H0 : forall field, Covered field [] (@nil elem32))
    by (intros field k Hk; simpl in Hk; lia).
  destruct (packWays_loop_Covered ways (mk_doc [] [] [] []) (H0 _) (H0 _) (H0 _))
    as [Ch [Ca Cs]].
  fold (packWays_doc float32 to_float32 ways) in Ch, Ca, Cs. fold d in Ch, Ca, Cs.
  unfold unpackWays_doc.
  assert (Hbad : exists e, In e (doc_Ways d)
                           /\ unpackWay float32 of_float32 d e
                              = Some (Err "invalid cache data")).
  { destruct Hw as [W|[W|W]].
    - destruct (unpackTag_wraps _ _ _ Ch W) as [e [Hin He]].
      exists e. split; [exact Hin|]. unfold unpackWay. now rewrite He.
    - destruct (unpackTag_wraps _ _ _ Ca W) as [e [Hin He]].
      exists e. split; [exact Hin|]. unfold unpackWay.
      destruct (unpackTag_total (elem_Highway e) (doc_Highways d)) as [->|[h ->]];
        [reflexivity|]. cbn [obind]. now rewrite He.
    - destruct (unpackTag_wraps _ _ _ Cs W) as [e [Hin He]].
      exists e. split; [exact Hin|]. unfold unpackWay.
      destruct (unpackTag_total (elem_Highway e) (doc_Highways d)) as [->|[h ->]];
        [reflexivity|]. cbn [obind].
      destruct (unpackTag_total (elem_Access e) (doc_Accesses d)) as [->|[a ->]];
        [reflexivity|]. cbn [obind]. now rewrite He. }
  destruct Hbad as [e [Hin He]]. now apply (unpackWays_loop_bad d e He).
Qed.

End WayCacheProofs.

Lemma unpackWays_packWays_witness :
  unpackWays_doc float (fun x => x) (packWays_doc float (fun x => x) twoWays)
  = Some (Ok (map (cachedWay (fun x => x) (fun x => x)) twoWays)).
Proof.
  apply (unpackWays_packWays float (fun x => x) (fun x => x) twoWays);
    vm_compute; lia.
Defined.

Lemma unpackWays_packWays_wraps_witness :
  unpackWays_doc float (fun x => x) (packWays_doc float (fun x => x) manyWays)
  = Some (Err "invalid cache data").
Proof.
  apply (unpackWays_packWays_wraps float (fun x => x) (fun x => x) manyWays).
  left. split; vm_compute; discriminate.
Defined.

(** ** The selection of the activities *)

Lemma set_index_app {A : Type} (pre : list A) (a x : A) (post : list A) :
  set_index (pre ++ a :: post) (List.length pre) x = Some (pre ++ x :: post)%list.
Proof.
  induction pre as [|p pre IH]; simpl; [reflexivity|]. now rewrite IH.
Qed.

Lemma existsb_Permutation {A : Type} (f : A -> bool) (l l' : list A) :
  Permutation l l' -> existsb f l = existsb f l'.
Proof.
  induction 1; simpl; try congruence.
  - destruct (f x), (f y); reflexivity.
Qed.

Lemma last_cons_default {A : Type} (x : A) (l : list A) (d d' : A) :
  List.last (x :: l) d = List.last (x :: l) d'.
Proof.
  revert x. induction l as [|y l IH]; intros x; [reflexivity|].
  change (List.last (y :: l) d = List.last (y :: l) d'). apply IH.
Qed.

Section SelectionProofs.

Variable DistanceTo : Point -> Point -> float.
Variable selector : Selector.

Local Abbreviation Bounded := (fun r => Selector_Bounded DistanceTo selector (Position r)).
Local Abbreviation Starts := (fun r => Selector_Starts DistanceTo selector (Position r)).
Local Abbreviation Ends := (fun r => Selector_Ends DistanceTo selector (Position r)).
Local Abbreviation Passes := (fun r => Selector_Passes DistanceTo selector (Position r)).
Local Abbreviation scan := (scanRecords DistanceTo selector).
Local Abbreviation removes_s := (removes DistanceTo selector).
Local Abbreviation admits_s := (admits DistanceTo selector).
Local Abbreviation Parse_loop_s := (Parse_loop DistanceTo selector).
Local Abbreviation Parse_select_s := (Parse_select DistanceTo selector).
Local Abbreviation selected_s := (selected DistanceTo selector).
Local Abbreviation selectedOnto_s := (selectedOnto DistanceTo selector).

(** The loop over the records, run to its end or to its [break]. *)
Lemma scanRecords_spec :
  forall rs len j include,
    (j + List.length rs = len)%nat ->
    fst (scan len j rs include)
    = negb (forallb Bounded rs
            && match rs with
               | r :: _ => if (j =? 0)%nat then Starts r else true
               | [] => true
               end
            && match rs with
               | r :: _ => Ends (List.last rs r)
               | [] => true
               end)
    /\ (fst (scan len j rs include) = false ->
        snd (scan len j rs include) = include || existsb Passes rs).
Proof.
  induction rs as [|r rest IH]; intros len j include Hlen.
  - simpl. split; [reflexivity|]. intros _. now rewrite orb_false_r.
  - cbn [scanRecords forallb existsb]. cbv beta. simpl in Hlen.
    destruct (Selector_Bounded DistanceTo selector (Position r)) eqn:HB;
      cbn [negb andb]; [|split; [reflexivity|discriminate]].
    assert (Hlast : (j =? len - 1)%nat = match rest with [] => true | _ => false end).
    { destruct rest; simpl in Hlen; [apply Nat.eqb_eq|apply Nat.eqb_neq]; lia. }
    rewrite Hlast.
    destruct ((j =? 0)%nat && negb (Selector_Starts DistanceTo selector (Position r)))
      eqn:HS.
    { apply andb_prop in HS as [Hj HS]. rewrite Hj.
      apply negb_true_iff in HS. rewrite HS.
      split; [now rewrite andb_false_r|discriminate]. }
    assert (HS' : (if (j =? 0)%nat
                   then Selector_Starts DistanceTo selector (Position r)
                   else true) = true).
    { destruct (j =? 0)%nat; [|reflexivity]. simpl in HS.
      now apply negb_false_iff in HS. }
    rewrite HS'. cbn [andb]. rewrite andb_true_r.
    destruct rest as [|r' rest'].
    + cbn [List.last forallb andb].
      destruct (Selector_Ends DistanceTo selector (Position r)) eqn:HE;
        cbn [negb andb]; [|split; [reflexivity|discriminate]].
      cbn [scanRecords fst snd existsb]. split; [reflexivity|]. intros _.
      destruct include, (Selector_Passes DistanceTo selector (Position r)); reflexivity.
    + cbn [andb].
      match goal with
      | |- context [scan len (S j) (r' :: rest') ?inc] =>
          destruct (IH len (S j) inc ltac:(simpl in *; lia)) as [E1 E2]
      end.
      split.
      * rewrite E1. cbn [Nat.eqb]. rewrite andb_true_r.
        change (List.last (r :: r' :: rest') r) with (List.last (r' :: rest') r).
        now rewrite (last_cons_default r' rest' r r').
      * intros H. rewrite (E2 H).
        destruct include, (Selector_Passes DistanceTo selector (Position r));
          reflexivity.
Qed.

Lemma removes_spec (act : Activity) (uniq : list Z) :
  removes_s act uniq
  = Some (negb (admits_s act) || existsb (Z.eqb (startTime act)) uniq).
Proof.
  unfold removes, admits, startTime.
  destruct (Records act) as [|r rest] eqn:HR.
  - reflexivity.
  - pose proof (scanRecords_spec (r :: rest) (List.length (r :: rest)) 0
                  (Circle_IsZero (PassesThrough selector)) eq_refl) as [E1 E2].
    destruct (scan (List.length (r :: rest)) 0 (r :: rest)
                (Circle_IsZero (PassesThrough selector))) as [excluded include].
    cbn [fst snd] in E1, E2. cbn [Nat.eqb] in E1.
    change (List.length (r :: rest) =? 0)%nat with false. cbn [orb].
    destruct excluded.
    + cbn [orb]. symmetry in E1. apply negb_true_iff in E1. rewrite E1. reflexivity.
    + rewrite (E2 eq_refl). symmetry in E1. apply negb_false_iff in E1. rewrite E1.
      cbn [orb andb].
      destruct (Circle_IsZero (PassesThrough selector)
                || existsb Passes (r :: rest)); reflexivity.
Qed.

Lemma selected_selectedOnto (acts : list Activity) :
  selected_s acts = selectedOnto_s acts [].
Proof. induction acts as [|a r IH]; simpl; [reflexivity|]. now rewrite IH. Qed.

Lemma selectedOnto_Permutation :
  forall pre kept kept',
    Permutation kept kept' ->
    Permutation (selectedOnto_s pre kept) (selectedOnto_s pre kept').
Proof.
  induction pre as [|a pre IH]; intros kept kept' HP; simpl; [exact HP|].
  specialize (IH kept kept' HP). fold (selectedOnto_s pre kept) (selectedOnto_s pre kept').
  rewrite (existsb_Permutation _ _ _ (Permutation_map startTime IH)).
  destruct (admits_s a && _); [now constructor|exact IH].
Qed.

Lemma selectedOnto_snoc (pre : list Activity) (a : Activity) (kept : list Activity) :
  selectedOnto_s (pre ++ [a]) kept = selectedOnto_s pre (selectedOnto_s [a] kept).
Proof. unfold selectedOnto. now rewrite fold_right_app. Qed.

Lemma swap_remove (pre : list Activity) (a : Activity) (kept : list Activity) :
  let l := (pre ++ a :: kept)%list in
  let j := (List.length l - 1)%nat in
  exists kept' x l',
    Permutation kept' kept
    /\ nth_error l j = Some x
    /\ set_index l (List.length pre) x = Some l'
    /\ firstn j l' = (pre ++ kept')%list.
Proof.
  intros l j. subst l j.
  destruct kept as [|k0 kept0] using rev_ind.
  - exists [], a, (pre ++ [a])%list. split; [constructor|].
    rewrite length_app. cbn [List.length].
    replace (List.length pre + 1 - 1)%nat with (List.length pre) by lia.
    rewrite nth_error_app2, Nat.sub_diag by lia. cbn [nth_error].
    rewrite set_index_app.
    rewrite firstn_app, Nat.sub_diag, firstn_all. simpl. auto.
  - clear IHkept0. exists (k0 :: kept0), k0, (pre ++ k0 :: kept0 ++ [k0])%list. split.
    + apply Permutation_cons_append.
    + replace (pre ++ a :: kept0 ++ [k0])%list
        with ((pre ++ a :: kept0) ++ [k0])%list by (now rewrite <- app_assoc).
      rewrite length_app. cbn [List.length].
      replace (List.length (pre ++ a :: kept0) + 1 - 1)%nat
        with (List.length (pre ++ a :: kept0)) by lia.
      rewrite nth_error_app2, Nat.sub_diag by lia. cbn [nth_error].
      rewrite <- app_assoc. cbn [app]. rewrite set_index_app.
      replace (pre ++ k0 :: kept0 ++ [k0])%list
        with ((pre ++ k0 :: kept0) ++ [k0])%list by (now rewrite <- app_assoc).
      replace (List.length (pre ++ a :: kept0)) with (List.length (pre ++ k0 :: kept0))
        by (rewrite !length_app; reflexivity).
      rewrite firstn_app, Nat.sub_diag, firstn_all. simpl. rewrite app_nil_r. auto.
Qed.

Lemma sameKeys_Permutation (uniq : list Z) (kept kept' : list Activity) :
  Permutation kept' kept -> sameKeys uniq kept -> sameKeys uniq kept'.
Proof.
  intros HP HK t. rewrite (HK t).
  symmetry. apply existsb_Permutation. now apply Permutation_map.
Qed.

Lemma Parse_loop_spec :
  forall pre kept uniq,
    sameKeys uniq kept ->
    exists res uniq',
      Parse_loop_s (List.length pre) (pre ++ kept) uniq = Some (res, uniq')
      /\ Permutation res (selectedOnto_s pre kept).
Proof.
  induction pre as [|a pre IH] using rev_ind; intros kept uniq HK.
  - simpl. exists kept, uniq. split; [reflexivity|apply Permutation_refl].
  - rewrite length_app, Nat.add_comm. cbn [List.length Nat.add Parse_loop].
    rewrite <- app_assoc. cbn [app].
    rewrite nth_error_app2, Nat.sub_diag by lia. cbn [nth_error obind].
    rewrite removes_spec. cbn [obind].
    rewrite selectedOnto_snoc. cbn [selectedOnto fold_right].
    rewrite (HK (startTime a)).
    destruct (admits_s a) eqn:Ha; cbn [negb orb andb].
    + destruct (existsb (Z.eqb (startTime a)) (map startTime kept)) eqn:Hdup;
        cbn [negb].
      * destruct (swap_remove pre a kept) as [kept' [x [l' [HP [H1 [H2 H3]]]]]].
        cbv zeta in H1, H3. rewrite H1. cbn [obind]. rewrite H2. cbn [obind]. rewrite H3.
        destruct (IH kept' uniq (sameKeys_Permutation _ _ _ HP HK))
          as [res [uniq' [E P]]].
        exists res, uniq'. split; [exact E|].
        eapply Permutation_trans; [exact P|]. now apply selectedOnto_Permutation.
      * assert (HR : exists r rest, Records a = r :: rest).
        { unfold admits in Ha. destruct (Records a) as [|r rest]; [discriminate|eauto]. }
        destruct HR as [r [rest HR]]. rewrite HR. cbn [nth_error obind].
        destruct (IH (a :: kept) (Timestamp r :: uniq)) as [res [uniq' [E P]]].
        { intros t. cbn [map existsb]. unfold startTime at 1. rewrite HR.
          now rewrite (HK t). }
        exists res, uniq'. split; [exact E|exact P].
    + destruct (swap_remove pre a kept) as [kept' [x [l' [HP [H1 [H2 H3]]]]]].
      cbv zeta in H1, H3. rewrite H1. cbn [obind]. rewrite H2. cbn [obind]. rewrite H3.
      destruct (IH kept' uniq (sameKeys_Permutation _ _ _ HP HK))
        as [res [uniq' [E P]]].
      exists res, uniq'. split; [exact E|].
      eapply Permutation_trans; [exact P|]. now apply selectedOnto_Permutation.
Qed.

Lemma existsb_eqb_In (t : Z) (l : list Z) :
  existsb (Z.eqb t) l = true <-> In t l.
Proof.
  rewrite existsb_exists. split.
  - intros [x [Hin Hx]]. apply Z.eqb_eq in Hx. now subst.
  - intros Hin. exists t. split; [exact Hin|apply Z.eqb_refl].
Qed.

Lemma selected_spec (acts : list Activity) :
  Forall (fun a => In a acts /\ admits_s a = true) (selected_s acts)
  /\ NoDup (map startTime (selected_s acts))
  /\ (forall a, In a acts -> admits_s a = true ->
                exists b, In b (selected_s acts) /\ startTime b = startTime a).
Proof.
  induction acts as [|x rest [IH1 [IH2 IH3]]]; simpl.
  - repeat split; [constructor|constructor|intros a []].
  - assert (IH1' : Forall (fun a => (x = a \/ In a rest) /\ admits_s a = true)
                          (selected_s rest)).
    { eapply Forall_impl; [|exact IH1]. intros a [Hin Ha]. auto. }
    destruct (admits_s x) eqn:Hx; cbn [andb].
    + destruct (existsb (Z.eqb (startTime x)) (map startTime (selected_s rest)))
        eqn:Hdup; cbn [negb].
      * repeat split; [exact IH1'|exact IH2|].
        intros a [<-|Hin] Ha; [|now apply IH3].
        apply existsb_eqb_In, in_map_iff in Hdup. destruct Hdup as [b [Hb Hin]].
        exists b. auto.
      * repeat split.
        -- constructor; [auto|exact IH1'].
        -- simpl. constructor; [|exact IH2].
           intros Hin. apply existsb_eqb_In in Hin. congruence.
        -- intros a [<-|Hin] Ha; [exists x; split; [now left|reflexivity]|].
           destruct (IH3 a Hin Ha) as [b [Hb Hs]]. exists b. split; [now right|exact Hs].
    + repeat split; [exact IH1'|exact IH2|].
      intros a [<-|Hin] Ha; [congruence|now apply IH3].
Qed.

(** The loop of [Parse] removes an activity by moving the last one of the
    slice into its place, and still it selects what a plain filter would.
    It never indexes out of range.  What it returns is, up to the order,
    the list [selected]: every activity that the regions of the selector
    admit, except that of several activities with the same start time only
    the last one of the input is kept.  So every returned activity is one
    of the input and admitted, no two returned activities start at the
    same time, and every admitted activity of the input has one with its
    start time among the returned.  The error is returned exactly when
    nothing is selected. *)
Theorem Parse_selects (acts : list Activity) :
  exists res,
    Parse_select_s acts
    = Some (match res with
            | [] => Err "no matching activities found"
            | _ => Ok res
            end)
    /\ Permutation res (selected_s acts)
    /\ Forall (fun a => In a acts /\ admits_s a = true) res
    /\ NoDup (map startTime res)
    /\ (forall a, In a acts -> admits_s a = true ->
                  exists b, In b res /\ startTime b = startTime a).
Proof.
  destruct (Parse_loop_spec acts [] []) as [res [uniq [E P]]];
    [intros t; reflexivity|].
  rewrite app_nil_r in E. rewrite <- selected_selectedOnto in P.
  destruct (selected_spec acts) as [S1 [S2 S3]].
  exists res. split; [|split; [exact P|repeat split]].
  - unfold Parse_select. destruct acts as [|a acts'].
    + simpl in E. injection E as <- _. reflexivity.
    + change (List.length (a :: acts') =? 0)%nat with false. cbv iota.
      rewrite E. cbn [obind]. destruct res; reflexivity.
  - rewrite Forall_forall in *. intros a Ha. apply S1.
    now apply (Permutation_in _ P).
  - apply (Permutation_NoDup (l := map startTime (selected_s acts))); [|exact S2].
    apply Permutation_map. now apply Permutation_sym.
  - intros a Hin Ha. destruct (S3 a Hin Ha) as [b [Hb Hs]].
    exists b. split; [|exact Hs]. apply (Permutation_in _ (Permutation_sym P) Hb).
Qed.

End SelectionProofs.

(** ** [drawFill] *)

Lemma wrap64_small (z : Z) : - 2 ^ 63 <= z < 2 ^ 63 -> wrap64 z = z.
Proof. intros H. unfold wrap64. rewrite Z.mod_small; lia. Qed.

Lemma firstn_repeat_le {A : Type} (x : A) :
  forall n m, (n <= m)%nat -> firstn n (repeat x m) = repeat x n.
Proof.
  induction n as [|n IH]; intros m Hle; [reflexivity|].
  destruct m as [|m]; [lia|]. simpl. rewrite IH by lia. reflexivity.
Qed.

Lemma copy_doubling_filled {A : Type} (ci : A) (i : nat) (rest : list A) :
  (1 <= i)%nat ->
  copy_doubling (repeat ci i ++ rest) i
  = (repeat ci (i + Nat.min (List.length rest) i) ++ skipn (Nat.min (List.length rest) i) rest)%list.
Proof.
  intros Hi. unfold copy_doubling.
  rewrite length_app, repeat_length.
  replace (i + List.length rest - i)%nat with (List.length rest) by lia.
  set (n := Nat.min (List.length rest) i).
  rewrite firstn_app, repeat_length, Nat.sub_diag, firstn_all2 by (rewrite repeat_length; lia).
  cbn [firstn]. rewrite app_nil_r.
  rewrite firstn_app, repeat_length.
  replace (n - i)%nat with 0%nat by lia. cbn [firstn]. rewrite app_nil_r.
  rewrite skipn_app, repeat_length, skipn_all2 by (rewrite repeat_length; lia).
  replace (i + n - i)%nat with n by lia. cbn [app].
  rewrite repeat_app, <- app_assoc. f_equal. f_equal.
  apply firstn_repeat_le. lia.
Qed.

Lemma drawFill_loop_fills {A : Type} (ci : A) :
  forall fuel i rest,
    (1 <= i)%nat ->
    Z.of_nat (i + List.length rest) < 2 ^ 62 ->
    (List.length rest < fuel)%nat ->
    drawFill_loop fuel (Z.of_nat i) (repeat ci i ++ rest)
    = Some (repeat ci (i + List.length rest)).
Proof.
  induction fuel as [|fuel IH]; intros i rest Hi Hlen Hfuel; [lia|].
  cbn [drawFill_loop]. rewrite length_app, repeat_length.
  destruct (Z.ltb_spec (Z.of_nat i) (Z.of_nat (i + List.length rest))) as [Hlt|Hge].
  - destruct (Z.ltb_spec (Z.of_nat i) 0) as [|_]; [lia|].
    rewrite Nat2Z.id, copy_doubling_filled by exact Hi.
    set (n := Nat.min (List.length rest) i).
    assert (Hn : (1 <= n)%nat) by lia.
    destruct (Nat.le_gt_cases (List.length rest) i) as [Hle|Hgt].
    + (* the copy reaches the end of the slice *)
      replace n with (List.length rest) by lia.
      rewrite skipn_all, app_nil_r.
      destruct fuel as [|fuel']; [lia|].
      cbn [drawFill_loop]. rewrite repeat_length.
      rewrite wrap64_small by lia.
      destruct (Z.ltb_spec (Z.of_nat i * 2) (Z.of_nat (i + List.length rest)));
        [lia|reflexivity].
    + replace n with i by lia.
      rewrite wrap64_small by lia.
      replace (Z.of_nat i * 2) with (Z.of_nat (i + i)) by lia.
      rewrite IH; [f_equal; f_equal; rewrite length_skipn; lia|lia| |].
      * rewrite length_skipn. lia.
      * rewrite length_skipn. lia.
  - assert (rest = []) by (destruct rest; [reflexivity|simpl in Hge; lia]).
    subst rest. now rewrite app_nil_r, Nat.add_0_r.
Qed.

(** [drawFill] sets every pixel of the image to [ci], whatever the image
    held, by copies that double in length; the number of pixels stays.
    The bound is the one below which the doubled index does not leave the
    range of [int]. *)
Theorem drawFill_fills {A : Type} (pix : list A) (ci : A) :
  Z.of_nat (List.length pix) < 2 ^ 62 ->
  drawFill pix ci = Some (repeat ci (List.length pix)).
Proof.
  intros Hlen. unfold drawFill. destruct pix as [|p rest]; [reflexivity|].
  change (ci :: rest) with (repeat ci 1 ++ rest)%list.
  change 1 with (Z.of_nat 1).
  rewrite drawFill_loop_fills; [reflexivity|lia| |]; simpl in *; lia.
Qed.

Lemma drawFill_fills_witness :
  drawFill [3; 1; 4; 1; 5; 9; 2] 7 = Some [7; 7; 7; 7; 7; 7; 7].
Proof. apply (drawFill_fills [3; 1; 4; 1; 5; 9; 2] 7). simpl. lia. Defined.

(** ** The output file and its format *)

Section OutputNameProofs.

Variable IsPathSeparator : ascii -> bool.
Variable EqualFold : string -> string -> bool.
Hypothesis dot_is_no_separator : IsPathSeparator "." = false.

Local Abbreviation Ext := (filepath_Ext IsPathSeparator).
Local Abbreviation plain := (plainName IsPathSeparator).

Lemma existsb_str_app (f : ascii -> bool) (a b : string) :
  existsb_str f (a ++ b) = existsb_str f a || existsb_str f b.
Proof. induction a as [|c a IH]; simpl; [reflexivity|]. now rewrite IH, orb_assoc. Qed.

Lemma existsb_str_rev (f : ascii -> bool) (s : string) :
  existsb_str f (rev_str s) = existsb_str f s.
Proof.
  induction s as [|c s IH]; simpl; [reflexivity|].
  rewrite existsb_str_app, IH. simpl. rewrite orb_false_r. apply orb_comm.
Qed.

Lemma Ext_loop_plain :
  forall re r acc,
    plain re = true ->
    Ext_loop IsPathSeparator (re ++ String "." r) acc = String "." (rev_str re ++ acc).
Proof.
  induction re as [|c re IH]; intros r acc Hp.
  - simpl. rewrite dot_is_no_separator. reflexivity.
  - unfold plainName in Hp. cbn [existsb_str] in Hp.
    apply negb_true_iff, orb_false_elim in Hp. destruct Hp as [Hc He].
    apply orb_false_elim in Hc. destruct Hc as [Hsep Hdot].
    cbn [append Ext_loop]. rewrite Hsep, Hdot.
    rewrite IH by (unfold plainName; now rewrite He).
    cbn [rev_str]. now rewrite append_assoc.
Qed.

Lemma Ext_plain (base e : string) :
  plain e = true -> Ext (base ++ "." ++ e) = "." ++ e.
Proof.
  intros Hp. unfold filepath_Ext.
  change ("." ++ e) with (String "." e).
  rewrite rev_str_app. cbn [rev_str]. rewrite append_assoc. cbn [append].
  rewrite Ext_loop_plain.
  - now rewrite rev_str_involutive, append_nil_r.
  - unfold plainName in *. now rewrite existsb_str_rev.
Qed.

Lemma eqb_empty_String (c : ascii) (s : string) :
  String.eqb (String c s) EmptyString = false.
Proof. reflexivity. Qed.

(** The format that [worms.Run] derives from the output path.  With a
    format given, the format is kept and nothing panics.  With no format,
    an output path whose extension is [c] followed by [rest] gives the
    format [rest], the extension without its first byte, or [gif] when
    [rest] is empty, and the format is appended to the path unless it
    equals the extension up to case; an output path that ends in a dot
    makes the second [ext[1:]] panic. *)
Theorem worms_Run_format :
  (forall output format,
      format <> EmptyString ->
      exists output', worms_outputFormat IsPathSeparator EqualFold output format
                      = Some (output', format))
  /\ (forall base c rest,
         plain (String c rest) = true ->
         let output := base ++ "." ++ String c rest in
         let format := if String.eqb rest EmptyString then "gif" else rest in
         worms_outputFormat IsPathSeparator EqualFold output EmptyString
         = Some (if EqualFold (String c rest) format then output
                 else output ++ "." ++ format,
                 format))
  /\ (forall base,
         worms_outputFormat IsPathSeparator EqualFold (base ++ ".") EmptyString = None).
Proof.
  repeat split.
  - intros output format Hf. unfold worms_outputFormat.
    assert (Hne : String.eqb format EmptyString = false)
      by (apply String.eqb_neq; exact Hf).
    destruct (String.eqb (Ext output) EmptyString) eqn:He; cbn [negb].
    + cbn [obind]. rewrite Hne. eauto.
    + destruct (Ext output) as [|x ext]; [discriminate He|].
      cbn [tail1 obind]. rewrite Hne. cbn [obind]. rewrite Hne. eauto.
  - intros base c rest Hp output format. subst output format.
    unfold worms_outputFormat. rewrite (Ext_plain base _ Hp).
    cbn [append String.eqb negb tail1 obind].
    destruct (EqualFold (String c rest)
                (if String.eqb rest EmptyString then "gif" else rest));
      reflexivity.
  - intros base. unfold worms_outputFormat.
    replace (base ++ ".") with (base ++ "." ++ EmptyString) by reflexivity.
    rewrite (Ext_plain base EmptyString eq_refl). reflexivity.
Qed.

(** [paint.Run] leaves an output path that has an extension, and a path
    that had one as it was. *)
Theorem paint_Run_output_has_extension (output : string) :
  plain "png" = true ->
  Ext (paint_output IsPathSeparator output) <> EmptyString
  /\ (Ext output <> EmptyString -> paint_output IsPathSeparator output = output).
Proof.
  intros Hpng. unfold paint_output.
  destruct (String.eqb_spec (Ext output) EmptyString) as [He|Hne].
  - split; [|congruence].
    change (output ++ ".png") with (output ++ "." ++ "png").
    rewrite (Ext_plain output "png" Hpng). discriminate.
  - split; [exact Hne|reflexivity].
Qed.

End OutputNameProofs.

Lemma worms_Run_format_witness :
  worms_outputFormat unixSeparator String.eqb "out/worms.gif" EmptyString
  = Some ("out/worms.gif.if", "if").
Proof.
  apply (proj1 (proj2 (worms_Run_format unixSeparator String.eqb eq_refl))
           "out/worms" "g"%char "if" eq_refl).
Defined.

Lemma paint_Run_output_has_extension_witness :
  filepath_Ext unixSeparator (paint_output unixSeparator "out/map") <> EmptyString.
Proof.
  apply (proj1 (paint_Run_output_has_extension unixSeparator eq_refl "out/map" eq_refl)).
Defined.

(** ** [gifWriter] and [pngWriter] *)

Section WriterProofs.

Variable W : Type.
Variable Writer_Write : list ascii -> W -> (nat * option string) * W.
Variable Writer_WriteByte : ascii -> W -> option string * W.
Variable crc32_IEEE : list ascii -> N.

(** The bytes that the underlying writer has taken. *)
Variable contents : W -> list ascii.

Hypothesis Write_appends :
  forall p w, exists w',
      Writer_Write p w = ((List.length p, None), w') /\ contents w' = (contents w ++ p)%list.
Hypothesis WriteByte_appends :
  forall c w, exists w',
      Writer_WriteByte c w = (None, w') /\ contents w' = (contents w ++ [c])%list.

Local Abbreviation gifWrite := (gifWriter_Write W Writer_Write Writer_WriteByte).
Local Abbreviation gifWrites := (gifWriter_Writes W Writer_Write Writer_WriteByte).
Local Abbreviation pngWrite := (pngWriter_Write W Writer_Write crc32_IEEE).
Local Abbreviation pngWrites := (pngWriter_Writes W Writer_Write crc32_IEEE).

Lemma bytes_of_string_length (s : string) :
  List.length (bytes_of_string s) = String.length s.
Proof. induction s as [|c s IH]; simpl; [reflexivity|]. now rewrite IH. Qed.

Lemma writeExtension_appends (comment : string) (w : W) :
  exists w',
    gifWriter_writeExtension W Writer_Write Writer_WriteByte
      (bytes_of_string comment) (byte_of_nat 254) w
    = ((List.length (commentExtension comment), None), w')
    /\ contents w' = (contents w ++ commentExtension comment)%list.
Proof.
  unfold gifWriter_writeExtension, commentExtension.
  destruct (Write_appends [byte_of_nat 33; byte_of_nat 254;
                           byte_of_nat (List.length (bytes_of_string comment))] w)
    as [w1 [E1 C1]].
  rewrite E1.
  destruct (Write_appends (bytes_of_string comment) w1) as [w2 [E2 C2]]. rewrite E2.
  destruct (WriteByte_appends (byte_of_nat 0) w2) as [w3 [E3 C3]]. rewrite E3.
  exists w3. split.
  - f_equal. f_equal. rewrite !length_app. simpl. lia.
  - rewrite C3, C2, C1, bytes_of_string_length, <- !app_assoc. reflexivity.
Qed.

Lemma gifWrite_appends (p : list ascii) (w : gifWriter W) :
  let inserted := negb (gif_done w) && isApplicationExtension p in
  let block := if inserted then commentExtension (gif_Comment w) else [] in
  exists u,
    gifWrite p w
    = ((List.length (block ++ p), None),
       mk_gifWriter u (gif_Comment w) (gif_done w || inserted))
    /\ contents u = (contents (gif_Writer w) ++ block ++ p)%list.
Proof.
  intros inserted block. subst inserted block. unfold gifWriter_Write.
  destruct (negb (gif_done w) && isApplicationExtension p) eqn:Hi.
  - destruct (writeExtension_appends (gif_Comment w) (gif_Writer w)) as [u1 [E1 C1]].
    rewrite E1. cbn [gif_Writer gif_Comment gif_done].
    destruct (Write_appends p u1) as [u2 [E2 C2]]. rewrite E2.
    exists u2. split.
    + rewrite length_app, orb_true_r. reflexivity.
    + now rewrite C2, C1, <- app_assoc.
  - destruct (Write_appends p (gif_Writer w)) as [u [E C]]. rewrite E.
    exists u. split; [now rewrite orb_false_r|exact C].
Qed.

(** The stream that [gifWriter] leaves.  On an underlying writer that
    takes every byte, the writes [ps] come out unchanged and in order, with
    the comment extension once, directly in front of the first write that
    is the header of an application extension; each write reports the
    bytes of its own and of the comment it has put in front, and none
    fails.  A writer whose flag is set passes everything through. *)
Theorem gifWriter_inserts_comment_once :
  forall ps w,
    let stream :=
      if gif_done w then List.concat ps
      else insertBefore isApplicationExtension (commentExtension (gif_Comment w)) ps in
    contents (gif_Writer (snd (gifWrites ps w)))
    = (contents (gif_Writer w) ++ stream)%list
    /\ Forall (fun r => snd r = None) (fst (gifWrites ps w))
    /\ list_sum (map fst (fst (gifWrites ps w))) = List.length stream
    /\ gif_done (snd (gifWrites ps w)) = gif_done w || existsb isApplicationExtension ps.
Proof.
  induction ps as [|p rest IH]; intros w stream; subst stream.
  - simpl. repeat split; [destruct (gif_done w); now rewrite app_nil_r|constructor
                          |now destruct (gif_done w)|now rewrite orb_false_r].
  - cbn [gifWriter_Writes].
    destruct (gifWrite_appends p w) as [u [E C]]. cbv zeta in E, C. rewrite E.
    set (w1 := mk_gifWriter u (gif_Comment w)
                 (gif_done w || negb (gif_done w) && isApplicationExtension p)) in *.
    specialize (IH w1). cbv zeta in IH.
    destruct (gifWrites rest w1) as [rs w2]. cbn [fst snd] in *.
    destruct IH as [IHc [IHe [IHn IHd]]]. cbn [gif_Writer gif_Comment gif_done w1] in *.
    unfold list_sum in *.
    destruct (gif_done w) eqn:Hd; cbn [negb andb orb] in *.
    + repeat split.
      * rewrite IHc, C. cbn [List.concat app]. now rewrite <- app_assoc.
      * constructor; [reflexivity|exact IHe].
      * cbn [map fold_right fst List.concat app]. rewrite IHn, !length_app. reflexivity.
      * exact IHd.
    + cbn [insertBefore existsb]. destruct (isApplicationExtension p) eqn:Hp.
      * repeat split.
        -- rewrite IHc, C. now rewrite <- !app_assoc.
        -- constructor; [reflexivity|exact IHe].
        -- cbn [map fold_right fst]. rewrite IHn, !length_app. lia.
        -- exact IHd.
      * repeat split.
        -- rewrite IHc, C. cbn [app]. now rewrite <- app_assoc.
        -- constructor; [reflexivity|exact IHe].
        -- cbn [map fold_right fst app]. rewrite IHn, !length_app. reflexivity.
        -- exact IHd.
Qed.

Lemma writeChunk_appends (text : string) (w : W) :
  exists w',
    pngWriter_writeChunk W Writer_Write crc32_IEEE (bytes_of_string text) "tEXt" w
    = ((List.length (textChunk crc32_IEEE text), None), w')
    /\ contents w' = (contents w ++ textChunk crc32_IEEE text)%list.
Proof.
  unfold pngWriter_writeChunk, textChunk.
  rewrite bytes_of_string_length.
  set (len4 := BigEndian_uint32 (N.of_nat (String.length text))).
  change (firstn 4 (bytes_of_string "tEXt" ++ repeat (byte_of_nat 0) 4))
    with (bytes_of_string "tEXt").
  assert (Hskip : skipn 4 (len4 ++ bytes_of_string "tEXt") = bytes_of_string "tEXt")
    by reflexivity.
  rewrite Hskip.
  set (crc4 := BigEndian_uint32
                 (crc32_IEEE (bytes_of_string "tEXt" ++ bytes_of_string text))).
  destruct (Write_appends (len4 ++ bytes_of_string "tEXt") w) as [w1 [E1 C1]].
  rewrite E1.
  destruct (Write_appends (bytes_of_string text) w1) as [w2 [E2 C2]]. rewrite E2.
  destruct (Write_appends crc4 w2) as [w3 [E3 C3]]. rewrite E3.
  exists w3. split.
  - f_equal. f_equal. rewrite !length_app. lia.
  - rewrite C3, C2, C1, <- !app_assoc. reflexivity.
Qed.

Lemma pngWrite_appends (p : list ascii) (w : pngWriter W) :
  let inserted := negb (png_done w) && isDataChunk p in
  let block := if inserted then textChunk crc32_IEEE (png_Text w) else [] in
  exists u,
    pngWrite p w
    = ((List.length (block ++ p), None),
       mk_pngWriter u (png_Text w) (png_done w || inserted))
    /\ contents u = (contents (png_Writer w) ++ block ++ p)%list.
Proof.
  intros inserted block. subst inserted block. unfold pngWriter_Write.
  destruct (negb (png_done w) && isDataChunk p) eqn:Hi.
  - destruct (writeChunk_appends (png_Text w) (png_Writer w)) as [u1 [E1 C1]].
    rewrite E1. cbn [png_Writer png_Text png_done].
    destruct (Write_appends p u1) as [u2 [E2 C2]]. rewrite E2.
    exists u2. split.
    + rewrite length_app, orb_true_r. reflexivity.
    + now rewrite C2, C1, <- app_assoc.
  - destruct (Write_appends p (png_Writer w)) as [u [E C]]. rewrite E.
    exists u. split; [now rewrite orb_false_r|exact C].
Qed.

(** The stream that [pngWriter] leaves.  On an underlying writer that
    takes every byte, the writes [ps] come out unchanged and in order, with
    the text chunk once, directly in front of the first write of at least
    eight bytes whose bytes four to seven are [IDAT]; the chunk is the
    length of the text in four bytes, [tEXt], the text, and the checksum
    of [tEXt] and the text in four bytes. *)
Theorem pngWriter_inserts_text_once :
  forall ps w,
    let stream :=
      if png_done w then List.concat ps
      else insertBefore isDataChunk (textChunk crc32_IEEE (png_Text w)) ps in
    contents (png_Writer (snd (pngWrites ps w)))
    = (contents (png_Writer w) ++ stream)%list
    /\ Forall (fun r => snd r = None) (fst (pngWrites ps w))
    /\ list_sum (map fst (fst (pngWrites ps w))) = List.length stream
    /\ png_done (snd (pngWrites ps w)) = png_done w || existsb isDataChunk ps.
Proof.
  induction ps as [|p rest IH]; intros w stream; subst stream.
  - simpl. repeat split; [destruct (png_done w); now rewrite app_nil_r|constructor
                          |now destruct (png_done w)|now rewrite orb_false_r].
  - cbn [pngWriter_Writes].
    destruct (pngWrite_appends p w) as [u [E C]]. cbv zeta in E, C. rewrite E.
    set (w1 := mk_pngWriter u (png_Text w)
                 (png_done w || negb (png_done w) && isDataChunk p)) in *.
    specialize (IH w1). cbv zeta in IH.
    destruct (pngWrites rest w1) as [rs w2]. cbn [fst snd] in *.
    destruct IH as [IHc [IHe [IHn IHd]]]. cbn [png_Writer png_Text png_done w1] in *.
    unfold list_sum in *.
    destruct (png_done w) eqn:Hd; cbn [negb andb orb] in *.
    + repeat split.
      * rewrite IHc, C. cbn [List.concat app]. now rewrite <- app_assoc.
      * constructor; [reflexivity|exact IHe].
      * cbn [map fold_right fst List.concat app]. rewrite IHn, !length_app. reflexivity.
      * exact IHd.
    + cbn [insertBefore existsb]. destruct (isDataChunk p) eqn:Hp.
      * repeat split.
        -- rewrite IHc, C. now rewrite <- !app_assoc.
        -- constructor; [reflexivity|exact IHe].
        -- cbn [map fold_right fst]. rewrite IHn, !length_app. lia.
        -- exact IHd.
      * repeat split.
        -- rewrite IHc, C. cbn [app]. now rewrite <- app_assoc.
        -- constructor; [reflexivity|exact IHe].
        -- cbn [map fold_right fst app]. rewrite IHn, !length_app. reflexivity.
        -- exact IHd.
Qed.

End WriterProofs.

Lemma buffer_Write_appends (p w : list ascii) :
  exists w', buffer_Write p w = ((List.length p, None), w')
             /\ (fun x : list ascii => x) w' = (w ++ p)%list.
Proof. eexists. split; reflexivity. Qed.

Lemma buffer_WriteByte_appends (c : ascii) (w : list ascii) :
  exists w', buffer_WriteByte c w = (None, w')
             /\ (fun x : list ascii => x) w' = (w ++ [c])%list.
Proof. eexists. split; reflexivity. Qed.

Lemma gifWriter_inserts_comment_once_witness :
  gif_Writer
    (snd (gifWriter_Writes (list ascii) buffer_Write buffer_WriteByte
            [bytes_of_string "GIF89a";
             [byte_of_nat 33; byte_of_nat 255; byte_of_nat 11];
             bytes_of_string "NETSCAPE2.0"]
            (mk_gifWriter [] "hi" false)))
  = (bytes_of_string "GIF89a"
     ++ [byte_of_nat 33; byte_of_nat 254; byte_of_nat 2] ++ bytes_of_string "hi"
     ++ [byte_of_nat 0]
     ++ [byte_of_nat 33; byte_of_nat 255; byte_of_nat 11]
     ++ bytes_of_string "NETSCAPE2.0")%list.
Proof.
  apply (proj1 (gifWriter_inserts_comment_once (list ascii) buffer_Write
                  buffer_WriteByte (fun x => x) buffer_Write_appends
                  buffer_WriteByte_appends
                  [bytes_of_string "GIF89a";
                   [byte_of_nat 33; byte_of_nat 255; byte_of_nat 11];
                   bytes_of_string "NETSCAPE2.0"]
                  (mk_gifWriter [] "hi" false))).
Defined.

Lemma pngWriter_inserts_text_once_witness :
  png_Writer
    (snd (pngWriter_Writes (list ascii) buffer_Write (fun _ => 0%N)
            [bytes_of_string "0000IHDR"; bytes_of_string "0000IDATxy"]
            (mk_pngWriter [] "hi" false)))
  = (bytes_of_string "0000IHDR"
     ++ textChunk (fun _ => 0%N) "hi" ++ bytes_of_string "0000IDATxy")%list.
Proof.
  apply (proj1 (pngWriter_inserts_text_once (list ascii) buffer_Write (fun _ => 0%N)
                  (fun x => x) buffer_Write_appends
                  [bytes_of_string "0000IHDR"; bytes_of_string "0000IDATxy"]
                  (mk_pngWriter [] "hi" false))).
Defined.

(** ** The pixel pass of [optimizeFrames] *)

Lemma againstBuffer_app (t : N) (b1 i1 b2 i2 : list N) :
  List.length b1 = List.length i1 ->
  againstBuffer t (b1 ++ b2) (i1 ++ i2)
  = (againstBuffer t b1 i1 ++ againstBuffer t b2 i2)%list.
Proof.
  revert i1. induction b1 as [|x b1 IH]; intros [|y i1] H; try discriminate; [reflexivity|].
  unfold againstBuffer in *. simpl. f_equal. apply IH. now injection H.
Qed.

Lemma againstBuffer_length (t : N) (b i : list N) :
  List.length b = List.length i -> List.length (againstBuffer t b i) = List.length i.
Proof.
  intros H. unfold againstBuffer. rewrite length_map, length_combine. lia.
Qed.

Lemma againstBuffer_same (t : N) (b i : list N) :
  Forall2 (fun x y => N.eqb x y = true) b i ->
  againstBuffer t b i = repeat t (List.length i) /\ b = i.
Proof.
  induction 1 as [|x y b i Hxy _ [IH1 IH2]]; [split; reflexivity|].
  apply N.eqb_eq in Hxy. subst y. unfold againstBuffer in *. simpl.
  rewrite N.eqb_refl, IH1, IH2. split; reflexivity.
Qed.

Lemma againstBuffer_differ (t : N) (b i : list N) :
  Forall2 (fun x y => N.eqb x y = false) b i -> againstBuffer t b i = i.
Proof.
  induction 1 as [|x y b i Hxy _ IH]; [reflexivity|].
  unfold againstBuffer in *. simpl. now rewrite Hxy, IH.
Qed.

Lemma growTrans_repeat (t : N) (n : nat) :
  forall fuel k,
    (1 <= k)%nat -> (n <= k + fuel)%nat ->
    exists k', growTrans fuel (repeat t k) n = repeat t k' /\ (n <= k')%nat /\ (1 <= k')%nat.
Proof.
  induction fuel as [|fuel IH]; intros k Hk Hn; simpl.
  - exists k. repeat split; lia.
  - rewrite repeat_length. destruct (Nat.ltb_spec k n) as [Hlt|Hge].
    + rewrite <- repeat_app. apply IH; lia.
    + exists k. repeat split; lia.
Qed.

Lemma copy_at_middle {A : Type} (a b c seg : list A) :
  List.length seg = List.length b ->
  copy_at (a ++ b ++ c) (List.length a) seg = (a ++ seg ++ c)%list.
Proof.
  intros H. unfold copy_at.
  rewrite firstn_app, Nat.sub_diag, firstn_all. cbn [firstn]. rewrite app_nil_r.
  rewrite skipn_app, skipn_all2 by lia.
  replace (List.length a + List.length seg - List.length a)%nat
    with (List.length b) by lia.
  rewrite skipn_app, skipn_all, Nat.sub_diag. reflexivity.
Qed.

Lemma segment_middle {A : Type} (a b c : list A) :
  firstn (List.length b) (skipn (List.length a) (a ++ b ++ c)) = b.
Proof.
  rewrite skipn_app, skipn_all, Nat.sub_diag. cbn [skipn app].
  rewrite firstn_app, firstn_all, Nat.sub_diag. cbn [firstn]. now rewrite app_nil_r.
Qed.

Lemma nth_error_middle {A : Type} (a b c : list A) (x : A) :
  nth_error (a ++ b ++ x :: c) (List.length a + List.length b) = Some x.
Proof.
  rewrite app_assoc, nth_error_app2 by (rewrite length_app; lia).
  rewrite length_app, Nat.sub_diag. reflexivity.
Qed.

Section FrameScan.

Variable stride : nat.
Variable t : N.
Hypothesis stride_positive : stride <> 0%nat.

Lemma flushRun_spec (same : bool) (k : nat)
      (idone bdone irun brun irest brest : list N) :
  List.length idone = List.length bdone ->
  List.length irun = List.length brun ->
  Forall2 (fun b p => N.eqb b p = same) brun irun ->
  (1 <= k)%nat ->
  exists k',
    flushRun (List.length idone + List.length irun)
      (mk_frameScan same (List.length idone) (repeat t k)
         (idone ++ brun ++ brest)
         (againstBuffer t bdone idone ++ irun ++ irest))
    = mk_frameScan (negb same) (List.length idone + List.length irun) (repeat t k')
        ((idone ++ irun) ++ brest)
        (againstBuffer t (bdone ++ brun) (idone ++ irun) ++ irest)
    /\ (1 <= k')%nat.
Proof.
  intros Hd Hr HF Hk. unfold flushRun. cbn [fs_same fs_j0 fs_trans fs_buf fs_im].
  replace (List.length idone + List.length irun - List.length idone)%nat
    with (List.length irun) by lia.
  rewrite againstBuffer_app by (symmetry; exact Hd).
  destruct same.
  - destruct (againstBuffer_same t brun irun HF) as [HA HB].
    destruct (growTrans_repeat t (List.length irun) (List.length irun) k Hk ltac:(lia))
      as [k' [Hg [Hn Hk']]].
    exists k'. split; [|exact Hk']. rewrite Hg. f_equal.
    + rewrite HB. now rewrite <- app_assoc.
    + rewrite <- (againstBuffer_length t bdone idone) at 1 by (symmetry; exact Hd).
      rewrite copy_at_middle.
      * rewrite HA, firstn_repeat_le by exact Hn. now rewrite <- app_assoc.
      * rewrite firstn_repeat_le, repeat_length by exact Hn. reflexivity.
  - exists k. split; [|exact Hk]. f_equal.
    + rewrite <- (againstBuffer_length t bdone idone) at 2 by (symmetry; exact Hd).
      rewrite segment_middle. rewrite copy_at_middle by exact Hr.
      now rewrite <- app_assoc.
    + rewrite (againstBuffer_differ t brun irun HF). now rewrite <- app_assoc.
Qed.

Lemma Forall2_snoc {A B : Type} (R : A -> B -> Prop) (l : list A) (l' : list B)
      (x : A) (y : B) :
  Forall2 R l l' -> R x y -> Forall2 R (l ++ [x]) (l' ++ [y]).
Proof. intros H Hxy. apply Forall2_app; [exact H|]. constructor; [exact Hxy|constructor]. Qed.

Lemma scanFrame_loop_S (n j : nat) (s : frameScan) :
  scanFrame_loop stride (S n) j s
  = (s' <- scanFrame_step stride j s ;; scanFrame_loop stride n (S j) s').
Proof. reflexivity. Qed.

Lemma scanFrame_loop_run :
  forall irest brest idone bdone irun brun same k,
    List.length idone = List.length bdone ->
    List.length irun = List.length brun ->
    (1 <= List.length irun)%nat ->
    List.length irest = List.length brest ->
    Forall2 (fun b p => N.eqb b p = same) brun irun ->
    (1 <= k)%nat ->
    exists same' k',
      scanFrame_loop stride (S (List.length irest))
        (List.length idone + List.length irun)
        (mk_frameScan same (List.length idone) (repeat t k)
           (idone ++ brun ++ brest)
           (againstBuffer t bdone idone ++ irun ++ irest))
      = Some (mk_frameScan same'
                (List.length idone + List.length irun + List.length irest)
                (repeat t k')
                (idone ++ irun ++ irest)
                (againstBuffer t (bdone ++ brun ++ brest) (idone ++ irun ++ irest)))
      /\ (1 <= k')%nat.
Proof.
  induction irest as [|p irest IH];
    intros brest idone bdone irun brun same k Hd Hr Hn Hrest HF Hk.
  - destruct brest; [|discriminate Hrest]. clear Hrest.
    cbn [List.length]. rewrite scanFrame_loop_S. unfold scanFrame_step.
    destruct (Nat.eqb_spec (List.length idone + List.length irun) 0) as [|_]; [lia|].
    cbn [fs_im fs_buf fs_same].
    rewrite !length_app, againstBuffer_length by (symmetry; exact Hd).
    cbn [List.length]. rewrite Nat.add_0_r, Nat.eqb_refl. cbn [obind].
    destruct (Nat.eqb_spec stride 0) as [|_]; [contradiction|].
    destruct (flushRun_spec same k idone bdone irun brun [] [] Hd Hr HF Hk)
      as [k' [E Hk']].
    rewrite E. cbn [obind scanFrame_loop]. exists (negb same), k'. split; [|exact Hk'].
    rewrite !app_nil_r, Nat.add_0_r. reflexivity.
  - destruct brest as [|b brest]; [discriminate Hrest|].
    injection Hrest as Hrest.
    cbn [List.length]. rewrite scanFrame_loop_S. unfold scanFrame_step at 1.
    destruct (Nat.eqb_spec (List.length idone + List.length irun) 0) as [|_]; [lia|].
    cbn [fs_im fs_buf fs_same].
    rewrite !length_app, againstBuffer_length by (symmetry; exact Hd).
    cbn [List.length].
    destruct (Nat.eqb_spec (List.length idone + List.length irun)
                (List.length idone + (List.length irun + S (List.length irest))))
      as [|_]; [lia|].
    assert (Hb : nth_error (idone ++ brun ++ b :: brest)
                   (List.length idone + List.length irun) = Some b)
      by (rewrite Hr; apply nth_error_middle).
    assert (Hp : nth_error (againstBuffer t bdone idone ++ irun ++ p :: irest)
                   (List.length idone + List.length irun) = Some p).
    { rewrite <- (againstBuffer_length t bdone idone) by (symmetry; exact Hd).
      apply nth_error_middle. }
    rewrite Hb, Hp. cbn [obind].
    destruct (Bool.eqb (N.eqb b p) same) eqn:Hbp; cbn [negb].
    + (* the run goes on *)
      apply eqb_prop in Hbp.
      destruct (IH brest idone bdone (irun ++ [p])%list (brun ++ [b])%list same k)
        as [same' [k' [E Hk']]]; try assumption.
      * rewrite !length_app. simpl. lia.
      * rewrite length_app. simpl. lia.
      * apply Forall2_snoc; assumption.
      * exists same', k'. split; [|exact Hk'].
        rewrite length_app in E. cbn [List.length] in E.
        replace (List.length idone + (List.length irun + 1))%nat
          with (S (List.length idone + List.length irun)) in E by lia.
        rewrite <- !app_assoc in E. cbn [app] in E. cbn [obind]. rewrite E.
        f_equal. f_equal. lia.
    + (* the run ends *)
      destruct (Nat.eqb_spec stride 0) as [|_]; [contradiction|].
      destruct (flushRun_spec same k idone bdone irun brun (p :: irest) (b :: brest)
                  Hd Hr HF Hk) as [k1 [E1 Hk1]].
      rewrite E1. cbn [obind].
      destruct (IH brest (idone ++ irun)%list (bdone ++ brun)%list [p] [b]
                  (negb same) k1) as [same' [k' [E Hk']]]; try assumption.
      * rewrite !length_app. lia.
      * reflexivity.
      * simpl. lia.
      * constructor; [|constructor].
        destruct (N.eqb b p), same; try reflexivity; discriminate Hbp.
      * exists same', k'. split; [|exact Hk'].
        rewrite length_app in E. cbn [List.length] in E.
        replace (List.length idone + List.length irun + 1)%nat
          with (S (List.length idone + List.length irun)) in E by lia.
        cbn [app] in E. rewrite E. rewrite <- !app_assoc. cbn [app]. f_equal. f_equal. lia.
Qed.

Lemma scanFrame_spec (k : nat) (buf im : list N) :
  List.length im = List.length buf -> im <> [] -> (1 <= k)%nat ->
  exists same' k',
    scanFrame stride (repeat t k) buf im
    = Some (mk_frameScan same' (List.length im) (repeat t k') im (againstBuffer t buf im))
    /\ (1 <= k')%nat.
Proof.
  intros Hlen Hne Hk. destruct im as [|p irest]; [contradiction|].
  destruct buf as [|b brest]; [discriminate Hlen|]. injection Hlen as Hlen.
  unfold scanFrame. cbn [List.length]. rewrite scanFrame_loop_S.
  unfold scanFrame_step at 1. cbn [Nat.eqb fs_buf fs_im nth_error obind fs_j0 fs_trans].
  destruct (scanFrame_loop_run irest brest [] [] [p] [b] (N.eqb b p) k
              eq_refl eq_refl ltac:(simpl; lia) Hlen
              ltac:(constructor; [reflexivity|constructor]) Hk)
    as [same' [k' [E Hk']]].
  exists same', k'. split; [|exact Hk']. exact E.
Qed.

Lemma optimizeFrames_rest_spec :
  forall ims buf k,
    buf <> [] -> (1 <= k)%nat ->
    Forall (fun im => List.length im = List.length buf) ims ->
    optimizeFrames_rest stride (repeat t k) buf ims = Some (deltaFrames t buf ims).
Proof.
  induction ims as [|im rest IH]; intros buf k Hne Hk HF; [reflexivity|].
  inversion HF as [|x l Hlen HF']; subst.
  assert (Him : im <> []) by (destruct im, buf; simpl in *; congruence).
  destruct (scanFrame_spec k buf im Hlen Him Hk) as [same' [k' [E Hk']]].
  cbn [optimizeFrames_rest deltaFrames]. rewrite E.
  cbn [obind fs_trans fs_buf fs_im].
  rewrite (IH im k' Him Hk'); [reflexivity|].
  eapply Forall_impl; [|exact HF']. intros a Ha. cbv beta in Ha. congruence.
Qed.

(** [optimizeFrames] scans every frame run by run, and what it leaves is
    the frame compared pixel by pixel with the frame before it as it was:
    a pixel that repeats the one before is the last index of the palette,
    any other pixel is kept; the first frame stays.  It indexes nothing
    out of range on frames of one size that have a pixel.  On frames
    without a pixel the first comparison is out of range. *)
Theorem optimizeFrames_is_pointwise :
  (forall im0 rest,
      im0 <> [] ->
      Forall (fun im => List.length im = List.length im0) rest ->
      optimizeFrames_pixels stride t (im0 :: rest)
      = Some (im0 :: deltaFrames t im0 rest))
  /\ (forall rest, optimizeFrames_pixels stride t ([] :: [] :: rest) = None).
Proof.
  split.
  - intros im0 rest Hne HF. unfold optimizeFrames_pixels.
    change [t] with (repeat t 1).
    now rewrite (optimizeFrames_rest_spec rest im0 1 Hne (le_n 1) HF).
  - reflexivity.
Qed.

End FrameScan.

Lemma optimizeFrames_is_pointwise_witness :
  optimizeFrames_pixels 3 255 [[1; 2; 3; 4; 5; 6]; [1; 2; 9; 9; 5; 6]; [1; 2; 9; 4; 5; 7]]%N
  = Some [[1; 2; 3; 4; 5; 6]; [255; 255; 9; 9; 255; 255]; [255; 255; 255; 4; 255; 7]]%N.
Proof.
  apply (proj1 (optimizeFrames_is_pointwise 3 255%N ltac:(discriminate))
           [1; 2; 3; 4; 5; 6]%N [[1; 2; 9; 9; 5; 6]; [1; 2; 9; 4; 5; 7]]%N).
  - discriminate.
  - repeat constructor.
Defined.

(** ** [glowPlotter] *)

Lemma set_pix_length (pix : list N) (ci : N) :
  forall i, List.length (set_pix pix i ci) = List.length pix.
Proof.
  induction pix as [|a r IH]; intros [|i]; simpl; try reflexivity. now rewrite IH.
Qed.

Lemma set_pix_nth (pix : list N) (ci : N) :
  forall i j,
    nth j (set_pix pix i ci) 0%N
    = if (j =? i)%nat && (i <? List.length pix)%nat then ci else nth j pix 0%N.
Proof.
  induction pix as [|a r IH]; intros [|i] [|j]; simpl; try reflexivity.
  - destruct (j =? i)%nat; reflexivity.
  - rewrite IH. reflexivity.
Qed.

Lemma Lowered_refl (p : Paletted) : Lowered p p.
Proof. unfold Lowered. repeat split; intros; apply N.le_refl. Qed.

Lemma Lowered_trans (p q r : Paletted) : Lowered p q -> Lowered q r -> Lowered p r.
Proof.
  unfold Lowered. intros [? [? [? [? [? [? [? Hpq]]]]]]] [? [? [? [? [? [? [? Hqr]]]]]]].
  repeat split; try congruence.
  intros i. eapply N.le_trans; [apply Hqr|apply Hpq].
Qed.

Lemma Lowered_wellFormed (p q : Paletted) :
  Lowered p q -> wellFormedImage p -> wellFormedImage q.
Proof.
  unfold Lowered, wellFormedImage.
  intros [-> [-> [-> [-> [-> [_ [-> _]]]]]]]. auto.
Qed.

Lemma PixOffset_in_range (p : Paletted) (x y : Z) :
  wellFormedImage p -> inRect p x y = true ->
  0 <= PixOffset p x y < Z.of_nat (List.length (Pix p)).
Proof.
  unfold wellFormedImage, inRect, PixOffset. intros [Hs Hl] Hin.
  apply andb_prop in Hin as [Hin Hy2]. apply andb_prop in Hin as [Hin Hy1].
  apply andb_prop in Hin as [Hx1 Hx2].
  apply Z.leb_le in Hx1, Hy1. apply Z.ltb_lt in Hx2, Hy2.
  specialize (Hl ltac:(lia) ltac:(lia)). nia.
Qed.

Lemma setPixIfLower_spec (x y : Z) (ci : N) (p : Paletted) :
  wellFormedImage p ->
  exists lowered q,
    setPixIfLower x y ci p = Some (lowered, q)
    /\ Lowered p q
    /\ (lowered = true <->
        inRect p x y = true
        /\ (ci < nth (Z.to_nat (PixOffset p x y)) (Pix p) 0)%N)
    /\ (lowered = false -> q = p).
Proof.
  intros Hwf. unfold setPixIfLower.
  destruct (inRect p x y) eqn:Hin.
  - pose proof (PixOffset_in_range p x y Hwf Hin) as Hr.
    destruct (Z.ltb_spec (PixOffset p x y) 0) as [|_]; [lia|].
    destruct (nth_error (Pix p) (Z.to_nat (PixOffset p x y))) as [old|] eqn:Hn.
    + cbn [obind]. rewrite (nth_error_nth _ _ 0%N Hn).
      destruct (N.ltb_spec ci old) as [Hlt|Hge].
      * eexists true, _. split; [reflexivity|]. split; [|split; [tauto|discriminate]].
        unfold Lowered. cbn [Pix Stride MinX MinY MaxX MaxY PaletteLen].
        repeat split; [apply set_pix_length|].
        intros i. rewrite set_pix_nth.
        destruct (Nat.eqb_spec i (Z.to_nat (PixOffset p x y))) as [->|_];
          [|apply N.le_refl].
        destruct (Nat.ltb_spec (Z.to_nat (PixOffset p x y)) (List.length (Pix p)));
          cbn [andb]; [|apply N.le_refl].
        rewrite (nth_error_nth _ _ 0%N Hn). lia.
      * exists false, p. split; [reflexivity|]. split; [apply Lowered_refl|].
        split; [|reflexivity]. split; [discriminate|]. intros [_ H]. lia.
    + apply nth_error_None in Hn. lia.
  - exists false, p. split; [reflexivity|]. split; [apply Lowered_refl|].
    split; [|reflexivity]. split; [discriminate|]. intros [H _]. discriminate H.
Qed.

Section GlowProofs.

Variable uint8_of_float64 : float -> N.

Lemma glowRing_spec (x y : Z) (ds : list (Z * Z)) (ci : N) (p : Paletted) :
  wellFormedImage p ->
  exists ci' q, glowRing uint8_of_float64 x y ds ci p = Some (ci', q) /\ Lowered p q.
Proof.
  intros Hwf. unfold glowRing.
  destruct (PrimFloat.ltb _ _); [|exists ci, p; split; [reflexivity|apply Lowered_refl]].
  set (c := uint8_of_float64 _). clearbody c.
  assert (H : forall ds q0, Lowered p q0 ->
              exists q, fold_left
                          (fun acc d =>
                             p <- acc ;;
                             '(_, p) <- setPixIfLower (x + fst d) (y + snd d) c p ;;
                             Some p) ds (Some q0) = Some q
                        /\ Lowered p q).
  { clear ds. induction ds as [|d ds IH]; intros q0 Hq0; simpl.
    - exists q0. split; [reflexivity|exact Hq0].
    - destruct (setPixIfLower_spec (x + fst d) (y + snd d) c q0
                  (Lowered_wellFormed p q0 Hq0 Hwf)) as [b [q1 [E [HL _]]]].
      rewrite E. cbn [obind]. apply IH. eapply Lowered_trans; eassumption. }
  destruct (H ds p (Lowered_refl p)) as [q [E HL]]. rewrite E. cbn [obind].
  exists c, q. split; [reflexivity|exact HL].
Qed.

(** [SetColorIndex] only lowers pixels.  On an image whose pixel slice
    holds every point of its rectangle it indexes nothing out of range,
    leaves the size and the layout as they are and raises no pixel.  And it
    draws the glow only around a pixel that it has lowered: for a point
    outside the rectangle, or one whose pixel is not above [ci], the image
    stays as it is. *)
Theorem SetColorIndex_only_lowers (x y : Z) (ci : N) (p : Paletted) :
  wellFormedImage p ->
  exists q,
    SetColorIndex uint8_of_float64 x y ci p = Some q
    /\ Lowered p q
    /\ wellFormedImage q
    /\ (inRect p x y = false
        \/ (nth (Z.to_nat (PixOffset p x y)) (Pix p) 0 <= ci)%N -> q = p).
Proof.
  intros Hwf. unfold SetColorIndex.
  destruct (setPixIfLower_spec x y ci p Hwf) as [lowered [q0 [E [HL [Hiff Hsame]]]]].
  rewrite E. cbn [obind].
  destruct lowered.
  - pose proof (Lowered_wellFormed _ _ HL Hwf) as Hwf0.
    destruct (glowRing_spec x y [(-1, 0); (0, -1); (1, 0); (0, 1)] ci q0 Hwf0)
      as [c1 [q1 [E1 HL1]]].
    rewrite E1. cbn [obind].
    pose proof (Lowered_wellFormed _ _ HL1 Hwf0) as Hwf1.
    destruct (glowRing_spec x y [(-1, -1); (-1, 1); (1, -1); (1, 1)] c1 q1 Hwf1)
      as [c2 [q2 [E2 HL2]]].
    rewrite E2. cbn [obind].
    exists q2. split; [reflexivity|].
    assert (HL' : Lowered p q2)
      by (eapply Lowered_trans; [eapply Lowered_trans|]; eassumption).
    split; [exact HL'|]. split; [exact (Lowered_wellFormed _ _ HL' Hwf)|].
    destruct (proj1 Hiff eq_refl) as [Hin Hlt].
    intros [H|H]; [congruence|lia].
  - exists q0. split; [reflexivity|]. split; [exact HL|].
    split; [exact (Lowered_wellFormed _ _ HL Hwf)|]. intros _. now apply Hsame.
Qed.

End GlowProofs.

Lemma SetColorIndex_only_lowers_witness :
  exists q,
    SetColorIndex (fun _ => 14%N) 1 1 10 image3x3 = Some q
    /\ Lowered image3x3 q
    /\ wellFormedImage q
    /\ (inRect image3x3 1 1 = false
        \/ (nth (Z.to_nat (PixOffset image3x3 1 1)) (Pix image3x3) 0 <= 10)%N ->
        q = image3x3).
Proof.
  apply (SetColorIndex_only_lowers (fun _ => 14%N) 1 1 10 image3x3).
  unfold wellFormedImage. simpl. lia.
Defined.

(** ** The records and the distance of a GPX track *)

Section GPXProofs.

Variable DistanceTo : Point -> Point -> float.

Local Abbreviation path := (pathFrom DistanceTo).

Lemma pathFrom_snoc :
  forall rs acc a b,
    path acc ((rs ++ [a]) ++ [b])
    = PrimFloat.add (path acc (rs ++ [a])) (DistanceTo (Position a) (Position b)).
Proof.
  induction rs as [|r rs IH]; intros acc a b.
  - reflexivity.
  - destruct rs as [|r' rs'].
    + reflexivity.
    + change (path acc (((r :: r' :: rs') ++ [a]) ++ [b]))
        with (path (PrimFloat.add acc (DistanceTo (Position r) (Position r')))
                (((r' :: rs') ++ [a]) ++ [b])).
      rewrite IH. reflexivity.
Qed.

Lemma firstn_S_nth {A : Type} (l : list A) (k : nat) (x : A) :
  nth_error l k = Some x -> firstn (S k) l = (firstn k l ++ [x])%list.
Proof.
  revert k. induction l as [|a l IH]; intros [|k] H; try discriminate.
  - injection H as <-. reflexivity.
  - simpl in H. rewrite firstn_cons, (IH k H). reflexivity.
Qed.

Lemma gpx_points_spec (prev : list ActivityRecord) (acc : float) :
  forall rest done p0 p1,
    let all := (prev ++ map gpxRecord (done ++ rest))%list in
    exists p0' p1',
      gpx_points DistanceTo (List.length done) rest
        (mk_trackScan (prev ++ map gpxRecord done)
           (path acc (firstn (List.length done) all)) p0 p1)
      = Some (mk_trackScan all (path acc (firstn (List.length (done ++ rest)) all))
                p0' p1').
Proof.
  induction rest as [|p rest IH]; intros done p0 p1 all; subst all.
  - rewrite app_nil_r. exists p0, p1. reflexivity.
  - cbn [gpx_points]. unfold gpx_point. cbn [ts_Records ts_Distance ts_p0].
    set (all := (prev ++ map gpxRecord (done ++ p :: rest))%list).
    set (p0' := if (List.length (prev ++ map gpxRecord done) =? 0)%nat then p else p0).
    assert (Hrec : ((prev ++ map gpxRecord done) ++ [gpxRecord p])%list
                   = (prev ++ map gpxRecord (done ++ [p]))%list)
      by (rewrite map_app, app_assoc; reflexivity).
    assert (Hall : all = (prev ++ map gpxRecord ((done ++ [p]) ++ rest))%list)
      by (unfold all; rewrite <- app_assoc; reflexivity).
    assert (Hpre : forall k x,
               nth_error ((prev ++ map gpxRecord done) ++ [gpxRecord p]) k = Some x ->
               nth_error all k = Some x).
    { intros k x Hk.
      assert (Hall2 : all = (((prev ++ map gpxRecord done) ++ [gpxRecord p])
                             ++ map gpxRecord rest)%list).
      { unfold all. rewrite !map_app, <- !app_assoc. reflexivity. }
      rewrite Hall2, nth_error_app1; [exact Hk|]. apply nth_error_Some. congruence. }
    specialize (IH (done ++ [p])%list p0' p). cbv zeta in IH.
    rewrite <- Hall in IH. rewrite length_app in IH. cbn [List.length] in IH.
    replace (List.length done + 1)%nat with (S (List.length done)) in IH by lia.
    rewrite <- Hrec in IH.
    destruct (List.length done) as [|k] eqn:Hk.
    + (* the first point of the segment adds nothing *)
      cbn [Nat.ltb Nat.leb obind].
      assert (Hone : path acc (firstn 1 all) = path acc (firstn 0 all))
        by (destruct all; reflexivity).
      rewrite Hone in IH. destruct IH as [q0 [q1 E]].
      exists q0, q1. rewrite E. f_equal. f_equal. f_equal. f_equal.
      rewrite <- app_assoc. reflexivity.
    + change (0 <? S k)%nat with true. cbv iota.
      replace (S k - 1)%nat with k by lia.
      assert (Hlen : (S k < List.length ((prev ++ map gpxRecord done) ++ [gpxRecord p]))%nat).
      { rewrite !length_app, length_map, Hk. simpl. lia. }
      destruct (nth_error ((prev ++ map gpxRecord done) ++ [gpxRecord p]) k)
        as [a|] eqn:Ha; [|apply nth_error_None in Ha; lia].
      destruct (nth_error ((prev ++ map gpxRecord done) ++ [gpxRecord p]) (S k))
        as [b|] eqn:Hb; [|apply nth_error_None in Hb; lia].
      cbn [obind].
      assert (Hstep : path acc (firstn (S (S k)) all)
                      = PrimFloat.add (path acc (firstn (S k) all))
                          (DistanceTo (Position a) (Position b))).
      { rewrite (firstn_S_nth all (S k) b (Hpre _ _ Hb)).
        rewrite (firstn_S_nth all k a (Hpre _ _ Ha)).
        apply pathFrom_snoc. }
      rewrite Hstep in IH. destruct IH as [q0 [q1 E]].
      exists q0, q1. rewrite E. f_equal. f_equal. f_equal. f_equal.
      rewrite <- app_assoc. reflexivity.
Qed.

Lemma gpx_segments_spec :
  forall segs prev acc p0 p1,
    exists p0' p1',
      gpx_segments DistanceTo segs (mk_trackScan prev acc p0 p1)
      = Some (mk_trackScan (prev ++ map gpxRecord (List.concat segs))
                (segmentsDistance DistanceTo acc prev segs) p0' p1').
Proof.
  induction segs as [|seg rest IH]; intros prev acc p0 p1.
  - simpl. rewrite app_nil_r. exists p0, p1. reflexivity.
  - cbn [gpx_segments segmentsDistance List.concat].
    destruct (gpx_points_spec prev acc seg [] p0 p1) as [q0 [q1 E]].
    cbn [List.length app map firstn pathFrom] in E. rewrite app_nil_r in E.
    rewrite E. cbn [obind].
    destruct (IH (prev ++ map gpxRecord seg)%list
                (path acc (firstn (List.length seg) (prev ++ map gpxRecord seg)))
                q0 q1) as [r0 [r1 E']].
    exists r0, r1. rewrite E'. now rewrite map_app, app_assoc.
Qed.

(** The distance that [parseGPX] gives a track.  The loops index no record
    out of range.  The records are the points of all segments in order.
    The distance of a track of one segment is the length of the path
    through its points.  But the index of a point in its segment is used
    as an index into the records of the whole activity, so a later segment
    adds the length of the path through the first records of the activity:
    a second segment that is not longer than the first adds a distance
    that does not depend on its own points. *)
Theorem parseGPX_distance :
  (forall segs zero,
      exists p0 p1,
        gpx_segments DistanceTo segs (mk_trackScan [] 0%float zero zero)
        = Some (mk_trackScan (map gpxRecord (List.concat segs))
                  (segmentsDistance DistanceTo 0%float [] segs) p0 p1))
  /\ (forall seg,
         segmentsDistance DistanceTo 0%float [] [seg] = path 0%float (map gpxRecord seg))
  /\ (forall s1 s2 s2',
         List.length s2 = List.length s2' ->
         (List.length s2 <= List.length s1)%nat ->
         segmentsDistance DistanceTo 0%float [] [s1; s2]
         = segmentsDistance DistanceTo 0%float [] [s1; s2']).
Proof.
  repeat split.
  - intros segs zero. apply (gpx_segments_spec segs [] 0%float zero zero).
  - intros seg. cbn [segmentsDistance app].
    rewrite <- (length_map gpxRecord seg), firstn_all. reflexivity.
  - intros s1 s2 s2' Hlen Hle. cbn [segmentsDistance app].
    rewrite <- Hlen.
    rewrite !firstn_app.
    replace (List.length s2 - List.length (map gpxRecord s1))%nat with 0%nat
      by (rewrite length_map; lia).
    reflexivity.
Qed.

End GPXProofs.

(** ** The criterion of a tag comparison *)

Lemma quote_byte_nonempty (c : ascii) : quote_byte c <> EmptyString.
Proof.
  unfold quote_byte.
  repeat match goal with |- context [if ?b then _ else _] => destruct b end;
    discriminate.
Qed.

Lemma Quote_body_empty (v : string) :
  String.eqb (concat_map quote_byte v ++ dq) dq = String.eqb v EmptyString.
Proof.
  destruct v as [|c v]; [reflexivity|].
  change (String.eqb (String c v) EmptyString) with false.
  apply String.eqb_neq. cbn [concat_map].
  pose proof (quote_byte_nonempty c) as Hc.
  destruct (quote_byte c) as [|x q]; [contradiction|].
  unfold dq. cbn [append]. intros H. injection H as _ H.
  destruct q; [destruct (concat_map quote_byte v)|]; discriminate H.
Qed.

Section TagCriterion.

Variable Sprint_float : float -> string.

Lemma generate_tag_comparison (op : string) (k v : string) (swap : bool) :
  op = "==" \/ op = "!=" ->
  generate Sprint_float
    (if swap then BinaryNode op (StringNode v) (IdentifierNode k)
     else BinaryNode op (IdentifierNode k) (StringNode v))
  = Some (mk_qb [tagCriterion (String.eqb op "!=") k v] [] 0 None).
Proof.
  intros Hop. unfold generate, tagCriterion, tagName.
  destruct Hop as [-> | ->], swap; rewrite Walk_eq; cbn.
  all: rewrite !append_nil_r, Quote_body_empty.
  all: destruct (String.eqb v EmptyString); unfold push; cbn;
    rewrite ?append_nil_r, ?append_assoc; reflexivity.
Qed.


End TagCriterion.


(** ** The criterion of a numeric comparison *)

Lemma needsQuote_first (c : ascii) (k : string) :
  needsQuote (String c k) = false -> byte_eqb c dquote_char = false.
Proof.
  intros Hq. simpl in Hq. apply orb_false_elim in Hq as [Hq _].
  destruct (byte_eqb c dquote_char) eqn:Hc; [|reflexivity].
  apply Ascii.eqb_eq in Hc. subst c. discriminate Hq.
Qed.

Section ValueCriterion.

Variable Sprint_float : float -> string.

Lemma generate_value_comparison (op k : string) (n : Z) :
  In op [">"; ">="; "<"; "<="] ->
  k <> EmptyString ->
  generate Sprint_float (BinaryNode op (IdentifierNode k) (IntegerNode n))
  = Some (mk_qb ["t[" ++ Quote k ++ "]" ++ op ++ Sprint_int n] [] 0 None).
Proof.
  intros Hop Hk. unfold generate.
  destruct k as [|c k]; [contradiction|].
  destruct (needsQuote (String c k)) eqn:Hq.
  - destruct Hop as [<-|[<-|[<-|[<-|[]]]]]; rewrite Walk_eq; cbn -[needsQuote]; rewrite Hq;
      cbn; unfold push; cbn; rewrite ?append_nil_r, ?append_assoc; reflexivity.
  - pose proof (needsQuote_first c k Hq) as Hc.
    destruct Hop as [<-|[<-|[<-|[<-|[]]]]]; rewrite Walk_eq; cbn -[needsQuote]; rewrite Hq;
      cbn -[byte_eqb]; rewrite Hc; unfold push; cbn; rewrite ?append_nil_r, ?append_assoc;
      reflexivity.
Qed.

(** A tag compared with an integer by [>], [>=], [<] or [<=] gives one
    criterion, an evaluator on the value of the tag with the name quoted:
    [k > 5] gives [(if:t["k"]>5)].  A negation in front of the comparison
    gives the evaluator of the opposite comparison. *)
Theorem value_comparison_criterion (op k : string) (n : Z) (negate : bool) :
  In op [">"; ">="; "<"; "<="] ->
  k <> EmptyString ->
  buildCriteriaTree Sprint_float
    (if negate then UnaryNode "not" (BinaryNode op (IdentifierNode k) (IntegerNode n))
     else BinaryNode op (IdentifierNode k) (IntegerNode n))
  = Some (Ok [valueCriterion (if negate then negatedComparison op else op) k n]).
Proof.
  intros Hop Hk. unfold buildCriteriaTree.
  set (op' := if negate then negatedComparison op else op).
  assert (Hop' : In op' [">"; ">="; "<"; "<="]).
  { subst op'. destruct negate; [|exact Hop].
    destruct Hop as [<-|[<-|[<-|[<-|[]]]]]; simpl; tauto. }
  assert (Hrw : rewriteTree
                  (if negate
                   then UnaryNode "not" (BinaryNode op (IdentifierNode k) (IntegerNode n))
                   else BinaryNode op (IdentifierNode k) (IntegerNode n))
                = BinaryNode op' (IdentifierNode k) (IntegerNode n)).
  { subst op'. destruct negate; destruct Hop as [<-|[<-|[<-|[<-|[]]]]]; reflexivity. }
  rewrite Hrw, (generate_value_comparison op' k n Hop' Hk).
  cbn [obind qerr qstack rev app wrapCriteria].
  assert (Hw : forall s, isWrapped ("t[" ++ s) = Some false) by reflexivity.
  rewrite Hw. cbn [obind negb]. unfold valueCriterion.
  cbn [append]. rewrite !append_assoc. cbn [append]. rewrite !append_assoc.
  reflexivity.
Qed.

End ValueCriterion.

Lemma value_comparison_criterion_witness :
  buildCriteriaTree Sprint_float_fixed
    (UnaryNode "not" (BinaryNode "<" (IdentifierNode "lanes") (IntegerNode 2)))
  = Some (Ok ["(if:t[" ++ dq ++ "lanes" ++ dq ++ "]>=2)"]).
Proof.
  apply (value_comparison_criterion Sprint_float_fixed "<" "lanes" 2 true).
  - simpl. tauto.
  - discriminate.
Defined.

(** ** The rewrite passes leave the negations on nodes that are no connective *)

Lemma irreducible_no_connective (x : Node) :
  reducibleOperand x = false -> isConnective x = false.
Proof.
  destruct x; try reflexivity; unfold isConnective;
    cbn [reducibleOperand asUnaryNot asBinaryAnd asBinaryOr].
  - now intros ->.
  - intros H.
    destruct (String.eqb_spec Operator "and"); [subst; discriminate H|].
    destruct (String.eqb_spec Operator "&&"); [subst; discriminate H|].
    destruct (String.eqb_spec Operator "or"); [subst; discriminate H|].
    destruct (String.eqb_spec Operator "||"); [subst; discriminate H|].
    reflexivity.
Qed.

Lemma noneIs_rootNNF (t : Node) : noneIs reducibleNot t = true -> rootNNF t = true.
Proof.
  induction t; try reflexivity; cbn [noneIs rootNNF]; intros H;
    apply andb_prop in H; destruct H as [Hn Hc].
  - destruct (isNot Operator) eqn:Hop; [|reflexivity].
    apply negb_true_iff in Hn. cbn [reducibleNot] in Hn.
    unfold isNot in Hop. rewrite Hop in Hn. cbn [andb] in Hn.
    now rewrite (irreducible_no_connective _ Hn).
  - destruct (isLogical Operator); [|reflexivity].
    apply andb_prop in Hc. destruct Hc as [Hl Hr].
    now rewrite (IHt1 Hl), (IHt2 Hr).
Qed.

Lemma or_is_logical (o : string) : o = "or" \/ o = "||" -> isLogical o = true.
Proof. intros [-> | ->]; reflexivity. Qed.

Lemma rootNNF_or (n : Node) (o : string) (b c : Node) :
  asBinaryOr n = Some (o, b, c) -> rootNNF n = rootNNF b && rootNNF c.
Proof.
  intros H. destruct (asBinaryOr_Some _ _ _ _ H) as [-> Ho].
  cbn [rootNNF]. now rewrite (or_is_logical o Ho).
Qed.

(** One walk of the [dnf] visitor keeps the negations where they are. *)
Lemma dnf_Walk_rootNNF :
  forall t a, rootNNF (fst (Walk dnf_visitor t (mk_dnf 0 a))) = rootNNF t.
Proof.
  induction t using Node_forall_ind; intros a;
    try (now rewrite dnf_Walk_nonlogical).
  rename t1 into l, t2 into r.
  destruct (String.eqb op "and" || String.eqb op "&&") eqn:Hand.
  - pose proof (and_is_not_or op Hand) as Hor.
    assert (Hlog : isLogical op = true).
    { unfold isLogical. now rewrite Hand. }
    destruct (dnf_Walk_zero l a) as [l' [a1 [Wl _]]].
    destruct (dnf_Walk_zero r a1) as [r' [a2 [Wr _]]].
    pose proof (IHt1 a) as Hl. rewrite Wl in Hl. cbn [fst] in Hl.
    pose proof (IHt2 a1) as Hr. rewrite Wr in Hr. cbn [fst] in Hr.
    rewrite Walk_eq.
    assert (HE : Enter dnf_visitor (BinaryNode op l r) (mk_dnf 0 a) = mk_dnf 0 a).
    { simpl. unfold dnf_Enter. simpl. pose proof Hand as H0.
      apply orb_true_iff in H0. destruct H0 as [H|H]; rewrite H; simpl;
        rewrite ?andb_false_r; reflexivity. }
    rewrite HE. cbn [WalkChildren]. rewrite Wl, Wr.
    cbn [Exit dnf_visitor]. unfold dnf_Exit. cbn [dnf_depth Z.ltb Z.compare].
    rewrite asBinaryAnd_eq, Hand. cbn [rootNNF]. rewrite Hlog, <- Hl, <- Hr.
    destruct (asBinaryOr l') as [[[o b] c]|] eqn:Hol.
    + destruct (asBinaryOr_Some _ _ _ _ Hol) as [_ Ho].
      cbn [fst rootNNF]. rewrite (or_is_logical o Ho), Hlog.
      rewrite (rootNNF_or l' o b c Hol).
      destruct (rootNNF b), (rootNNF c), (rootNNF r'); reflexivity.
    + destruct (asBinaryOr r') as [[[o b] c]|] eqn:Hor'.
      * destruct (asBinaryOr_Some _ _ _ _ Hor') as [_ Ho].
        cbn [fst rootNNF]. rewrite (or_is_logical o Ho), Hlog.
        rewrite (rootNNF_or r' o b c Hor').
        destruct (rootNNF l'), (rootNNF b), (rootNNF c); reflexivity.
      * cbn [fst rootNNF]. now rewrite Hlog.
  - destruct (String.eqb op "or" || String.eqb op "||") eqn:Hor.
    + assert (Hlog : isLogical op = true).
      { unfold isLogical. rewrite Hand. cbn [orb]. exact Hor. }
      destruct (dnf_Walk_zero l a) as [l' [a1 [Wl _]]].
      destruct (dnf_Walk_zero r a1) as [r' [a2 [Wr _]]].
      pose proof (IHt1 a) as Hl. rewrite Wl in Hl. cbn [fst] in Hl.
      pose proof (IHt2 a1) as Hr. rewrite Wr in Hr. cbn [fst] in Hr.
      rewrite Walk_eq.
      assert (HE : Enter dnf_visitor (BinaryNode op l r) (mk_dnf 0 a) = mk_dnf 0 a).
      { simpl. unfold dnf_Enter. simpl. pose proof Hor as H0.
        apply orb_true_iff in H0. destruct H0 as [H|H]; rewrite H; simpl;
          rewrite ?andb_false_r; reflexivity. }
      rewrite HE. cbn [WalkChildren]. rewrite Wl, Wr.
      cbn [Exit dnf_visitor]. unfold dnf_Exit. cbn [dnf_depth Z.ltb Z.compare].
      rewrite asBinaryAnd_eq, Hand. cbn [fst rootNNF]. now rewrite Hlog, Hl, Hr.
    + rewrite dnf_Walk_nonlogical; try reflexivity.
      * now rewrite asBinaryAnd_eq, Hand.
      * now rewrite asBinaryOr_eq, Hor.
Qed.

Lemma toDNF_loop_rootNNF :
  forall limit t, rootNNF (toDNF_loop limit t) = rootNNF t.
Proof.
  assert (HR : forall t, rootNNF (fst (dnf_round t)) = rootNNF t).
  { intros t. unfold dnf_round. pose proof (dnf_Walk_rootNNF t false) as H.
    destruct (Walk dnf_visitor t (mk_dnf 0 false)) as [t' f]. exact H. }
  induction limit as [|limit IH]; intros t; simpl; specialize (HR t);
    destruct (dnf_round t) as [t' a']; cbn [fst] in HR; destruct (negb a'); auto.
  now rewrite IH.
Qed.

Lemma rewriteTree_rootNNF (tree : Node) : rootNNF (rewriteTree tree) = true.
Proof.
  unfold rewriteTree, toDNF. rewrite toDNF_loop_rootNNF.
  apply noneIs_rootNNF.
  match goal with |- context [distributeAndFoldNot_Walk ?t] =>
    apply (WalkNot_normal (S (weight t)) t), WalkNot_enough; lia end.
Qed.

(** ** The generator at the root *)

Section RootWalkProofs.

Variable Sprint_float : float -> string.

Local Abbreviation qbv := (qb_visitor Sprint_float).
Local Abbreviation Exit_s := (qb_Exit Sprint_float).

Lemma pop_arguments_reset (flags : list bool) (depth : Z) :
  forall args parts st flags0 depth0 e,
    pop_arguments args parts (mk_qb st flags depth e)
    = option_map (fun pq => (fst pq, reset flags depth (snd pq)))
        (pop_arguments args parts (mk_qb st flags0 depth0 e)).
Proof.
  induction args as [|a args IH]; intros parts st flags0 depth0 e; [reflexivity|].
  cbn [pop_arguments]. unfold pop. cbn [qstack qnot qdepth qerr].
  destruct st as [|s st]; [reflexivity|]. cbn [obind]. apply IH.
Qed.

Ltac crunch :=
  repeat first
    [ reflexivity
    | progress cbn [obind]
    | match goal with
      | |- context [if ?b then _ else _] => destruct b
      | |- context [match isWrapped ?s with _ => _ end] => destruct (isWrapped s)
      | |- context [obind (isWrapped ?s) _] => destruct (isWrapped s); cbn [obind]
      | |- context [obind (first_byte ?s) _] => destruct (first_byte s); cbn [obind]
      | |- context [obind (split_first ?s) _] =>
          destruct (split_first s) as [[? ?]|]; cbn [obind]
      | |- context [obind (split_last ?s) _] =>
          destruct (split_last s) as [[? ?]|]; cbn [obind]
      end ].

Lemma qb_Exit_binary_reset (flags : list bool) (depth : Z) (op : string) (l r : Node)
      (root negated : bool) (lhs rhs : string) (st : list string)
      (flags0 : list bool) (depth0 : Z) :
  qb_Exit_binary op l r root negated lhs rhs (mk_qb st flags depth None)
  = option_map (reset flags depth)
      (qb_Exit_binary op l r root negated lhs rhs (mk_qb st flags0 depth0 None)).
Proof.
  unfold qb_Exit_binary, push, reset. cbn [qstack qnot qdepth qerr].
  crunch.
Qed.

(** The walk of the generator as a function of the state. *)
Lemma qb_Walk_state :
  forall node s,
    Walk qbv node s
    = (node, obind (childrenState Sprint_float node (option_map (qb_Enter node) s))
               (Exit_s node)).
Proof.
  assert (HL : forall ns,
             Forall (fun n => forall s, Walk qbv n s
                       = (n, obind (childrenState Sprint_float n
                                      (option_map (qb_Enter n) s)) (Exit_s n))) ns ->
             forall s, WalkList qbv ns s = (ns, walkStates Sprint_float ns s)).
  { induction 1 as [|x r Hx _ IH]; intros s; [reflexivity|].
    cbn [WalkList walkStates]. unfold walkState. rewrite Hx. cbn [snd].
    now rewrite IH. }
  induction node using Node_forall_ind; intros s; rewrite Walk_eq;
    cbn [Enter Exit qb_visitor WalkChildren childrenState]; unfold walkState;
    try reflexivity.
  all: repeat (first [rewrite IHnode | rewrite IHnode1 | rewrite IHnode2
                      | rewrite IHnode3 | rewrite (HL _ H)];
               cbv beta iota; cbn [fst snd]).
  all: reflexivity.
Qed.

Lemma walkState_eq (node : Node) (s : option queryBuilder) :
  walkState Sprint_float node s
  = obind (childrenState Sprint_float node (option_map (qb_Enter node) s)) (Exit_s node).
Proof. unfold walkState at 1. now rewrite qb_Walk_state. Qed.

Ltac popped st :=
  destruct st as [|? st]; [reflexivity|]; cbn [obind qstack qnot qdepth qerr].

(** The cases of [queryBuilder.Exit] once the depth and the flag are
    taken: both sides run the same case on states that differ in the
    flags and the depth only. *)
Ltac exit_cases node st :=
  destruct node; unfold pop, set_err, reset; cbn [qstack qnot qdepth qerr];
  [ reflexivity
  | crunch
  | crunch
  | crunch
  | crunch
  | crunch
  | unfold push; cbn [qstack qnot qdepth qerr]; crunch; popped st; reflexivity
  | popped st; popped st; apply qb_Exit_binary_reset
  | popped st; popped st; crunch
  | match goal with |- context [if ?b then _ else _] => destruct b end;
    [ popped st; reflexivity
    | match goal with
      | |- obind (pop_arguments ?a ?p (mk_qb _ ?f ?d _)) _
           = option_map _ (obind (pop_arguments _ _ (mk_qb _ ?f0 ?d0 _)) _) =>
          rewrite (pop_arguments_reset f d a p st f0 d0 None)
      end;
      match goal with |- context [pop_arguments ?a ?p ?q] =>
        destruct (pop_arguments a p q) as [[? ?]|] end; reflexivity ]
  | popped st; popped st; popped st; reflexivity
  | reflexivity ].

(** The rest of [queryBuilder.Exit], after it has taken the depth and
    the flag, does not read the other flags nor the depth: at the root ... *)
Lemma qb_Exit_root (node : Node) (st : list string) (flags : list bool) (d : Z) :
  d = 0 \/ d = 1 ->
  Exit_s node (mk_qb st flags d None)
  = option_map (reset (tl flags) 0) (Exit_s node (mk_qb st [headFlag flags] 0 None)).
Proof.
  intros Hd. unfold qb_Exit. cbn [qstack qnot qdepth qerr].
  replace (if 0 <? d then d - 1 else d) with 0
    by (destruct Hd as [-> | ->]; reflexivity).
  cbn [Z.ltb Z.compare Z.eqb].
  destruct flags as [|b flags]; cbn [headFlag tl].
  - exit_cases node st.
  - exit_cases node st.
Qed.

Lemma qb_Exit_nested (node : Node) (st : list string) (flags : list bool) (d : Z) :
  1 < d ->
  Exit_s node (mk_qb st flags d None)
  = option_map (reset flags (d - 1)) (Exit_s node (mk_qb st [] 2 None)).
Proof.
  intros Hd. unfold qb_Exit. cbn [qstack qnot qdepth qerr].
  replace (0 <? d) with true by (symmetry; apply Z.ltb_lt; lia).
  replace (d - 1 =? 0) with false by (symmetry; apply Z.eqb_neq; lia).
  change (if 0 <? 2 then 2 - 1 else 2) with 1. change (1 =? 0) with false.
  cbv beta iota zeta.
  replace (match flags with [] => (false, []) | _ :: _ => (false, flags) end)
    with (false, flags) by (now destruct flags).
  exit_cases node st.
Qed.

Lemma NestedFrame_id : NestedFrame (fun s => s).
Proof.
  intros st e. cbn [qnot qdepth qerr qstack]. repeat split; try lia; try easy.
  intros flags d _. do 2 f_equal. lia.
Qed.

Lemma NestedFrame_compose (f g : option queryBuilder -> option queryBuilder) :
  NestedFrame f -> NestedFrame g -> g None = None ->
  NestedFrame (fun s => g (f s)).
Proof.
  intros Hf Hg HN st e. specialize (Hf st e).
  destruct (f (Some (mk_qb st [] 1 e))) as [r1|].
  2:{ rewrite HN. intros flags d Hd. now rewrite (Hf flags d Hd). }
  destruct Hf as (Hn1 & Hd1 & He1 & Hf).
  destruct r1 as [st1 n1 d1 e1]. cbn [qstack qnot qdepth qerr] in *. subst n1.
  specialize (Hg st1 e1).
  destruct (g (Some (mk_qb st1 [] 1 e1))) as [r2|].
  - destruct Hg as (Hn2 & Hd2 & He2 & Hg).
    rewrite (Hg [] d1) by lia. cbn [qstack qnot qdepth qerr].
    split; [reflexivity|]. split; [lia|]. split.
    + intros E. destruct (He2 E) as [D2 E1]. destruct (He1 E1) as [D1 E0].
      split; [lia | exact E0].
    + intros flags d Hd. rewrite (Hf flags d Hd). rewrite Hg by lia.
      do 2 f_equal. lia.
  - rewrite (Hg [] d1) by lia. intros flags d Hd.
    rewrite (Hf flags d Hd). apply Hg. lia.
Qed.

Lemma walkStates_None (ns : list Node) :
  Forall (fun n => walkState Sprint_float n None = None) ns ->
  walkStates Sprint_float ns None = None.
Proof.
  induction 1 as [|x r Hx _ IH]; cbn [walkStates]; [reflexivity|].
  now rewrite Hx.
Qed.

Lemma walkState_None (node : Node) : walkState Sprint_float node None = None.
Proof.
  induction node using Node_forall_ind; rewrite walkState_eq;
    cbn [option_map childrenState]; try reflexivity.
  - now rewrite IHnode.
  - now rewrite IHnode1, IHnode2.
  - now rewrite IHnode1, IHnode2.
  - now rewrite walkStates_None.
  - now rewrite IHnode1, IHnode2, IHnode3.
  - now rewrite walkStates_None.
Qed.

Lemma qb_Enter_nested (node : Node) (st : list string) (flags : list bool) (d : Z)
      (e : option string) :
  0 < d -> qb_Enter node (mk_qb st flags d e) = mk_qb st flags (d + 1) e.
Proof.
  intros Hd. unfold qb_Enter. cbn [qstack qnot qdepth qerr].
  now replace (0 <? d) with true by (symmetry; apply Z.ltb_lt; lia).
Qed.

Lemma NestedFrame_node (node : Node) :
  NestedFrame (childrenState Sprint_float node) ->
  NestedFrame (walkState Sprint_float node).
Proof.
  intros HC st e.
  assert (HW : forall flags d, 0 < d ->
             walkState Sprint_float node (Some (mk_qb st flags d e))
             = obind (childrenState Sprint_float node (Some (mk_qb st flags (d + 1) e)))
                 (Exit_s node)).
  { intros flags d Hd. rewrite walkState_eq. cbn [option_map].
    now rewrite qb_Enter_nested. }
  rewrite (HW [] 1) by lia. specialize (HC st e).
  destruct (childrenState Sprint_float node (Some (mk_qb st [] 1 e))) as [r1|].
  2:{ rewrite (HC [] (1 + 1)) by lia. cbn [obind].
      intros flags d Hd. rewrite (HW flags d Hd). now rewrite HC by lia. }
  destruct HC as (Hn1 & Hd1 & He1 & HC).
  destruct r1 as [st1 n1 d1 e1]. cbn [qstack qnot qdepth qerr] in *. subst n1.
  rewrite (HC [] (1 + 1)) by lia. cbn [obind].
  destruct e1 as [e1|].
  - rewrite (qb_Exit_latched Sprint_float node _ e1) by reflexivity.
    cbn [qstack qnot qdepth qerr].
    split; [reflexivity|]. split; [lia|]. split; [discriminate|].
    intros flags d Hd. rewrite (HW flags d Hd), HC by lia. cbn [obind].
    rewrite (qb_Exit_latched Sprint_float node _ e1) by reflexivity.
    do 2 f_equal. lia.
  - destruct (He1 eq_refl) as [-> ->].
    change (1 + (1 + 1 - 1)) with 2.
    pose proof (qb_Exit_nested node st1 [] 2 ltac:(lia)) as HX.
    change (2 - 1) with 1 in HX.
    destruct (Exit_s node (mk_qb st1 [] 2 None)) as [x|] eqn:EX.
    + cbn [option_map] in HX. injection HX as HX.
      destruct x as [sx nx dx ex]. unfold reset in HX.
      cbn [qstack qnot qdepth qerr] in *. injection HX as -> ->.
      split; [reflexivity|]. split; [lia|]. split; [now split|].
      intros flags d Hd. rewrite (HW flags d Hd), HC by lia. cbn [obind].
      rewrite qb_Exit_nested by lia. rewrite EX. cbn [option_map]. unfold reset.
      cbn [qstack qnot qdepth qerr]. do 2 f_equal. lia.
    + intros flags d Hd. rewrite (HW flags d Hd), HC by lia. cbn [obind].
      rewrite qb_Exit_nested by lia. now rewrite EX.
Qed.

Lemma NestedFrame_list (ns : list Node) :
  Forall (fun n => NestedFrame (walkState Sprint_float n)) ns ->
  NestedFrame (walkStates Sprint_float ns).
Proof.
  induction 1 as [|x r Hx _ IH].
  - exact NestedFrame_id.
  - change (NestedFrame (fun s => walkStates Sprint_float r (walkState Sprint_float x s))).
    apply NestedFrame_compose; [exact Hx | exact IH |].
    apply walkStates_None. apply Forall_forall. intros n _. apply walkState_None.
Qed.

Lemma nested_frame (node : Node) : NestedFrame (walkState Sprint_float node).
Proof.
  induction node using Node_forall_ind; apply NestedFrame_node;
    cbn [childrenState]; try exact NestedFrame_id.
  - exact IHnode.
  - apply (NestedFrame_compose _ _ IHnode1 IHnode2), walkState_None.
  - apply (NestedFrame_compose _ _ IHnode1 IHnode2), walkState_None.
  - now apply NestedFrame_list.
  - apply (NestedFrame_compose
             (fun s => walkState Sprint_float node2 (walkState Sprint_float node1 s))
             (walkState Sprint_float node3)).
    + apply (NestedFrame_compose _ _ IHnode1 IHnode2), walkState_None.
    + exact IHnode3.
    + apply walkState_None.
  - now apply NestedFrame_list.
Qed.

Lemma children_frame (node : Node) : NestedFrame (childrenState Sprint_float node).
Proof.
  assert (H2 : forall a b, NestedFrame (fun s => walkState Sprint_float b
                                                   (walkState Sprint_float a s))).
  { intros a b.
    apply (NestedFrame_compose (walkState Sprint_float a) (walkState Sprint_float b));
      try apply nested_frame. apply walkState_None. }
  destruct node; cbn [childrenState]; try exact NestedFrame_id.
  - apply nested_frame.
  - apply H2.
  - apply H2.
  - apply NestedFrame_list, Forall_forall. intros n _. apply nested_frame.
  - apply (NestedFrame_compose
             (fun s => walkState Sprint_float node2 (walkState Sprint_float node1 s))
             (walkState Sprint_float node3));
      [apply H2 | apply nested_frame | apply walkState_None].
  - apply NestedFrame_list, Forall_forall. intros n _. apply nested_frame.
Qed.

Lemma qb_Enter_atom (node : Node) (st : list string) (flags : list bool)
      (e : option string) :
  isConnective node = false ->
  qb_Enter node (mk_qb st flags 0 e) = mk_qb st flags 1 e.
Proof.
  intros H. unfold qb_Enter, isConnective in *. cbn [qstack qnot qdepth qerr].
  change (0 <? 0) with false. cbv iota.
  destruct (asUnaryNot node); [discriminate H|].
  destruct (asBinaryAnd node); [discriminate H|].
  destruct (asBinaryOr node); [discriminate H|]. reflexivity.
Qed.

(** The walk of a node that is no connective, at the root: of the flags
    it reads the first only, and it takes that one away. *)
Lemma atom_frame (t : Node) (st : list string) (flags : list bool) (e : option string) :
  isConnective t = false ->
  match walkState Sprint_float t (Some (mk_qb st [headFlag flags] 0 e)) with
  | None => walkState Sprint_float t (Some (mk_qb st flags 0 e)) = None
  | Some w =>
      exists r, walkState Sprint_float t (Some (mk_qb st flags 0 e)) = Some r
                /\ qstack r = qstack w /\ qerr r = qerr w
                /\ (qerr r = None -> qdepth r = 0 /\ qnot r = tl flags)
  end.
Proof.
  intros Ht.
  assert (HW : forall F, walkState Sprint_float t (Some (mk_qb st F 0 e))
                         = obind (childrenState Sprint_float t (Some (mk_qb st F 1 e)))
                             (Exit_s t)).
  { intros F. rewrite walkState_eq. cbn [option_map]. now rewrite qb_Enter_atom. }
  rewrite !HW. pose proof (children_frame t st e) as HC.
  destruct (childrenState Sprint_float t (Some (mk_qb st [] 1 e))) as [r1|].
  2:{ rewrite !HC by lia. reflexivity. }
  destruct HC as (Hn1 & Hd1 & He1 & HC). rewrite !HC by lia.
  destruct r1 as [st1 n1 d1 e1]. cbn [qstack qnot qdepth qerr obind] in *.
  destruct e1 as [e1|].
  - rewrite !(qb_Exit_latched Sprint_float t _ e1) by reflexivity.
    eexists. split; [reflexivity|]. cbn [qstack qerr]. now repeat split.
  - destruct (He1 eq_refl) as [-> ->]. change (1 + (1 - 1)) with 1.
    rewrite (qb_Exit_root t st1 flags 1) by (now right).
    rewrite (qb_Exit_root t st1 [headFlag flags] 1) by (now right).
    cbn [headFlag tl].
    destruct (Exit_s t (mk_qb st1 [headFlag flags] 0 None)) as [x|];
      cbn [option_map]; [|reflexivity].
    eexists. split; [reflexivity|]. unfold reset. cbn [qstack qnot qdepth qerr].
    now repeat split.
Qed.

Lemma walkState_latched (t : Node) (q : queryBuilder) (e : string) :
  qerr q = Some e ->
  exists r, walkState Sprint_float t (Some q) = Some r
            /\ qstack r = qstack q /\ qerr r = Some e.
Proof.
  intros H. destruct (qb_Walk_latched Sprint_float e t q H) as [r [E [He Hs]]].
  exists r. unfold walkState. rewrite E. now repeat split.
Qed.

Lemma walkRoot_latched (e : string) :
  forall t q, qerr q = Some e ->
    exists w, walkRoot Sprint_float t q = Some w
              /\ qstack w = qstack q /\ qerr w = Some e.
Proof.
  assert (HA : forall b t q, qerr q = Some e ->
             exists w, walkAtom Sprint_float b t q = Some w
                       /\ qstack w = qstack q /\ qerr w = Some e).
  { intros b t q H. unfold walkAtom.
    destruct (walkState_latched t (mk_qb (qstack q) [b] 0 (qerr q)) e H)
      as [r [E [Hs He]]].
    exists r. now repeat split. }
  induction t; intros q H; cbn [walkRoot]; try (now apply HA).
  - destruct (isNot Operator); now apply HA.
  - destruct (isLogical Operator); [|now apply HA].
    destruct (IHt1 q H) as [w1 [E1 [Hs1 He1]]]. rewrite E1. cbn [obind].
    destruct (IHt2 w1 He1) as [w2 [E2 [Hs2 He2]]]. rewrite E2. cbn [obind].
    rewrite (qb_Exit_latched Sprint_float _ _ e) by exact He2.
    eexists. split; [reflexivity|]. cbn [qstack qerr]. split; congruence.
Qed.

Lemma walkRoot_ext :
  forall t q q', qstack q = qstack q' -> qerr q = qerr q' ->
    walkRoot Sprint_float t q = walkRoot Sprint_float t q'.
Proof.
  assert (HA : forall b t q q', qstack q = qstack q' -> qerr q = qerr q' ->
             walkAtom Sprint_float b t q = walkAtom Sprint_float b t q').
  { intros b t q q' Hs He. unfold walkAtom. now rewrite Hs, He. }
  induction t; intros q q' Hs He; cbn [walkRoot]; try (now apply HA).
  - destruct (isNot Operator); now apply HA.
  - destruct (isLogical Operator); [|now apply HA].
    now rewrite (IHt1 q q' Hs He).
Qed.

Lemma walkRoot_atom (t : Node) (q : queryBuilder) :
  isConnective t = false ->
  walkRoot Sprint_float t q = walkAtom Sprint_float false t q.
Proof.
  destruct t; try reflexivity; unfold isConnective; cbn [walkRoot asUnaryNot asBinaryAnd asBinaryOr].
  - unfold isNot. now destruct (String.eqb Operator "not" || String.eqb Operator "!").
  - unfold isLogical.
    destruct (String.eqb Operator "and" || String.eqb Operator "&&"); [discriminate|].
    cbn [orb].
    now destruct (String.eqb Operator "or" || String.eqb Operator "||").
Qed.

Lemma qb_Enter_not (op : string) (x : Node) (st : list string) (flags : list bool)
      (e : option string) :
  isNot op = true ->
  qb_Enter (UnaryNode op x) (mk_qb st flags 0 e) = mk_qb st (true :: flags) 0 e.
Proof.
  intros H. unfold qb_Enter, isNot in *. cbn [qstack qnot qdepth qerr asUnaryNot].
  now rewrite H.
Qed.

Lemma qb_Enter_logical (op : string) (l r : Node) (st : list string)
      (flags : list bool) (e : option string) :
  isLogical op = true ->
  qb_Enter (BinaryNode op l r) (mk_qb st flags 0 e) = mk_qb st (false :: flags) 0 e.
Proof.
  intros H. unfold qb_Enter, isLogical in *.
  cbn [qstack qnot qdepth qerr asUnaryNot asBinaryAnd asBinaryOr].
  change (0 <? 0) with false. cbv iota.
  destruct (String.eqb op "and" || String.eqb op "&&"); [reflexivity|].
  cbn [orb] in H. now rewrite H.
Qed.

Lemma qb_Exit_not (op : string) (x : Node) (st : list string) :
  isNot op = true ->
  Exit_s (UnaryNode op x) (mk_qb st [false] 0 None) = Some (mk_qb st [] 0 None).
Proof.
  intros H. unfold qb_Exit, isNot in *. cbn [qstack qnot qdepth qerr].
  change (0 <? 0) with false. cbv iota. change (0 =? 0) with true. cbv iota beta.
  cbn [negb orb].
  destruct (String.eqb op "not"); [reflexivity|].
  cbn [orb] in H. now rewrite H.
Qed.

Lemma headFlag_false (flags : list bool) :
  Forall (fun b => b = false) flags -> headFlag flags = false.
Proof. now destruct 1. Qed.

Lemma tl_false (flags : list bool) :
  Forall (fun b => b = false) flags -> Forall (fun b => b = false) (tl flags).
Proof. destruct 1; [constructor | assumption]. Qed.

(** At the root the flags that the connectives push are read as the
    generator without flags reads them. *)
Lemma root_Walk :
  forall t, rootNNF t = true ->
    forall q, RootInv q ->
      RootPost (walkRoot Sprint_float t q) (walkState Sprint_float t (Some q)).
Proof.
  assert (HE : forall t q e, qerr q = Some e ->
             RootPost (walkRoot Sprint_float t q) (walkState Sprint_float t (Some q))).
  { intros t q e H.
    destruct (walkRoot_latched e t q H) as [w [E [Hs He]]]. rewrite E.
    destruct (walkState_latched t q e H) as [r [E' [Hs' He']]].
    exists r. split; [exact E'|]. split; [congruence|]. split; [congruence|].
    intros C. congruence. }
  assert (HA : forall t st flags,
             isConnective t = false -> Forall (fun b => b = false) flags ->
             RootPost (walkRoot Sprint_float t (mk_qb st flags 0 None))
               (walkState Sprint_float t (Some (mk_qb st flags 0 None)))).
  { intros t st flags Ht HF. rewrite walkRoot_atom by exact Ht.
    unfold walkAtom. cbn [qstack qerr].
    pose proof (atom_frame t st flags None Ht) as H.
    rewrite (headFlag_false flags HF) in H.
    destruct (walkState Sprint_float t (Some (mk_qb st [false] 0 None))) as [w|];
      [|exact H].
    destruct H as [r [E [Hs [He Hi]]]]. exists r.
    split; [exact E|]. split; [exact Hs|]. split; [exact He|].
    intros C. destruct (Hi C) as [D N]. split; [exact D|].
    rewrite N. now apply tl_false. }
  induction t; intros Ht q Hq;
    (destruct (qerr q) as [e|] eqn:Eq; [now apply (HE _ q e)|]);
    destruct (Hq Eq) as [Hd HF];
    destruct q as [st flags d oe]; cbn [qstack qnot qdepth qerr] in *; subst d oe;
    try (now apply HA).
  - (* unary *)
    cbn [rootNNF] in Ht. destruct (isNot Operator) eqn:Hop; [|apply HA; auto].
    2:{ unfold isConnective. cbn [asUnaryNot asBinaryAnd asBinaryOr].
        unfold isNot in Hop. now rewrite Hop. }
    apply negb_true_iff in Ht. cbn [walkRoot]. rewrite Hop.
    unfold walkAtom. cbn [qstack qerr].
    rewrite (walkState_eq (UnaryNode Operator t)). cbn [option_map childrenState].
    rewrite qb_Enter_not by exact Hop.
    pose proof (atom_frame t st (true :: flags) None Ht) as H.
    cbn [headFlag tl] in H.
    destruct (walkState Sprint_float t (Some (mk_qb st [true] 0 None))) as [w|].
    2:{ rewrite H. reflexivity. }
    destruct H as [r [E [Hs [He Hi]]]]. rewrite E. cbn [obind].
    destruct (qerr r) as [e|] eqn:Er.
    + rewrite (qb_Exit_latched Sprint_float _ _ e Er).
      exists r. split; [reflexivity|]. split; [exact Hs|]. split; [congruence|].
      intros C. congruence.
    + destruct (Hi eq_refl) as [Hd Hn].
      destruct r as [sr nr dr er]. cbn [qstack qnot qdepth qerr] in *.
      subst nr dr er.
      rewrite (qb_Exit_root _ sr flags 0) by (now left).
      rewrite (headFlag_false flags HF), qb_Exit_not by exact Hop.
      cbn [option_map]. unfold reset. cbn [qstack qnot qdepth qerr].
      eexists. split; [reflexivity|]. cbn [qstack qerr].
      split; [exact Hs|]. split; [exact He|]. intros _. cbn [qdepth qnot].
      split; [reflexivity|]. now apply tl_false.
  - (* binary *)
    cbn [rootNNF] in Ht. destruct (isLogical Operator) eqn:Hop; [|apply HA; auto].
    2:{ unfold isConnective. cbn [asUnaryNot asBinaryAnd asBinaryOr].
        unfold isLogical in Hop.
        destruct (String.eqb Operator "and" || String.eqb Operator "&&");
          [discriminate Hop|].
        cbn [orb] in Hop. now rewrite Hop. }
    apply andb_true_iff in Ht as [Ht1 Ht2]. cbn [walkRoot]. rewrite Hop.
    rewrite (walkState_eq (BinaryNode Operator t1 t2)).
    cbn [option_map childrenState].
    rewrite qb_Enter_logical by exact Hop.
    assert (Hq1 : RootInv (mk_qb st (false :: flags) 0 None)).
    { intros _. split; [reflexivity|]. now constructor. }
    pose proof (IHt1 Ht1 _ Hq1) as H1.
    rewrite (walkRoot_ext t1 _ (mk_qb st flags 0 None)) in H1 by reflexivity.
    destruct (walkRoot Sprint_float t1 (mk_qb st flags 0 None)) as [w1|];
      cbn [obind RootPost] in *.
    2:{ rewrite H1, walkState_None. reflexivity. }
    destruct H1 as [r1 [E1 [Hs1 [He1 Hi1]]]]. rewrite E1.
    pose proof (IHt2 Ht2 r1 Hi1) as H2.
    rewrite (walkRoot_ext t2 r1 w1 Hs1 He1) in H2.
    destruct (walkRoot Sprint_float t2 w1) as [w2|]; cbn [obind RootPost] in *.
    2:{ rewrite H2. reflexivity. }
    destruct H2 as [r2 [E2 [Hs2 [He2 Hi2]]]]. rewrite E2. cbn [obind].
    destruct (qerr r2) as [e|] eqn:Er.
    + rewrite (qb_Exit_latched Sprint_float _ r2 e Er).
      rewrite (qb_Exit_latched Sprint_float _ (mk_qb _ _ _ _) e)
        by (cbn [qerr]; congruence).
      exists r2. split; [reflexivity|]. cbn [qstack qerr].
      split; [exact Hs2|]. split; [congruence|]. exact Hi2.
    + destruct (Hi2 Er) as [Hd2 HF2]. rewrite <- He2, <- Hs2.
      destruct r2 as [s2 F2 d2 e2]. cbn [qstack qnot qdepth qerr] in *.
      subst d2 e2.
      rewrite (qb_Exit_root _ s2 F2 0) by (now left).
      rewrite (qb_Exit_root _ s2 [] 0) by (now left).
      rewrite (headFlag_false F2 HF2). cbn [headFlag tl].
      destruct (Exit_s (BinaryNode Operator t1 t2) (mk_qb s2 [false] 0 None)) as [x|];
        cbn [option_map]; [|reflexivity].
      eexists. split; [reflexivity|]. unfold reset. cbn [qstack qnot qdepth qerr].
      split; [reflexivity|]. split; [reflexivity|].
      intros _. cbn [qdepth qnot]. split; [reflexivity|]. now apply tl_false.
Qed.

(** In a tree whose negations stand on nodes that are no connective,
    the stack of flags of [queryBuilder] does what a walk without it does:
    the generator ends as [walkRoot] ends, which prints the operand of a
    negation with the flag set and every other operand of the outer
    [and] / [or] chain with the flag clear, each from a stack of flags
    of its own, and lets a conjunction or disjunction exit with the flag
    clear. *)
Theorem generator_flags_are_static (t : Node) :
  rootNNF t = true ->
  sameOutput (generate Sprint_float t)
    (walkRoot Sprint_float t (mk_qb [] [] 0 None)).
Proof.
  intros Ht.
  assert (Hq : RootInv (mk_qb [] [] 0 None)) by (intros _; now split).
  pose proof (root_Walk t Ht _ Hq) as H. unfold generate.
  change (snd (Walk qbv t (Some (mk_qb [] [] 0 None))))
    with (walkState Sprint_float t (Some (mk_qb [] [] 0 None))).
  destruct (walkRoot Sprint_float t (mk_qb [] [] 0 None)) as [w|]; cbn [RootPost] in H.
  - destruct H as [r [-> [Hs [He _]]]]. now split.
  - now rewrite H.
Qed.

(** The tree that the four rewrite passes of [buildCriteria] hand to the
    generator has its negations on nodes that are no connective, so that
    [buildCriteria] returns what the walk without the stack of flags
    gives: the error it ends in, or its fragments wrapped. *)
Theorem buildCriteria_negation_is_static (tree : Node) :
  rootNNF (rewriteTree tree) = true
  /\ buildCriteriaTree Sprint_float tree
     = (qb <- walkRoot Sprint_float (rewriteTree tree) (mk_qb [] [] 0 None) ;;
        match qerr qb with
        | Some e => Some (Err e)
        | None => crits <- wrapCriteria (rev (qstack qb)) ;; Some (Ok crits)
        end).
Proof.
  pose proof (rewriteTree_rootNNF tree) as Ht. split; [exact Ht|].
  assert (Hq : RootInv (mk_qb [] [] 0 None)) by (intros _; now split).
  pose proof (root_Walk _ Ht _ Hq) as H. unfold buildCriteriaTree, generate.
  change (snd (Walk qbv (rewriteTree tree) (Some (mk_qb [] [] 0 None))))
    with (walkState Sprint_float (rewriteTree tree) (Some (mk_qb [] [] 0 None))).
  destruct (walkRoot Sprint_float (rewriteTree tree) (mk_qb [] [] 0 None)) as [w|];
    cbn [RootPost] in H.
  - destruct H as [r [-> [Hs [He _]]]]. cbn [obind]. now rewrite Hs, He.
  - now rewrite H.
Qed.

End RootWalkProofs.

Lemma generator_flags_are_static_witness :
  sameOutput
    (generate Sprint_float_fixed
       (BinaryNode "and" (UnaryNode "not" (IdentifierNode "a")) (IdentifierNode "b")))
    (Some (mk_qb ["[a=" ++ dq ++ "no" ++ dq ++ "][b=" ++ dq ++ "yes" ++ dq ++ "]"] [] 0 None)).
Proof.
  apply (generator_flags_are_static Sprint_float_fixed
           (BinaryNode "and" (UnaryNode "not" (IdentifierNode "a")) (IdentifierNode "b"))).
  reflexivity.
Defined.
